(** * Number & Text Representation Lab: a shallow embedding and its properties

    The development follows [src/components/NumberTextLab.jsx].  The first
    part models the pieces of the JavaScript platform the component calls
    (numbers, 32-bit integer operators, strings as sequences of UTF-16 code
    units, [parseInt], [Number.prototype.toString], the WHATWG UTF-8 encoder
    and decoder).  The second part transcribes the helpers and the event
    handlers of the component.  The theorems come last. *)

From Stdlib Require Import String Ascii ZArith List Lia Bool.
Import ListNotations.
Local Open Scope Z_scope.

(* ================================================================== *)
(** ** Platform: numbers *)

(** A JavaScript Number, restricted to the values the number tab can hold
    exactly: the three non-finite values and the integers.  Every arithmetic
    operator used by the component ([%], [+], [-], [2 ** bits], comparison)
    is exact on integer-valued doubles of the magnitudes that occur, so [Z]
    arithmetic is what the engine computes.  Fractional doubles are outside
    this embedding. *)
Inductive number : Type :=
| NaN
| PosInf
| NegInf
| Fin (z : Z).

(** [Number.isFinite]. *)
Definition isFinite (n : number) : bool :=
  match n with Fin _ => true | _ => false end.

(** [Number.isNaN]. *)
Definition isNaN (n : number) : bool :=
  match n with NaN => true | _ => false end.

(** Rounding of a mathematical integer to the nearest double (ties to even),
    as performed when [parseInt] converts its result to a Number.  Integers
    below [2^53] in magnitude are returned unchanged. *)
Definition toDouble (z : Z) : number :=
  let a := Z.abs z in
  if a <? 2 ^ 53 then Fin z
  else
    let e := Z.log2 a - 52 in
    let q := a / 2 ^ e in
    let r := a mod 2 ^ e in
    let half := 2 ^ (e - 1) in
    let q' := if (half <? r) || ((r =? half) && Z.odd q) then q + 1 else q in
    let m := q' * 2 ^ e in
    if 2 ^ 1024 <=? m then (if z <? 0 then NegInf else PosInf)
    else Fin (Z.sgn z * m).

(** [Math.ceil(a / b)] for integers [a] and positive [b]. *)
Definition ceilDiv (a b : Z) : Z := - ((- a) / b).

(** ToInt32 and ToUint32 of an integer-valued Number. *)
Definition toInt32 (x : Z) : Z := (x + 2 ^ 31) mod 2 ^ 32 - 2 ^ 31.
Definition toUint32 (x : Z) : Z := x mod 2 ^ 32.

(** The operators [<<], [>>>], [&] and [^]: operands go through ToInt32 (or
    ToUint32), the shift count is taken modulo 32. *)
Definition shl (a b : Z) : Z :=
  toInt32 (Z.shiftl (toInt32 a) (Z.land (toUint32 b) 31)).
Definition ushr (a b : Z) : Z :=
  Z.shiftr (toUint32 a) (Z.land (toUint32 b) 31).
Definition band (a b : Z) : Z := Z.land (toInt32 a) (toInt32 b).
Definition bxor (a b : Z) : Z := Z.lxor (toInt32 a) (toInt32 b).

(** ToUint8, as applied by [new Uint8Array(array)] to each element. *)
Definition toUint8 (n : number) : Z :=
  match n with Fin z => z mod 256 | _ => 0 end.

(* ================================================================== *)
(** ** Platform: strings *)

(** A JavaScript string is a sequence of UTF-16 code units. *)
Definition jsstring : Type := list Z.

Definition isCodeUnit (u : Z) : bool := (0 <=? u) && (u <=? 0xFFFF).

(** Literals: an ASCII [string] read as code units. *)
Fixpoint lit (s : string) : jsstring :=
  match s with
  | EmptyString => []
  | String c r => Z.of_N (N_of_ascii c) :: lit r
  end.

(** WhiteSpace and LineTerminator code units: the set removed by [trim] and
    matched by [\s]. *)
Definition isLineTerminator (c : Z) : bool :=
  (c =? 10) || (c =? 13) || (c =? 0x2028) || (c =? 0x2029).

Definition isSpace (c : Z) : bool :=
  (c =? 9) || (c =? 11) || (c =? 12) || (c =? 32) || (c =? 160)
  || (c =? 0x1680) || ((0x2000 <=? c) && (c <=? 0x200A))
  || (c =? 0x202F) || (c =? 0x205F) || (c =? 0x3000) || (c =? 0xFEFF)
  || isLineTerminator c.

Fixpoint trimStart (s : jsstring) : jsstring :=
  match s with
  | [] => []
  | c :: t => if isSpace c then trimStart t else s
  end.

(** [String.prototype.trim]. *)
Definition trim (s : jsstring) : jsstring :=
  rev (trimStart (rev (trimStart s))).

(** [s.replace(/\s+/g, "")]. *)
Definition removeSpaces (s : jsstring) : jsstring :=
  filter (fun c => negb (isSpace c)) s.

(** [String.prototype.toUpperCase] on the ASCII range, which is all that
    [toString(16)] produces. *)
Definition toUpperCase (s : jsstring) : jsstring :=
  map (fun c => if (97 <=? c) && (c <=? 122) then c - 32 else c) s.

(** [String.prototype.padStart] with a one-character filler. *)
Definition padStart (s : jsstring) (len : Z) (ch : Z) : jsstring :=
  repeat ch (Z.to_nat (len - Z.of_nat (length s))) ++ s.

(** Digit characters.  [digitChar d] is the character [toString] prints for
    the digit [d]; [digitValue c] is the value [parseInt] reads from [c]. *)
Definition digitChar (d : Z) : Z := if d <? 10 then 48 + d else 87 + d.

Definition digitValue (c : Z) : option Z :=
  if (48 <=? c) && (c <=? 57) then Some (c - 48)
  else if (97 <=? c) && (c <=? 122) then Some (c - 87)
  else if (65 <=? c) && (c <=? 90) then Some (c - 55)
  else None.

Fixpoint digitsOf (fuel : nat) (radix n : Z) (acc : jsstring) : jsstring :=
  match fuel with
  | O => acc
  | S f =>
      let acc' := digitChar (n mod radix) :: acc in
      if n / radix =? 0 then acc' else digitsOf f radix (n / radix) acc'
  end.

(** [Number.prototype.toString(radix)] on an integer; positional notation,
    lower-case digits, a leading minus sign for negatives.  (A decimal
    rendering switches to exponent notation from [1e21] on; the values
    printed here stay below [2^32].) *)
Definition toStringRadix (n radix : Z) : jsstring :=
  if n <? 0 then 45 :: digitsOf (S (Z.to_nat (Z.log2 (- n)))) radix (- n) []
  else digitsOf (S (Z.to_nat (Z.log2 n))) radix n [].

(** The longest prefix of radix-[r] digits, read most significant first:
    the accumulated value and how many digits were read. *)
Fixpoint readDigits (r : Z) (s : jsstring) (acc : Z) (count : nat) : Z * nat :=
  match s with
  | [] => (acc, count)
  | c :: t =>
      match digitValue c with
      | Some d => if d <? r then readDigits r t (acc * r + d) (S count)
                  else (acc, count)
      | None => (acc, count)
      end
  end.

Definition stripHexPrefix (s : jsstring) : option jsstring :=
  match s with
  | z :: x :: t => if (z =? 48) && ((x =? 120) || (x =? 88)) then Some t else None
  | _ => None
  end.

(** [parseInt(string, radix)] (ECMA-262, 19.2.5). *)
Definition parseInt (str : jsstring) (radix : Z) : number :=
  let s := trimStart str in
  let '(sign, s) :=
    match s with
    | c :: t => if c =? 45 then (-1, t) else if c =? 43 then (1, t) else (1, s)
    | [] => (1, s)
    end in
  let r := toInt32 radix in
  if negb (r =? 0) && ((r <? 2) || (36 <? r)) then NaN
  else
    let '(r, s) :=
      if (r =? 0) || (r =? 16) then
        match stripHexPrefix s with
        | Some t => (16, t)
        | None => (if r =? 0 then 10 else r, s)
        end
      else (r, s) in
    let '(v, count) := readDigits r s 0 O in
    match count with
    | O => NaN
    | S _ => toDouble (sign * v)
    end.

(** Regular-expression replacement [s.replace(/(.{n})/g, "$1 ")] for
    [n >= 1]: scanning from the left, every run of [n] characters none of
    which is a line terminator is followed by a space; a character where no
    such run starts is copied. *)
Fixpoint insertSpaceEvery (fuel : nat) (n : nat) (s : jsstring) : jsstring :=
  match fuel with
  | O => []
  | S f =>
      match s with
      | [] => []
      | c :: t =>
          let g := firstn n s in
          if (length g =? n)%nat
             && forallb (fun x => negb (isLineTerminator x)) g
          then g ++ 32 :: insertSpaceEvery f n (skipn n s)
          else c :: insertSpaceEvery f n t
      end
  end.

(** [s.replace(/0x/gi, " ")]. *)
Fixpoint replace0x (s : jsstring) : jsstring :=
  match s with
  | [] => []
  | c :: t =>
      match t with
      | x :: t' =>
          if (c =? 48) && ((x =? 120) || (x =? 88)) then 32 :: replace0x t'
          else c :: replace0x t
      | [] => [c]
      end
  end.

Definition isHexDigit (c : Z) : bool :=
  ((48 <=? c) && (c <=? 57)) || ((97 <=? c) && (c <=? 102))
  || ((65 <=? c) && (c <=? 70)).

(** Strings made of hexadecimal digits only. *)
Definition hexString (s : jsstring) : Prop :=
  Forall (fun c => isHexDigit c = true) s.

(** [s.replace(/[^0-9a-fA-F]/g, " ")]. *)
Definition replaceNonHex (s : jsstring) : jsstring :=
  map (fun c => if isHexDigit c then c else 32) s.

(** [s.split(/\s+/)]: [cur] holds the current piece in reverse, [inSep]
    tells whether the scan is inside a separator. *)
Fixpoint splitSpacesFrom (cur : jsstring) (inSep : bool) (s : jsstring)
  : list jsstring :=
  match s with
  | [] => [rev cur]
  | c :: t =>
      if isSpace c then
        if inSep then splitSpacesFrom [] true t
        else rev cur :: splitSpacesFrom [] true t
      else splitSpacesFrom (c :: cur) false t
  end.

Definition splitSpaces (s : jsstring) : list jsstring :=
  splitSpacesFrom [] false s.

(** [Boolean(piece)] for a string: the empty string is falsy. *)
Definition truthyString (s : jsstring) : bool :=
  match s with [] => false | _ => true end.

(* ================================================================== *)
(** ** Platform: Unicode, UTF-16 and UTF-8 *)

Definition isLeadSurrogate (u : Z) : bool := (0xD800 <=? u) && (u <=? 0xDBFF).
Definition isTrailSurrogate (u : Z) : bool := (0xDC00 <=? u) && (u <=? 0xDFFF).
Definition isSurrogate (u : Z) : bool := (0xD800 <=? u) && (u <=? 0xDFFF).

(** A Unicode scalar value: a code point that is not a surrogate. *)
Definition isScalarValue (c : Z) : bool :=
  (0 <=? c) && (c <=? 0x10FFFF) && negb (isSurrogate c).

Definition surrogatePair (lead trail : Z) : Z :=
  (lead - 0xD800) * 0x400 + (trail - 0xDC00) + 0x10000.

(** The string iterator ([String.prototype[Symbol.iterator]]), which
    [Array.from] uses: the string is cut into pieces of one code point each, a
    lead surrogate followed by a trail surrogate forming one piece of two
    code units, any other code unit a piece of its own. *)
Fixpoint stringIterator (s : jsstring) : list jsstring :=
  match s with
  | [] => []
  | u :: t =>
      match t with
      | v :: t' =>
          if isLeadSurrogate u && isTrailSurrogate v
          then [u; v] :: stringIterator t'
          else [u] :: stringIterator t
      | [] => [[u]]
      end
  end.

(** [ch.codePointAt(0)]; [None] is [undefined] (empty string). *)
Definition codePointAt0 (ch : jsstring) : option Z :=
  match ch with
  | [] => None
  | u :: t =>
      match t with
      | v :: _ =>
          if isLeadSurrogate u && isTrailSurrogate v
          then Some (surrogatePair u v) else Some u
      | [] => Some u
      end
  end.

(** The code units of a code point ([String.fromCodePoint]); also how a
    decoder's output scalar values become a string. *)
Definition codeUnitsOf (c : Z) : jsstring :=
  if c <? 0x10000 then [c]
  else [0xD800 + (c - 0x10000) / 0x400; 0xDC00 + (c - 0x10000) mod 0x400].

Definition fromCodePoints (l : list Z) : jsstring := flat_map codeUnitsOf l.

(** Conversion of a string to a sequence of scalar values (Web IDL
    USVString), applied to the argument of [TextEncoder.encode]: surrogate
    pairs are combined, an unpaired surrogate becomes U+FFFD. *)
Fixpoint toScalarValues (s : jsstring) : list Z :=
  match s with
  | [] => []
  | u :: t =>
      match t with
      | v :: t' =>
          if isLeadSurrogate u && isTrailSurrogate v
          then surrogatePair u v :: toScalarValues t'
          else (if isSurrogate u then 0xFFFD else u) :: toScalarValues t
      | [] => [if isSurrogate u then 0xFFFD else u]
      end
  end.

(** [String.prototype.isWellFormed]: no unpaired surrogate. *)
Fixpoint isWellFormed (s : jsstring) : bool :=
  match s with
  | [] => true
  | u :: t =>
      match t with
      | v :: t' =>
          if isLeadSurrogate u && isTrailSurrogate v then isWellFormed t'
          else negb (isSurrogate u) && isWellFormed t
      | [] => negb (isSurrogate u)
      end
  end.

(** The continuation bytes of the UTF-8 encoder: [count] bytes
    [0x80 | ((cp >> (6 * (count - 1))) & 0x3F)], [count] counting down. *)
Fixpoint utf8Continuation (cp : Z) (count : nat) : list Z :=
  match count with
  | O => []
  | S k =>
      Z.lor 0x80 (Z.land (Z.shiftr cp (6 * Z.of_nat k)) 0x3F)
      :: utf8Continuation cp k
  end.

(** The UTF-8 encoder's handler (WHATWG Encoding, 8.1.2) on one scalar
    value. *)
Definition utf8EncodeScalar (cp : Z) : list Z :=
  if cp <=? 0x7F then [cp]
  else
    let '(count, offset) :=
      if cp <=? 0x7FF then (1%nat, 0xC0)
      else if cp <=? 0xFFFF then (2%nat, 0xE0)
      else (3%nat, 0xF0) in
    (Z.shiftr cp (6 * Z.of_nat count) + offset) :: utf8Continuation cp count.

(** [new TextEncoder().encode(str)]. *)
Definition TextEncoder_encode (s : jsstring) : list Z :=
  flat_map utf8EncodeScalar (toScalarValues s).

(** The state of the UTF-8 decoder (WHATWG Encoding, 8.1.1). *)
Record Utf8Decoder : Type := mkUtf8Decoder {
  code_point : Z;
  bytes_seen : Z;
  bytes_needed : Z;
  lower_boundary : Z;
  upper_boundary : Z
}.

Definition utf8Initial : Utf8Decoder := mkUtf8Decoder 0 0 0 0x80 0xBF.

Inductive HandlerResult : Type :=
| Finished
| Continue (d : Utf8Decoder)
| CodePoint (c : Z) (d : Utf8Decoder)
| DecodeError (d : Utf8Decoder) (restore : bool).

(** The decoder's handler; [None] is end-of-queue.  [restore] tells that the
    byte is put back in front of the input. *)
Definition utf8Handler (d : Utf8Decoder) (item : option Z) : HandlerResult :=
  match item with
  | None =>
      if negb (bytes_needed d =? 0)
      then DecodeError (mkUtf8Decoder (code_point d) (bytes_seen d) 0
                          (lower_boundary d) (upper_boundary d)) false
      else Finished
  | Some b =>
      if bytes_needed d =? 0 then
        if (0x00 <=? b) && (b <=? 0x7F) then CodePoint b d
        else if (0xC2 <=? b) && (b <=? 0xDF) then
          Continue (mkUtf8Decoder (Z.land b 0x1F) (bytes_seen d) 1
                      (lower_boundary d) (upper_boundary d))
        else if (0xE0 <=? b) && (b <=? 0xEF) then
          Continue (mkUtf8Decoder (Z.land b 0xF) (bytes_seen d) 2
                      (if b =? 0xE0 then 0xA0 else lower_boundary d)
                      (if b =? 0xED then 0x9F else upper_boundary d))
        else if (0xF0 <=? b) && (b <=? 0xF4) then
          Continue (mkUtf8Decoder (Z.land b 0x7) (bytes_seen d) 3
                      (if b =? 0xF0 then 0x90 else lower_boundary d)
                      (if b =? 0xF4 then 0x8F else upper_boundary d))
        else DecodeError d false
      else if negb ((lower_boundary d <=? b) && (b <=? upper_boundary d)) then
        DecodeError utf8Initial true
      else
        let cp := Z.lor (Z.shiftl (code_point d) 6) (Z.land b 0x3F) in
        let seen := bytes_seen d + 1 in
        if negb (seen =? bytes_needed d) then
          Continue (mkUtf8Decoder cp seen (bytes_needed d) 0x80 0xBF)
        else CodePoint cp utf8Initial
  end.

(** The states the decoder goes through between two bytes: the initial
    state, or a sequence under way, with the code point bits read so far
    within the bounds that the lead byte and the boundaries allow. *)
Definition decoderOk (d : Utf8Decoder) : Prop :=
  let cp := code_point d in
  d = utf8Initial
  \/ (bytes_needed d = 1 /\ bytes_seen d = 0 /\ 2 <= cp <= 31
      /\ lower_boundary d = 0x80 /\ upper_boundary d = 0xBF)
  \/ (bytes_needed d = 2 /\ bytes_seen d = 0 /\ 0 <= cp <= 15
      /\ lower_boundary d = (if cp =? 0 then 0xA0 else 0x80)
      /\ upper_boundary d = (if cp =? 13 then 0x9F else 0xBF))
  \/ (bytes_needed d = 2 /\ bytes_seen d = 1
      /\ (0x20 <= cp < 0x360 \/ 0x380 <= cp <= 0x3FF)
      /\ lower_boundary d = 0x80 /\ upper_boundary d = 0xBF)
  \/ (bytes_needed d = 3 /\ bytes_seen d = 0 /\ 0 <= cp <= 4
      /\ lower_boundary d = (if cp =? 0 then 0x90 else 0x80)
      /\ upper_boundary d = (if cp =? 4 then 0x8F else 0xBF))
  \/ (bytes_needed d = 3 /\ bytes_seen d = 1 /\ 0x10 <= cp <= 0x10F
      /\ lower_boundary d = 0x80 /\ upper_boundary d = 0xBF)
  \/ (bytes_needed d = 3 /\ bytes_seen d = 2 /\ 0x400 <= cp <= 0x43FF
      /\ lower_boundary d = 0x80 /\ upper_boundary d = 0xBF).

(** The boundaries that a lead byte sets for the byte after it. *)
Definition lower3 (b1 : Z) : Z := if b1 =? 0xE0 then 0xA0 else 0x80.
Definition upper3 (b1 : Z) : Z := if b1 =? 0xED then 0x9F else 0xBF.
Definition lower4 (b1 : Z) : Z := if b1 =? 0xF0 then 0x90 else 0x80.
Definition upper4 (b1 : Z) : Z := if b1 =? 0xF4 then 0x8F else 0xBF.

(** The decoder's state after it has accepted the bytes [p] of a sequence
    that is not complete yet. *)
Definition pendingBytes (d : Utf8Decoder) (p : list Z) : Prop :=
  (d = utf8Initial /\ p = [])
  \/ (exists b1, p = [b1] /\ 0xC2 <= b1 <= 0xDF
        /\ d = mkUtf8Decoder (b1 mod 32) 0 1 0x80 0xBF)
  \/ (exists b1, p = [b1] /\ 0xE0 <= b1 <= 0xEF
        /\ d = mkUtf8Decoder (b1 mod 16) 0 2 (lower3 b1) (upper3 b1))
  \/ (exists b1 b2, p = [b1; b2] /\ 0xE0 <= b1 <= 0xEF
        /\ lower3 b1 <= b2 <= upper3 b1
        /\ d = mkUtf8Decoder ((b1 mod 16) * 64 + b2 mod 64) 1 2 0x80 0xBF)
  \/ (exists b1, p = [b1] /\ 0xF0 <= b1 <= 0xF4
        /\ d = mkUtf8Decoder (b1 mod 8) 0 3 (lower4 b1) (upper4 b1))
  \/ (exists b1 b2, p = [b1; b2] /\ 0xF0 <= b1 <= 0xF4
        /\ lower4 b1 <= b2 <= upper4 b1
        /\ d = mkUtf8Decoder ((b1 mod 8) * 64 + b2 mod 64) 1 3 0x80 0xBF)
  \/ (exists b1 b2 b3, p = [b1; b2; b3] /\ 0xF0 <= b1 <= 0xF4
        /\ lower4 b1 <= b2 <= upper4 b1 /\ 0x80 <= b3 <= 0xBF
        /\ d = mkUtf8Decoder (((b1 mod 8) * 64 + b2 mod 64) * 64 + b3 mod 64)
                             2 3 0x80 0xBF).

(** What the handler returns after the accepted bytes [p] and one more
    byte [b]. *)
Definition stepAccepts (p : list Z) (b : Z) (r : HandlerResult) : Prop :=
  match r with
  | Finished => False
  | Continue d' => pendingBytes d' (p ++ [b])
  | CodePoint c d' => d' = utf8Initial /\ utf8EncodeScalar c = p ++ [b]
  | DecodeError _ _ => True
  end.

(** The bytes without a leading UTF-8 byte order mark [EF BB BF]. *)
Definition withoutBOMBytes (bytes : list Z) : list Z :=
  match bytes with
  | b1 :: b2 :: b3 :: t =>
      if (b1 =? 0xEF) && (b2 =? 0xBB) && (b3 =? 0xBF) then t else bytes
  | _ => bytes
  end.

(** What the handler returns from a state of the invariant. *)
Definition resultOk (r : HandlerResult) : Prop :=
  match r with
  | Finished => True
  | Continue d' => decoderOk d'
  | CodePoint c d' => isScalarValue c = true /\ decoderOk d'
  | DecodeError d' _ => decoderOk d'
  end.

(** Running the decoder over a byte sequence (the "process a queue" loop of
    the Encoding standard).  With error mode "fatal" an error ends the run
    with an exception, here [None]; with error mode "replacement" U+FFFD is
    emitted and the run goes on.  A restored byte is handled once more, by
    the decoder as the error left it. *)
Definition onError (fatal : bool) (rest : option (list Z)) : option (list Z) :=
  if fatal then None else option_map (cons 0xFFFD) rest.

Fixpoint utf8Run (fatal : bool) (d : Utf8Decoder) (bytes : list Z)
  : option (list Z) :=
  match bytes with
  | [] =>
      match utf8Handler d None with
      | DecodeError _ _ => onError fatal (Some [])
      | _ => Some []
      end
  | b :: t =>
      match utf8Handler d (Some b) with
      | Finished => Some []
      | Continue d' => utf8Run fatal d' t
      | CodePoint c d' => option_map (cons c) (utf8Run fatal d' t)
      | DecodeError d' false => onError fatal (utf8Run fatal d' t)
      | DecodeError d' true =>
          onError fatal
            match utf8Handler d' (Some b) with
            | Finished => Some []
            | Continue d'' => utf8Run fatal d'' t
            | CodePoint c d'' => option_map (cons c) (utf8Run fatal d'' t)
            | DecodeError d'' _ => onError fatal (utf8Run fatal d'' t)
            end
      end
  end.

(** Serialising the decoder's output: unless [ignoreBOM] is set, a first
    item U+FEFF is dropped. *)
Definition dropBOM (ignoreBOM : bool) (l : list Z) : list Z :=
  if ignoreBOM then l
  else match l with
       | c :: t => if c =? 0xFEFF then t else l
       | [] => l
       end.

(** [new TextDecoder("utf-8", {fatal, ignoreBOM}).decode(bytes)]; [None]
    stands for the TypeError thrown in fatal mode. *)
Definition TextDecoder_decode (fatal ignoreBOM : bool) (bytes : list Z)
  : option jsstring :=
  option_map (fun out => fromCodePoints (dropBOM ignoreBOM out))
             (utf8Run fatal utf8Initial bytes).

(* ================================================================== *)
(** ** The component: helpers *)

(** [const clamp = (n, min, max) => Math.min(max, Math.max(min, n))] *)
Definition clamp (n min max : Z) : Z := Z.min max (Z.max min n).

(** [const padLeft = (s, len, ch = "0") => (s + "").padStart(len, ch)] *)
Definition padLeft (s : jsstring) (len : Z) : jsstring := padStart s len 48.

(** [const groupEvery = (s, n, sep = " ") =>
       s.replace(new RegExp(`(.{${n}})`, "g"), "$1 ").trim()];
    the body does not use [sep]. *)
Definition groupEvery (s : jsstring) (n : nat) : jsstring :=
  trim (insertSpaceEvery (length s) n s).

(** [toUnsigned(n, bits)].  The remainder operator [%] takes the sign of the
    dividend ([Z.rem]). *)
Definition toUnsigned (n : number) (bits : Z) : Z :=
  let max := 2 ^ bits - 1 in
  match n with
  | Fin n =>
      if n <? 0 then
        Z.rem (Z.rem n (max + 1) + (max + 1)) (max + 1)
      else clamp n 0 max
  | _ => 0
  end.

(** [unsignedToSigned(u, bits)].  [max / 2] is a real division; the test
    [u >= max / 2] is written [max <= 2 * u]. *)
Definition unsignedToSigned (u bits : Z) : Z :=
  let max := 2 ^ bits in
  if max <=? 2 * u then u - max else u.

(** [toHex(u, bits)] and [toBin(u, bits)]. *)
Definition toHex (u bits : Z) : jsstring :=
  padLeft (toUpperCase (toStringRadix u 16)) (ceilDiv bits 4).

Definition toBin (u bits : Z) : jsstring :=
  padLeft (toStringRadix u 2) bits.

(** [parseFromBase(str, base)]; [None] is [null] or [undefined]. *)
Definition parseFromBase (str : option jsstring) (base : Z) : number :=
  match str with
  | None => NaN
  | Some [] => NaN
  | Some s =>
      let cleaned := trim s in
      let n := parseInt cleaned base in
      if isNaN n then NaN else n
  end.

(** [utf8Bytes(str)]; [str || ""] turns [null], [undefined] and the empty
    string into the empty string. *)
Definition orEmpty (str : option jsstring) : jsstring :=
  match str with Some s => s | None => [] end.

Definition utf8Bytes (str : option jsstring) : list Z :=
  TextEncoder_encode (orEmpty str).

(** [codePoints(str)]: [Array.from(str || "", ch => ch.codePointAt(0))]. *)
Definition codePoints (str : option jsstring) : list (option Z) :=
  map codePointAt0 (stringIterator (orEmpty str)).

(* ================================================================== *)
(** ** The component: state of the number tab and its handlers *)

(** [{target, bits}], the value held by [challenge]. *)
Record Challenge : Type := mkChallenge {
  target : Z;
  challenge_bits : Z
}.

(** The three [useState] cells of the number tab.  [unsignedValue] is a
    finite number in every state: each update is guarded by
    [Number.isFinite] or comes from the range slider. *)
Record State : Type := mkState {
  bits : Z;
  unsignedValue : Z;
  challenge : option Challenge
}.

(** [useState(8)], [useState(65)], [useState(null)]. *)
Definition initialState : State := mkState 8 65 None.

(** [const maxVal = 2 ** bits - 1] *)
Definition maxVal (st : State) : Z := 2 ^ bits st - 1.

Definition setUnsignedValue (st : State) (v : Z) : State :=
  mkState (bits st) v (challenge st).

(** The bytes pushed by the loop
    [for (let i = totalBytes - 1; i >= 0; i--) bytes.push((val >>> (i * 8)) & 0xff)],
    [k] being the number of iterations left, so that [i = k - 1]. *)
Fixpoint bytesBE_loop (val : Z) (k : nat) : list Z :=
  match k with
  | O => []
  | S i => band (ushr val (Z.of_nat i * 8)) 0xff :: bytesBE_loop val i
  end.

(** [bytesBE] and [bytesLE]. *)
Definition bytesBE (unsignedValue bits : Z) : list Z :=
  let val := ushr unsignedValue 0 in
  let totalBytes := ceilDiv bits 8 in
  bytesBE_loop val (Z.to_nat totalBytes).

Definition bytesLE (unsignedValue bits : Z) : list Z :=
  rev (bytesBE unsignedValue bits).

(** [setFromDecimal(str)], given [n = Number(str)]. *)
Definition setFromDecimal (st : State) (n : number) : State :=
  if isFinite n then setUnsignedValue st (toUnsigned n (bits st)) else st.

(** [setFromHex(str)] *)
Definition setFromHex (st : State) (str : jsstring) : State :=
  let n := parseFromBase (Some str) 16 in
  if isFinite n then setUnsignedValue st (toUnsigned n (bits st)) else st.

(** [setFromBinary(str)] *)
Definition setFromBinary (st : State) (str : jsstring) : State :=
  let n := parseFromBase (Some (removeSpaces str)) 2 in
  if isFinite n then setUnsignedValue st (toUnsigned n (bits st)) else st.

(** The range slider: [onChange={(e) => setUnsignedValue(Number(e.target.value))}]. *)
Definition setFromSlider (st : State) (n : Z) : State := setUnsignedValue st n.

(** [toggleBit(i)] *)
Definition toggleBit (st : State) (i : Z) : State :=
  let mask := shl 1 (bits st - 1 - i) in
  let next := bxor (unsignedValue st) mask in
  setUnsignedValue st (toUnsigned (Fin next) (bits st)).

(** [makeChallenge()], given the draw [t = Math.floor(Math.random() * 2 ** bits)]. *)
Definition makeChallenge (st : State) (t : Z) : State :=
  mkState (bits st) (unsignedValue st) (Some (mkChallenge t (bits st))).

(** [challenge && unsignedValue === challenge.target && bits === challenge.bits],
    as a truth value. *)
Definition challengeCorrect (st : State) : bool :=
  match challenge st with
  | None => false
  | Some c => (unsignedValue st =? target c) && (bits st =? challenge_bits c)
  end.

(** A click on a bit-width button: [setBits(b)], followed, when [bits] has
    changed, by the effect [useEffect(() => { setChallenge(null) }, [bits])]. *)
Definition setBits (st : State) (b : Z) : State :=
  if b =? bits st then st
  else mkState b (unsignedValue st) None.

(** What the user can do on the number tab. *)
Inductive Event : Type :=
| ClickBitWidth (b : Z)
| TypeDecimal (n : number)
| TypeHex (str : jsstring)
| TypeBinary (str : jsstring)
| MoveSlider (n : Z)
| ClickBit (i : Z)
| ClickNewTarget (t : Z).

(** What the page lets through: the three width buttons, a slider position
    between [min] and [max], one of the [bits] bit buttons, a draw of
    [Math.floor(Math.random() * 2 ** bits)]. *)
Definition validEvent (st : State) (e : Event) : bool :=
  match e with
  | ClickBitWidth b => (b =? 8) || (b =? 16) || (b =? 32)
  | MoveSlider n => (0 <=? n) && (n <=? maxVal st)
  | ClickBit i => (0 <=? i) && (i <? bits st)
  | ClickNewTarget t => (0 <=? t) && (t <? 2 ^ bits st)
  | TypeDecimal _ | TypeHex _ | TypeBinary _ => true
  end.

Definition step (st : State) (e : Event) : State :=
  match e with
  | ClickBitWidth b => setBits st b
  | TypeDecimal n => setFromDecimal st n
  | TypeHex s => setFromHex st s
  | TypeBinary s => setFromBinary st s
  | MoveSlider n => setFromSlider st n
  | ClickBit i => toggleBit st i
  | ClickNewTarget t => makeChallenge st t
  end.

Definition run (st : State) (es : list Event) : State := fold_left step es st.

(** A sequence of events each of which the page lets through. *)
Fixpoint validTrace (st : State) (es : list Event) : bool :=
  match es with
  | [] => true
  | e :: r => validEvent st e && validTrace (step st e) r
  end.

Inductive reachable : State -> Prop :=
| reachable_init : reachable initialState
| reachable_step st e :
    reachable st -> validEvent st e = true -> reachable (step st e).

(** The invariant of the data model: the value fits the width. *)
Definition inRange (v bits : Z) : Prop := 0 <= v <= 2 ^ bits - 1.

Definition validBits (bits : Z) : Prop := bits = 8 \/ bits = 16 \/ bits = 32.

(* ================================================================== *)
(** ** The component: the decoder tool *)

(** The state cells [decoded] and [error] after the effect has run. *)
Record DecoderState : Type := mkDecoderState {
  decoded : jsstring;
  error : jsstring
}.

(** The bytes read from the hex input. *)
Definition hexInputBytes (hexInput : jsstring) : list Z :=
  map toUint8
    (map (fun h => parseInt h 16)
       (filter truthyString
          (splitSpaces (trim (replaceNonHex (replace0x hexInput)))))).

(** The message shown in the [catch] branch; its hyphen is U+2011. *)
Definition invalidMessage : jsstring :=
  lit "Invalid UTF" ++ [0x2011] ++ lit "8 or hex format".

(** The effect of [DecoderTool]: the [try] block decodes with
    [new TextDecoder()], whose [fatal] and [ignoreBOM] default to [false];
    the [catch] block runs when the [try] block throws. *)
Definition DecoderTool (hexInput : jsstring) : DecoderState :=
  match TextDecoder_decode false false (hexInputBytes hexInput) with
  | Some text => mkDecoderState text []
  | None => mkDecoderState [] invalidMessage
  end.

(** The decoder of the spec's round trip: the decoding step of
    [DecoderTool]. *)
Definition decodeUtf8 (bytes : list Z) : option jsstring :=
  TextDecoder_decode false false bytes.


(** The number whose digits in base 256, most significant first, are the
    given bytes. *)
Definition bigEndianValue (bytes : list Z) : Z :=
  fold_left (fun acc x => acc * 256 + x) bytes 0.

(* ================================================================== *)
(** ** The component: what the page renders *)

(** The bit buttons ([Array.from({ length: bits }).map((_, i) => ...)]):
    [bitIndex = bits - 1 - i], [mask = 1 << bitIndex],
    [on = (unsignedValue & mask) !== 0], [weight = 1 << bitIndex]. *)
Definition bitIndex (st : State) (i : Z) : Z := bits st - 1 - i.

Definition bitOn (st : State) (i : Z) : bool :=
  let mask := shl 1 (bitIndex st i) in
  negb (band (unsignedValue st) mask =? 0).

Definition bitWeight (st : State) (i : Z) : Z := shl 1 (bitIndex st i).

(** [Array.prototype.join] on an array of strings. *)
Fixpoint join (sep : jsstring) (l : list jsstring) : jsstring :=
  match l with
  | [] => []
  | x :: r =>
      match r with
      | [] => x
      | _ :: _ => x ++ sep ++ join sep r
      end
  end.

(** The hex label of a byte card:
    [padLeft(b.toString(16).toUpperCase(), 2)]. *)
Definition byteHex (b : Z) : jsstring :=
  padLeft (toUpperCase (toStringRadix b 16)) 2.

(** The text put on the clipboard by "Copy as hex":
    [utf8.map(b => "0x" + padLeft(b.toString(16).toUpperCase(), 2)).join(" ")]. *)
Definition copyAsHex (utf8 : list Z) : jsstring :=
  join (lit " ") (map (fun b => lit "0x" ++ byteHex b) utf8).

(** The count shown as "Characters": [Array.from(text || "").length]. *)
Definition characterCount (text : option jsstring) : nat :=
  length (stringIterator (orEmpty text)).

(** [rgbToHex(r, g, b)] of the graphics analyzer:
    ["#" + [r, g, b].map((v) => v.toString(16).padStart(2, "0")).join("").toUpperCase()]. *)
Definition rgbToHex (r g b : Z) : jsstring :=
  lit "#"
  ++ toUpperCase
       (join [] (map (fun v => padStart (toStringRadix v 16) 2 48) [r; g; b])).

(* ================================================================== *)
(** * Properties *)

(** ** Arithmetic of the 32-bit operators *)

Section Int32.

Lemma validBits_cases (b : Z) (P : Z -> Prop) :
  validBits b -> P 8 -> P 16 -> P 32 -> P b.
Proof. intros [-> | [-> | ->]]; auto. Qed.

Lemma validBits_bounds b : validBits b -> 8 <= b <= 32.
Proof. unfold validBits; lia. Qed.

Lemma pow2_pos b : 0 <= b -> 0 < 2 ^ b.
Proof. intros; apply Z.pow_pos_nonneg; lia. Qed.

Lemma toInt32_range x : - 2 ^ 31 <= toInt32 x < 2 ^ 31.
Proof.
  unfold toInt32.
  assert (H := Z.mod_pos_bound (x + 2 ^ 31) (2 ^ 32) eq_refl).
  change (2 ^ 32) with (2 * 2 ^ 31) in *. lia.
Qed.

Lemma toInt32_congr x : toInt32 x mod 2 ^ 32 = x mod 2 ^ 32.
Proof.
  unfold toInt32.
  rewrite Zminus_mod, Zmod_mod, <- Zminus_mod.
  f_equal; lia.
Qed.

Lemma toInt32_small x : - 2 ^ 31 <= x < 2 ^ 31 -> toInt32 x = x.
Proof.
  intros H. unfold toInt32.
  rewrite Z.mod_small; [lia |].
  change (2 ^ 32) with (2 * 2 ^ 31). lia.
Qed.

Lemma toInt32_testbit x j :
  0 <= j < 32 -> Z.testbit (toInt32 x) j = Z.testbit x j.
Proof.
  intros Hj.
  rewrite <- (Z.mod_pow2_bits_low (toInt32 x) 32 j) by lia.
  rewrite toInt32_congr.
  apply Z.mod_pow2_bits_low; lia.
Qed.

Lemma toUint32_small x : 0 <= x < 2 ^ 32 -> toUint32 x = x.
Proof. intros; unfold toUint32; apply Z.mod_small; assumption. Qed.

Lemma shift_count k : 0 <= k < 32 -> Z.land (toUint32 k) 31 = k.
Proof.
  intros Hk. rewrite toUint32_small by (change (2 ^ 32) with 4294967296; lia).
  change 31 with (Z.ones 5). rewrite Z.land_ones by lia.
  apply Z.mod_small. change (2 ^ 5) with 32. lia.
Qed.

Lemma land_255 x : Z.land x 255 = x mod 256.
Proof. change 255 with (Z.ones 8). rewrite Z.land_ones by lia. reflexivity. Qed.

Lemma band_255 x : band x 255 = x mod 256.
Proof.
  unfold band. rewrite (toInt32_small 255) by (cbn; lia).
  rewrite land_255.
  assert (Hd : (256 | 2 ^ 32)) by (exists (2 ^ 24); reflexivity).
  rewrite <- (Z.mod_mod_divide (toInt32 x) _ _ Hd), toInt32_congr.
  apply Z.mod_mod_divide, Hd.
Qed.

Lemma lxor_below a b n :
  0 <= n -> 0 <= a < 2 ^ n -> 0 <= b < 2 ^ n -> 0 <= Z.lxor a b < 2 ^ n.
Proof.
  intros Hn Ha Hb.
  assert (H0 : 0 <= Z.lxor a b) by (apply Z.lxor_nonneg; lia).
  split; [assumption |].
  destruct (Z.eq_dec (Z.lxor a b) 0) as [-> | Hne]; [apply pow2_pos; lia |].
  assert (0 < n).
  { destruct (Z.eq_dec n 0) as [-> | ?]; [| lia].
    exfalso; apply Hne.
    replace a with 0 by (cbn in Ha; lia). replace b with 0 by (cbn in Hb; lia).
    reflexivity. }
  apply Z.log2_lt_pow2; [lia |].
  eapply Z.le_lt_trans; [apply Z.log2_lxor; lia |].
  apply Z.max_lub_lt.
  - destruct (Z.eq_dec a 0) as [-> | ?]; [cbn | apply Z.log2_lt_pow2]; lia.
  - destruct (Z.eq_dec b 0) as [-> | ?]; [cbn | apply Z.log2_lt_pow2]; lia.
Qed.

Lemma lxor_int32 a b :
  - 2 ^ 31 <= a < 2 ^ 31 -> - 2 ^ 31 <= b < 2 ^ 31 ->
  0 <= Z.lxor a b -> Z.lxor a b < 2 ^ 31.
Proof.
  intros Ha Hb H0.
  apply Z.lxor_nonneg in H0.
  destruct (Z_lt_le_dec a 0) as [Hneg | Hpos].
  - assert (b < 0) by lia.
    rewrite <- Z.lxor_lnot_lnot.
    apply lxor_below; unfold Z.lnot; lia.
  - apply lxor_below; lia.
Qed.

Lemma lxor_int32_range a b :
  - 2 ^ 31 <= a < 2 ^ 31 -> - 2 ^ 31 <= b < 2 ^ 31 ->
  - 2 ^ 31 <= Z.lxor a b < 2 ^ 31.
Proof.
  intros Ha Hb.
  destruct (Z_lt_le_dec (Z.lxor a b) 0) as [Hneg | Hpos].
  - split; [| lia].
    assert (Hl := Z.lnot_lxor_l a b).
    assert (H : Z.lxor (Z.lnot a) b < 2 ^ 31).
    { apply lxor_int32; [unfold Z.lnot; lia | assumption |].
      rewrite <- Hl. unfold Z.lnot. lia. }
    rewrite <- Hl in H. unfold Z.lnot in H. lia.
  - split; [lia | apply lxor_int32; assumption].
Qed.

End Int32.

(** ** [toUnsigned] *)

Section ToUnsigned.

Lemma toUnsigned_negative n b :
  0 <= b -> n < 0 -> toUnsigned (Fin n) b = n mod 2 ^ b.
Proof.
  intros Hb Hn. unfold toUnsigned.
  destruct (Z.ltb_spec n 0) as [_ | ?]; [| lia].
  replace (2 ^ b - 1 + 1) with (2 ^ b) by lia.
  assert (Hm := pow2_pos b Hb).
  assert (Hq := Z.quot_rem' n (2 ^ b)).
  assert (Hr1 := Z.rem_bound_abs n (2 ^ b) ltac:(lia)).
  assert (Hr2 := Z.rem_nonpos n (2 ^ b) ltac:(lia) ltac:(lia)).
  rewrite Z.rem_mod_nonneg by lia.
  replace (Z.rem n (2 ^ b) + 2 ^ b)
    with (n + (1 - Z.quot n (2 ^ b)) * 2 ^ b) by lia.
  apply Z_mod_plus_full.
Qed.

Lemma toUnsigned_nonnegative n b :
  0 <= b -> 0 <= n -> toUnsigned (Fin n) b = Z.min n (2 ^ b - 1).
Proof.
  intros Hb Hn. unfold toUnsigned, clamp.
  assert (Hm := pow2_pos b Hb).
  destruct (Z.ltb_spec n 0); lia.
Qed.

Lemma toUnsigned_range n b : 0 <= b -> inRange (toUnsigned n b) b.
Proof.
  intros Hb. unfold inRange.
  assert (Hm := pow2_pos b Hb).
  destruct n as [ | | | z]; try (cbn; lia).
  destruct (Z_lt_le_dec z 0).
  - rewrite toUnsigned_negative by lia.
    assert (H := Z.mod_pos_bound z (2 ^ b) Hm). lia.
  - rewrite toUnsigned_nonnegative by lia. lia.
Qed.

End ToUnsigned.

(** C3, as the claim states it, fails: a non-negative input above the range
    is clamped to [2^bits - 1], not reduced modulo [2^bits];
    [toUnsigned(300, 8)] is [255], where wrap-around gives [44]. *)
Lemma toUnsigned_clamps_not_wraps :
  toUnsigned (Fin 300) 8 = 255 /\ 300 mod 2 ^ 8 = 44 /\
  ~ (forall n b, validBits b -> toUnsigned (Fin n) b = n mod 2 ^ b).
Proof.
  split; [reflexivity | split; [reflexivity |]].
  intros H. specialize (H 300 8 (or_introl eq_refl)). discriminate H.
Qed.

(** C3 (amended): for every integer [n] and every width in {8,16,32},
    [toUnsigned n bits] lies in [0, 2^bits - 1]; a negative [n] wraps around
    modulo [2^bits], an [n] already in range is returned unchanged, an [n]
    above the range is clamped to [2^bits - 1]; a non-finite input gives 0. *)
Theorem toUnsigned_spec (n b : Z) :
  validBits b ->
  inRange (toUnsigned (Fin n) b) b
  /\ (n < 0 -> toUnsigned (Fin n) b = n mod 2 ^ b)
  /\ (inRange n b -> toUnsigned (Fin n) b = n)
  /\ (2 ^ b - 1 < n -> toUnsigned (Fin n) b = 2 ^ b - 1)
  /\ toUnsigned NaN b = 0 /\ toUnsigned PosInf b = 0 /\ toUnsigned NegInf b = 0.
Proof.
  intros Hb. apply validBits_bounds in Hb.
  assert (Hm := pow2_pos b ltac:(lia)).
  split; [apply toUnsigned_range; lia |].
  split; [intros; apply toUnsigned_negative; lia |].
  split; [intros [? ?]; rewrite toUnsigned_nonnegative; lia |].
  split; [intros; rewrite toUnsigned_nonnegative; lia |].
  repeat split.
Qed.

Lemma toUnsigned_spec_witness :
  validBits 8
  /\ toUnsigned (Fin (-1)) 8 = 255
  /\ toUnsigned (Fin 200) 8 = 200
  /\ toUnsigned (Fin 300) 8 = 255.
Proof.
  assert (Hb : validBits 8) by (left; reflexivity).
  split; [exact Hb |].
  split; [| split].
  - destruct (toUnsigned_spec (-1) 8 Hb) as (_ & H & _).
    rewrite H by lia. reflexivity.
  - destruct (toUnsigned_spec 200 8 Hb) as (_ & _ & H & _).
    apply H. unfold inRange. cbn. lia.
  - destruct (toUnsigned_spec 300 8 Hb) as (_ & _ & _ & H & _).
    rewrite H by (cbn; lia). reflexivity.
Defined.

(** ** [unsignedToSigned] *)

(** C6: for a width in {8,16,32} and [v] in [0, 2^bits - 1],
    [unsignedToSigned v bits] is [v - 2^bits] when [v >= 2^(bits-1)] and [v]
    otherwise; the result lies in [-2^(bits-1), 2^(bits-1) - 1] and is
    non-negative exactly when [v < 2^(bits-1)]. *)
Theorem unsignedToSigned_spec (v b : Z) :
  validBits b -> inRange v b ->
  (2 ^ (b - 1) <= v -> unsignedToSigned v b = v - 2 ^ b)
  /\ (v < 2 ^ (b - 1) -> unsignedToSigned v b = v)
  /\ - 2 ^ (b - 1) <= unsignedToSigned v b <= 2 ^ (b - 1) - 1
  /\ (0 <= unsignedToSigned v b <-> v < 2 ^ (b - 1)).
Proof.
  intros Hb Hv. unfold inRange in Hv. unfold unsignedToSigned.
  assert (Hp : 2 ^ b = 2 * 2 ^ (b - 1)).
  { apply validBits_bounds in Hb.
    replace b with (Z.succ (b - 1)) at 1 by lia.
    apply Z.pow_succ_r; lia. }
  destruct (Z.leb_spec (2 ^ b) (2 * v)); repeat split; lia.
Qed.

Lemma unsignedToSigned_spec_witness :
  validBits 8 /\ inRange 200 8 /\ unsignedToSigned 200 8 = -56
  /\ unsignedToSigned 100 8 = 100.
Proof.
  assert (Hb : validBits 8) by (left; reflexivity).
  assert (Hv : inRange 200 8) by (unfold inRange; cbn; lia).
  split; [exact Hb | split; [exact Hv |]].
  split.
  - destruct (unsignedToSigned_spec 200 8 Hb Hv) as (H & _).
    rewrite H by (cbn; lia). reflexivity.
  - assert (Hv' : inRange 100 8) by (unfold inRange; cbn; lia).
    destruct (unsignedToSigned_spec 100 8 Hb Hv') as (_ & H & _).
    apply H. cbn. lia.
Defined.

(** ** Byte decomposition *)

Section Bytes.

Lemma bytesBE_loop_length val k : length (bytesBE_loop val k) = k.
Proof. induction k; cbn; congruence. Qed.

Lemma bytesBE_loop_nth val k i :
  (i < k)%nat ->
  nth (k - 1 - i) (bytesBE_loop val k) 0
  = band (ushr val (Z.of_nat i * 8)) 0xff.
Proof.
  induction k as [| k IH]; intros Hi; [lia |].
  destruct (Nat.eq_dec i k) as [-> | Hne].
  - replace (S k - 1 - k)%nat with O by lia. reflexivity.
  - replace (S k - 1 - i)%nat with (S (k - 1 - i)) by lia.
    cbn [bytesBE_loop nth]. apply IH. lia.
Qed.

Lemma ushr_small val s :
  0 <= val < 2 ^ 32 -> 0 <= s < 32 -> ushr val s = Z.shiftr val s.
Proof.
  intros Hv Hs. unfold ushr.
  rewrite toUint32_small, shift_count by assumption. reflexivity.
Qed.

Lemma totalBytes_valid b :
  validBits b -> ceilDiv b 8 = b / 8 /\ 1 <= ceilDiv b 8 <= 4.
Proof. intros Hb; pattern b; apply validBits_cases; auto; cbv; intuition congruence. Qed.

End Bytes.

(** C7: for a width in {8,16,32} and [v] in range, [bytesBE v bits] has
    [ceil(bits/8)] bytes; counting from the least-significant end (that is,
    from the end of the list), byte [i] is [(v >> (8*i)) & 0xFF], so the most
    significant byte comes first; and [bytesLE] is the reverse of [bytesBE]. *)
Theorem bytesBE_spec (v b : Z) :
  validBits b -> inRange v b ->
  Z.of_nat (length (bytesBE v b)) = ceilDiv b 8
  /\ (forall i, (i < length (bytesBE v b))%nat ->
        nth (length (bytesBE v b) - 1 - i) (bytesBE v b) 0
        = Z.land (Z.shiftr v (8 * Z.of_nat i)) 0xFF)
  /\ bytesLE v b = rev (bytesBE v b).
Proof.
  intros Hb Hv.
  destruct (totalBytes_valid b Hb) as [_ Hk].
  assert (Hv32 : 0 <= v < 2 ^ 32).
  { unfold inRange in Hv. apply validBits_bounds in Hb.
    assert (2 ^ b <= 2 ^ 32) by (apply Z.pow_le_mono_r; lia). lia. }
  unfold bytesBE. rewrite bytesBE_loop_length.
  split; [lia | split; [| reflexivity]].
  intros i Hi.
  rewrite bytesBE_loop_nth by assumption.
  rewrite band_255, <- land_255.
  rewrite (ushr_small v 0) by lia. rewrite Z.shiftr_0_r.
  rewrite ushr_small by lia.
  f_equal. f_equal. lia.
Qed.

Lemma bytesBE_spec_witness :
  validBits 16 /\ inRange 65000 16
  /\ bytesBE 65000 16 = [253; 232] /\ bytesLE 65000 16 = [232; 253]
  /\ nth 1 (bytesBE 65000 16) 0 = Z.land (Z.shiftr 65000 0) 0xFF.
Proof.
  assert (Hb : validBits 16) by (right; left; reflexivity).
  assert (Hv : inRange 65000 16) by (unfold inRange; cbn; lia).
  destruct (bytesBE_spec 65000 16 Hb Hv) as (_ & Hnth & _).
  split; [exact Hb | split; [exact Hv |]].
  split; [reflexivity | split; [reflexivity |]].
  apply (Hnth 0%nat). vm_compute. lia.
Defined.

(** ** Bit toggling *)

Section ToggleBit.

Variables (b v i : Z) (ch : option Challenge).
Hypothesis Hb : validBits b.
Hypothesis Hv : inRange v b.
Hypothesis Hi : 0 <= i <= b - 1.

Let k := b - 1 - i.

Lemma toggle_mask : shl 1 k = toInt32 (2 ^ k).
Proof.
  unfold shl. apply validBits_bounds in Hb.
  rewrite (toInt32_small 1) by (cbn; lia).
  rewrite shift_count by (unfold k; lia).
  rewrite Z.shiftl_1_l. reflexivity.
Qed.

Lemma toggle_next_mod :
  bxor v (shl 1 k) mod 2 ^ 32 = Z.lxor v (2 ^ k).
Proof.
  assert (Hb' := validBits_bounds b Hb).
  assert (Hk : 0 <= k < 32) by (unfold k; lia).
  assert (Hv32 : 0 <= v < 2 ^ 32).
  { unfold inRange in Hv.
    assert (2 ^ b <= 2 ^ 32) by (apply Z.pow_le_mono_r; lia). lia. }
  assert (Hm : 0 <= 2 ^ k < 2 ^ 32).
  { split; [apply Z.pow_nonneg; lia | apply Z.pow_lt_mono_r; lia]. }
  rewrite toggle_mask. unfold bxor.
  rewrite (toInt32_small (toInt32 _)) by apply toInt32_range.
  apply Z.bits_inj'. intros j Hj.
  destruct (Z_lt_le_dec j 32) as [Hlt | Hge].
  - rewrite Z.mod_pow2_bits_low by lia.
    rewrite !Z.lxor_spec, !toInt32_testbit by lia. reflexivity.
  - rewrite Z.mod_pow2_bits_high by lia.
    symmetry. apply Z.bits_above_log2.
    + apply lxor_below with (n := 32); lia.
    + assert (H := lxor_below v (2 ^ k) 32 ltac:(lia) Hv32 Hm).
      destruct (Z.eq_dec (Z.lxor v (2 ^ k)) 0) as [-> | ?]; [cbn; lia |].
      assert (Z.log2 (Z.lxor v (2 ^ k)) < 32) by (apply Z.log2_lt_pow2; lia).
      lia.
Qed.

Lemma toggle_in_range : inRange (Z.lxor v (2 ^ k)) b.
Proof.
  assert (Hb' := validBits_bounds b Hb).
  assert (Hk : 0 <= k < b) by (unfold k; lia).
  unfold inRange in *.
  assert (H : 0 <= Z.lxor v (2 ^ k) < 2 ^ b).
  { apply lxor_below; try lia.
    split; [apply Z.pow_nonneg; lia | apply Z.pow_lt_mono_r; lia]. }
  lia.
Qed.

Lemma toggle_value :
  unsignedValue (toggleBit (mkState b v ch) i) = Z.lxor v (2 ^ k).
Proof.
  unfold toggleBit. cbn [bits unsignedValue setUnsignedValue].
  fold k.
  assert (Hb' := validBits_bounds b Hb).
  assert (Hr := toggle_in_range). unfold inRange in Hr.
  assert (Hmod := toggle_next_mod).
  set (next := bxor v (shl 1 k)) in *.
  assert (Hn : - 2 ^ 31 <= next < 2 ^ 31)
    by (apply lxor_int32_range; apply toInt32_range).
  destruct (Z_lt_le_dec next 0) as [Hneg | Hpos].
  - rewrite toUnsigned_negative by lia.
    assert (b = 32); [| subst b; exact Hmod].
    destruct (Z.eq_dec b 32); [assumption | exfalso].
    assert (Hlt : 0 <= next).
    { assert (Hv16 : 0 <= v < 2 ^ 31).
      { unfold inRange in Hv.
        assert (2 ^ b <= 2 ^ 16) by (apply Z.pow_le_mono_r; unfold validBits in Hb; lia).
        change (2 ^ 31) with (32768 * 2 ^ 16). lia. }
      assert (Hm16 : 0 <= 2 ^ k < 2 ^ 31).
      { split; [apply Z.pow_nonneg; unfold k; lia
               | apply Z.pow_lt_mono_r; unfold k, validBits in *; lia]. }
      unfold next. rewrite toggle_mask. unfold bxor.
      rewrite (toInt32_small (2 ^ k)) by lia.
      rewrite (toInt32_small (2 ^ k)) by lia.
      rewrite (toInt32_small v) by lia.
      apply Z.lxor_nonneg. lia. }
    lia.
  - rewrite toUnsigned_nonnegative by lia.
    assert (Hsmall : next mod 2 ^ 32 = next).
    { apply Z.mod_small. change (2 ^ 32) with (2 * 2 ^ 31). lia. }
    rewrite Hsmall in Hmod. rewrite Hmod. lia.
Qed.

End ToggleBit.

(** C10: for a width in {8,16,32}, a value [v] in range and a bit button
    [i] in [0, bits - 1], [toggleBit i] flips bit [bits - 1 - i] of [v] and no
    other bit, leaves the value in range, and applied twice gives the state
    back; this includes the sign bit at width 32, where the 32-bit signed
    xor is negative in between. *)
Theorem toggleBit_spec (b v i : Z) (ch : option Challenge) :
  validBits b -> inRange v b -> 0 <= i <= b - 1 ->
  let st := mkState b v ch in
  (forall j, 0 <= j ->
     Z.testbit (unsignedValue (toggleBit st i)) j
     = if j =? b - 1 - i then negb (Z.testbit v j) else Z.testbit v j)
  /\ inRange (unsignedValue (toggleBit st i)) b
  /\ bits (toggleBit st i) = b
  /\ toggleBit (toggleBit st i) i = st.
Proof.
  intros Hb Hv Hi st.
  assert (Hval := toggle_value b v i ch Hb Hv Hi). fold st in Hval.
  assert (Hrange := toggle_in_range b v i Hb Hv Hi).
  assert (Hk : 0 <= b - 1 - i) by lia.
  split; [| split; [| split]].
  - intros j Hj. rewrite Hval, Z.lxor_spec, Z.pow2_bits_eqb by lia.
    rewrite (Z.eqb_sym j). destruct (b - 1 - i =? j), (Z.testbit v j); reflexivity.
  - rewrite Hval. exact Hrange.
  - reflexivity.
  - assert (Hst' : toggleBit st i = mkState b (Z.lxor v (2 ^ (b - 1 - i))) ch).
    { rewrite <- Hval. reflexivity. }
    rewrite Hst'.
    assert (Hval' := toggle_value b _ i ch Hb Hrange Hi).
    rewrite Z.lxor_assoc, Z.lxor_nilpotent, Z.lxor_0_r in Hval'.
    unfold st. rewrite <- Hval' at 2. reflexivity.
Qed.

Lemma toggleBit_spec_witness :
  validBits 32 /\ inRange 5 32 /\ 0 <= 0 <= 32 - 1
  /\ unsignedValue (toggleBit (mkState 32 5 None) 0) = 2147483653
  /\ toggleBit (toggleBit (mkState 32 5 None) 0) 0 = mkState 32 5 None.
Proof.
  assert (Hb : validBits 32) by (right; right; reflexivity).
  assert (Hv : inRange 5 32) by (unfold inRange; cbn; lia).
  assert (Hi : 0 <= 0 <= 32 - 1) by lia.
  destruct (toggleBit_spec 32 5 0 None Hb Hv Hi) as (_ & _ & _ & H).
  split; [exact Hb | split; [exact Hv | split; [exact Hi |]]].
  split; [reflexivity | exact H].
Defined.

(** ** The state of the number tab *)

Section NumberTab.

Lemma step_bits st e :
  bits (step st e) = bits st \/ exists b, e = ClickBitWidth b /\ b <> bits st.
Proof.
  destruct e as [b | n | s | s | n | i | t]; cbn;
    unfold setBits, setFromDecimal, setFromHex, setFromBinary;
    try match goal with |- context [if ?c then _ else _] => destruct c eqn:E end;
    auto.
  right. exists b. split; [reflexivity |]. apply Z.eqb_neq. exact E.
Qed.


Lemma reachable_run es :
  forall st, reachable st -> validTrace st es = true -> reachable (run st es).
Proof.
  induction es as [| e r IH]; intros st Hst Hok; [exact Hst |].
  apply andb_true_iff in Hok as [He Hr].
  cbn. apply IH; [apply reachable_step; assumption | exact Hr].
Qed.

Lemma reachable_challenge_bits st :
  reachable st ->
  forall c, challenge st = Some c -> challenge_bits c = bits st.
Proof.
  induction 1 as [| st e Hst IH He]; intros c Hc; [discriminate Hc |].
  destruct e as [b | n | s | s | n | i | t]; cbn in *;
    unfold setBits, setFromDecimal, setFromHex, setFromBinary, setFromSlider in *;
    try match goal with H : context [if ?c then _ else _] |- _ => destruct c eqn:E end;
    cbn in *; try (apply IH; assumption); try discriminate.
  injection Hc as <-. reflexivity.
Qed.

End NumberTab.

(** C2 at its failing input: from the initial state, choosing 16 bits,
    typing 65000 and choosing 8 bits leaves the value 65000 under width 8;
    the width buttons do not re-wrap the value. *)
Theorem narrowing_keeps_value :
  let st := run initialState
              [ClickBitWidth 16; TypeDecimal (Fin 65000); ClickBitWidth 8] in
  reachable st /\ bits st = 8 /\ unsignedValue st = 65000
  /\ ~ inRange (unsignedValue st) (bits st).
Proof.
  cbv zeta. split; [| split; [reflexivity | split; [reflexivity |]]].
  - apply reachable_run; [constructor | reflexivity].
  - unfold inRange. cbn. lia.
Qed.

(** C9: a step that changes the bit width leaves no challenge; the
    challenge is judged correct exactly when there is one, the value equals
    its target and its width equals the current width; and in every
    reachable state a stored challenge carries the current width. *)
Theorem challenge_spec :
  (forall st e, bits (step st e) <> bits st -> challenge (step st e) = None)
  /\ (forall st, challengeCorrect st = true <->
        exists c, challenge st = Some c
                  /\ unsignedValue st = target c /\ bits st = challenge_bits c)
  /\ (forall st, reachable st ->
        forall c, challenge st = Some c -> challenge_bits c = bits st).
Proof.
  split; [| split].
  - intros st e Hne.
    destruct (step_bits st e) as [Heq | (b & -> & Hb)]; [contradiction |].
    cbn. unfold setBits. destruct (Z.eqb_spec b (bits st)); [contradiction | reflexivity].
  - intros st. unfold challengeCorrect. destruct (challenge st) as [c |].
    + rewrite andb_true_iff, !Z.eqb_eq. split.
      * intros [? ?]. exists c. auto.
      * intros (c' & [= <-] & ? & ?). auto.
    + split; [discriminate | intros (c & [=] & _)].
  - exact reachable_challenge_bits.
Qed.

Lemma challenge_spec_witness :
  let st := makeChallenge initialState 5 in
  bits (step st (ClickBitWidth 16)) <> bits st
  /\ challenge st = Some (mkChallenge 5 8)
  /\ challenge (step st (ClickBitWidth 16)) = None.
Proof.
  cbv zeta.
  assert (H : bits (step (makeChallenge initialState 5) (ClickBitWidth 16))
              <> bits (makeChallenge initialState 5)) by (cbn; lia).
  split; [exact H | split; [reflexivity |]].
  exact (proj1 challenge_spec _ _ H).
Defined.

(** ** Formatting and parsing *)

(** Settles comparisons of integers that the context decides. *)
Ltac decide_cmp :=
  repeat match goal with
    | |- context [?a =? ?b] =>
        first [ replace (a =? b) with false by (symmetry; apply Z.eqb_neq; lia)
              | replace (a =? b) with true by (symmetry; apply Z.eqb_eq; lia) ]
    | |- context [?a <=? ?b] =>
        first [ replace (a <=? b) with true by (symmetry; apply Z.leb_le; lia)
              | replace (a <=? b) with false by (symmetry; apply Z.leb_gt; lia) ]
    | |- context [?a <? ?b] =>
        first [ replace (a <? b) with true by (symmetry; apply Z.ltb_lt; lia)
              | replace (a <? b) with false by (symmetry; apply Z.ltb_ge; lia) ]
    end.

Ltac decide_leb :=
  repeat match goal with
    | |- context [?a <=? ?b] =>
        first [ replace (a <=? b) with true by (symmetry; apply Z.leb_le; lia)
              | replace (a <=? b) with false by (symmetry; apply Z.leb_gt; lia) ]
    end.

Ltac decide_bool :=
  repeat (progress (decide_cmp; cbn [andb orb negb])).

Section Digits.

Lemma isHexDigit_spec c :
  isHexDigit c = true ->
  48 <= c <= 57 \/ 97 <= c <= 102 \/ 65 <= c <= 70.
Proof.
  unfold isHexDigit. rewrite !orb_true_iff, !andb_true_iff, !Z.leb_le. tauto.
Qed.

Lemma hex_not_space c : isHexDigit c = true -> isSpace c = false.
Proof.
  intros H. apply isHexDigit_spec in H.
  unfold isSpace, isLineTerminator.
  destruct H as [H | [H | H]]; decide_cmp; reflexivity.
Qed.

Lemma digitChar_hex d : 0 <= d < 16 -> isHexDigit (digitChar d) = true.
Proof.
  intros Hd. unfold digitChar, isHexDigit.
  destruct (Z.ltb_spec d 10); decide_cmp; reflexivity.
Qed.

Lemma digitValue_digitChar d :
  0 <= d < 36 -> digitValue (digitChar d) = Some d.
Proof.
  intros Hd. unfold digitChar, digitValue.
  destruct (Z.ltb_spec d 10); decide_cmp; cbn [andb]; f_equal; lia.
Qed.

Lemma digitValue_upper c :
  digitValue (if (97 <=? c) && (c <=? 122) then c - 32 else c) = digitValue c.
Proof.
  destruct (Z.leb_spec 97 c), (Z.leb_spec c 122); cbn [andb]; try reflexivity.
  unfold digitValue. decide_cmp. cbn [andb]. f_equal. lia.
Qed.

Lemma upper_hex c :
  isHexDigit c = true ->
  isHexDigit (if (97 <=? c) && (c <=? 122) then c - 32 else c) = true.
Proof.
  intros H. apply isHexDigit_spec in H. unfold isHexDigit.
  destruct H as [H | [H | H]]; decide_bool; reflexivity.
Qed.

Lemma readDigits_upper r s : forall a k,
  readDigits r (toUpperCase s) a k = readDigits r s a k.
Proof.
  induction s as [| c t IH]; intros a k; [reflexivity |].
  cbn [toUpperCase map readDigits]. rewrite digitValue_upper.
  destruct (digitValue c) as [d |]; [| reflexivity].
  destruct (d <? r); [apply IH | reflexivity].
Qed.

Lemma readDigits_zeros r s n : forall k,
  1 < r ->
  readDigits r (repeat 48 n ++ s) 0 k = readDigits r s 0 (n + k).
Proof.
  induction n as [| n IH]; intros k Hr; [reflexivity |].
  cbn [repeat app readDigits]. change (digitValue 48) with (Some 0).
  cbv iota beta. decide_cmp.
  rewrite Z.mul_0_l, Z.add_0_l, IH by assumption.
  f_equal. lia.
Qed.

Variable r : Z.
Hypothesis Hr : 2 <= r <= 16.

(** The digits printed for [n] read back as [n], whatever follows them. *)
Lemma readDigits_digitsOf fuel : forall n acc,
  0 <= n < r ^ Z.of_nat (S fuel) ->
  exists k,
    readDigits r (digitsOf (S fuel) r n acc) 0 O = readDigits r acc n (S k).
Proof.
  induction fuel as [| f IH]; intros n acc Hn;
    assert (Hmod := Z.mod_pos_bound n r ltac:(lia));
    assert (Hdm := Z.div_mod n r ltac:(lia));
    rewrite Nat2Z.inj_succ, Z.pow_succ_r in Hn by lia;
    cbn [digitsOf];
    destruct (Z.eqb_spec (n / r) 0) as [Hz | Hnz].
  1, 3: exists O; cbn [readDigits];
    rewrite digitValue_digitChar by lia;
    decide_cmp; f_equal; lia.
  - exfalso. apply Hnz. apply Z.div_small. rewrite Z.pow_0_r in Hn. lia.
  - assert (Hq : 0 <= n / r < r ^ Z.of_nat (S f)).
    { split; [apply Z.div_pos; lia |].
      apply Z.div_lt_upper_bound; lia. }
    destruct (IH (n / r) (digitChar (n mod r) :: acc) Hq) as [k Hk].
    exists (S k). cbn [digitsOf] in Hk. rewrite Hk. cbn [readDigits].
    rewrite digitValue_digitChar by lia.
    decide_cmp. f_equal. lia.
Qed.

Lemma digitsOf_hex fuel : forall n acc,
  hexString acc -> hexString (digitsOf fuel r n acc).
Proof.
  induction fuel as [| f IH]; intros n acc Hacc; [exact Hacc |].
  cbn [digitsOf].
  assert (Hmod := Z.mod_pos_bound n r ltac:(lia)).
  assert (Hd : hexString (digitChar (n mod r) :: acc)).
  { constructor; [apply digitChar_hex; lia | exact Hacc]. }
  destruct (n / r =? 0); [exact Hd | apply IH, Hd].
Qed.

Lemma log2_fuel n : 0 <= n -> n < r ^ Z.of_nat (S (Z.to_nat (Z.log2 n))).
Proof.
  intros Hn.
  rewrite Nat2Z.inj_succ, Z2Nat.id by apply Z.log2_nonneg.
  destruct (Z.eq_dec n 0) as [-> | Hne].
  - apply Z.pow_pos_nonneg; cbn; lia.
  - apply Z.lt_le_trans with (2 ^ Z.succ (Z.log2 n)).
    + apply Z.log2_spec. lia.
    + apply Z.pow_le_mono_l. lia.
Qed.

End Digits.

Section Parsing.

Lemma trimStart_hex s : hexString s -> trimStart s = s.
Proof.
  intros H. destruct H as [| c t Hc _]; [reflexivity |].
  cbn. rewrite (hex_not_space c Hc). reflexivity.
Qed.

Lemma trim_hex s : hexString s -> trim s = s.
Proof.
  intros H. unfold trim. rewrite (trimStart_hex s H).
  rewrite trimStart_hex; [apply rev_involutive |].
  apply Forall_rev, H.
Qed.

Lemma removeSpaces_hex s : hexString s -> removeSpaces s = s.
Proof.
  induction 1 as [| c t Hc _ IH]; [reflexivity |].
  cbn. rewrite (hex_not_space c Hc). cbn. f_equal. exact IH.
Qed.

Lemma removeSpaces_app s t :
  removeSpaces (s ++ t) = removeSpaces s ++ removeSpaces t.
Proof. apply filter_app. Qed.

Lemma removeSpaces_rev s : removeSpaces (rev s) = rev (removeSpaces s).
Proof.
  induction s as [| c t IH]; [reflexivity |].
  cbn [rev]. rewrite removeSpaces_app, IH. cbn.
  destruct (isSpace c); cbn; [apply app_nil_r | reflexivity].
Qed.

Lemma removeSpaces_trimStart s : removeSpaces (trimStart s) = removeSpaces s.
Proof.
  induction s as [| c t IH]; [reflexivity |].
  cbn [trimStart]. destruct (isSpace c) eqn:E; [| reflexivity].
  rewrite IH. cbn. rewrite E. reflexivity.
Qed.

Lemma removeSpaces_trim s : removeSpaces (trim s) = removeSpaces s.
Proof.
  unfold trim.
  rewrite removeSpaces_rev, removeSpaces_trimStart, removeSpaces_rev.
  rewrite rev_involutive. apply removeSpaces_trimStart.
Qed.

(** The spaces that [groupEvery] inserts are all that it changes. *)
Lemma removeSpaces_insertSpaceEvery n fuel : forall s,
  (0 < n)%nat -> (length s <= fuel)%nat ->
  removeSpaces (insertSpaceEvery fuel n s) = removeSpaces s.
Proof.
  induction fuel as [| f IH]; intros s Hn Hlen.
  - destruct s; [reflexivity | cbn in Hlen; lia].
  - destruct s as [| c t]; [reflexivity |].
    cbn [insertSpaceEvery].
    destruct (_ && _).
    + rewrite removeSpaces_app. cbn [removeSpaces filter].
      change (isSpace 32) with true. cbn [negb].
      fold (removeSpaces (insertSpaceEvery f n (skipn n (c :: t)))).
      rewrite IH; [| assumption |].
      * rewrite <- removeSpaces_app, firstn_skipn. reflexivity.
      * rewrite length_skipn. cbn [length] in *. lia.
    + cbn [removeSpaces filter].
      fold (removeSpaces (insertSpaceEvery f n t)).
      rewrite IH by (cbn [length] in Hlen; lia). reflexivity.
Qed.

Lemma removeSpaces_groupEvery s n :
  (0 < n)%nat -> removeSpaces (groupEvery s n) = removeSpaces s.
Proof.
  intros Hn. unfold groupEvery.
  rewrite removeSpaces_trim. apply removeSpaces_insertSpaceEvery; auto.
Qed.

Lemma toDouble_small z : Z.abs z < 2 ^ 53 -> toDouble z = Fin z.
Proof.
  intros H. unfold toDouble.
  destruct (Z.ltb_spec (Z.abs z) (2 ^ 53)); [reflexivity | lia].
Qed.

Lemma readDigits_count r s : forall a c m,
  readDigits r s a (m + c)
  = (fst (readDigits r s a c), (m + snd (readDigits r s a c))%nat).
Proof.
  induction s as [| c t IH]; intros a n m; [reflexivity |].
  cbn [readDigits]. destruct (digitValue c) as [d |]; [| reflexivity].
  destruct (d <? r); [| reflexivity].
  rewrite <- IH. f_equal. lia.
Qed.

(** [parseInt] on a non-empty string of digits of the radix. *)
Lemma parseInt_digits r s n k :
  2 <= r <= 16 -> hexString s ->
  readDigits r s 0 O = (n, S k) -> Z.abs n < 2 ^ 53 ->
  parseInt s r = Fin n.
Proof.
  intros Hr Hs Hread Hn. unfold parseInt.
  rewrite (trimStart_hex s Hs).
  destruct Hs as [| c t Hc Ht]; [discriminate Hread |].
  assert (Hc' := isHexDigit_spec c Hc).
  replace (c =? 45) with false by (symmetry; apply Z.eqb_neq; lia).
  replace (c =? 43) with false by (symmetry; apply Z.eqb_neq; lia).
  rewrite (toInt32_small r) by (cbn; lia).
  replace (negb (r =? 0) && ((r <? 2) || (36 <? r))) with false
    by (decide_bool; reflexivity).
  assert (Hstrip : stripHexPrefix (c :: t) = None).
  { destruct Ht as [| x t' Hx _]; [reflexivity |].
    apply isHexDigit_spec in Hx. unfold stripHexPrefix.
    replace ((x =? 120) || (x =? 88)) with false
      by (destruct Hx as [Hx | [Hx | Hx]]; decide_bool; reflexivity).
    rewrite andb_false_r. reflexivity. }
  rewrite Hstrip.
  replace (r =? 0) with false by (symmetry; apply Z.eqb_neq; lia).
  cbn [orb].
  destruct (r =? 16); cbv beta iota;
    rewrite Hread, Z.mul_1_l; apply toDouble_small, Hn.
Qed.

Lemma parseFromBase_digits r s n k :
  2 <= r <= 16 -> hexString s ->
  readDigits r s 0 O = (n, S k) -> Z.abs n < 2 ^ 53 ->
  parseFromBase (Some s) r = Fin n.
Proof.
  intros Hr Hs Hread Hn. unfold parseFromBase.
  destruct s as [| c t]; [discriminate Hread |].
  rewrite (trim_hex _ Hs), (parseInt_digits r _ n k) by assumption.
  reflexivity.
Qed.

Lemma hexString_repeat n s : hexString s -> hexString (repeat 48 n ++ s).
Proof.
  intros Hs. apply Forall_app. split; [| exact Hs].
  apply Forall_forall. intros x Hx. apply repeat_spec in Hx. subst x. reflexivity.
Qed.

Lemma hexString_upper s : hexString s -> hexString (toUpperCase s).
Proof.
  induction 1 as [| c t Hc _ IH]; constructor; [apply upper_hex, Hc | exact IH].
Qed.

(** The digits of [v] in radix [r], padded and possibly upper-cased, parse
    back to [v]. *)
Lemma parse_padded r v len (upper : bool) :
  2 <= r <= 16 -> 0 <= v < 2 ^ 53 ->
  let digits := toStringRadix v r in
  let s := padLeft (if upper then toUpperCase digits else digits) len in
  hexString s /\ parseFromBase (Some s) r = Fin v.
Proof.
  intros Hr Hv digits s.
  assert (Hd : digits = digitsOf (S (Z.to_nat (Z.log2 v))) r v []).
  { unfold digits, toStringRadix. destruct (Z.ltb_spec v 0); [lia | reflexivity]. }
  assert (Hhex : hexString digits).
  { rewrite Hd. apply digitsOf_hex; [assumption | constructor]. }
  destruct (readDigits_digitsOf r Hr (Z.to_nat (Z.log2 v)) v [])
    as [k Hk]; [split; [lia | apply log2_fuel; lia] |].
  rewrite <- Hd in Hk. cbn [readDigits] in Hk.
  set (body := if upper then toUpperCase digits else digits) in *.
  assert (Hbody : hexString body /\ readDigits r body 0 O = (v, S k)).
  { unfold body. destruct upper.
    - split; [apply hexString_upper, Hhex | rewrite readDigits_upper; exact Hk].
    - split; assumption. }
  destruct Hbody as [Hb1 Hb2].
  assert (Hs : hexString s) by (apply hexString_repeat, Hb1).
  split; [exact Hs |].
  apply (parseFromBase_digits r s v
           (Z.to_nat (len - Z.of_nat (length body)) + k));
    [exact Hr | exact Hs | | lia].
  unfold s, padLeft, padStart.
  rewrite readDigits_zeros by lia.
  rewrite readDigits_count, Hb2. cbn [fst snd]. f_equal. lia.
Qed.

End Parsing.

(** C4: for a width in {8,16,32} and [v] in range, what the component
    prints for [v] parses back to [v]: the decimal rendering in base 10,
    [toHex] in base 16, [toBin] in base 2, also when grouped by [groupEvery]
    and stripped of white space as [setFromBinary] does; typing the hex or
    the binary field's own content back stores [v]. *)
Theorem format_parse_roundtrip (v b : Z) :
  validBits b -> inRange v b ->
  parseFromBase (Some (toStringRadix v 10)) 10 = Fin v
  /\ parseFromBase (Some (toHex v b)) 16 = Fin v
  /\ parseFromBase (Some (toBin v b)) 2 = Fin v
  /\ parseFromBase (Some (removeSpaces (groupEvery (toBin v b) 4))) 2 = Fin v
  /\ (forall st, bits st = b ->
        setFromHex st (toHex v b) = setUnsignedValue st v
        /\ setFromBinary st (groupEvery (toBin v b) 4) = setUnsignedValue st v).
Proof.
  intros Hb Hv.
  assert (Hb' := validBits_bounds b Hb).
  assert (Hv53 : 0 <= v < 2 ^ 53).
  { unfold inRange in Hv.
    assert (2 ^ b <= 2 ^ 32) by (apply Z.pow_le_mono_r; lia).
    change (2 ^ 53) with (2097152 * 2 ^ 32). lia. }
  destruct (parse_padded 10 v 0 false ltac:(lia) Hv53) as [_ Hdec].
  destruct (parse_padded 16 v (ceilDiv b 4) true ltac:(lia) Hv53) as [_ Hhex].
  destruct (parse_padded 2 v b false ltac:(lia) Hv53) as [Hbs Hbin].
  fold (toHex v b) in Hhex. fold (toBin v b) in Hbs, Hbin.
  assert (Hgrp : removeSpaces (groupEvery (toBin v b) 4) = toBin v b).
  { rewrite removeSpaces_groupEvery by lia. apply removeSpaces_hex, Hbs. }
  assert (Hst : toUnsigned (Fin v) b = v).
  { unfold inRange in Hv. rewrite toUnsigned_nonnegative; lia. }
  split; [| split; [exact Hhex | split; [exact Hbin | split]]].
  - unfold padLeft, padStart in Hdec.
    replace (Z.to_nat (0 - Z.of_nat (length (toStringRadix v 10)))) with O in Hdec
      by lia.
    exact Hdec.
  - rewrite Hgrp. exact Hbin.
  - intros st <-. unfold setFromHex, setFromBinary.
    rewrite Hhex, Hgrp, Hbin. cbn [isFinite]. rewrite Hst. split; reflexivity.
Qed.

Lemma format_parse_roundtrip_witness :
  validBits 8 /\ inRange 200 8
  /\ toHex 200 8 = lit "C8"
  /\ groupEvery (toBin 200 8) 4 = lit "1100 1000"
  /\ parseFromBase (Some (toHex 200 8)) 16 = Fin 200
  /\ parseFromBase (Some (removeSpaces (groupEvery (toBin 200 8) 4))) 2 = Fin 200.
Proof.
  assert (Hb : validBits 8) by (left; reflexivity).
  assert (Hv : inRange 200 8) by (unfold inRange; cbn; lia).
  destruct (format_parse_roundtrip 200 8 Hb Hv) as (_ & H16 & _ & H2 & _).
  split; [exact Hb | split; [exact Hv |]].
  split; [reflexivity | split; [reflexivity |]].
  split; [exact H16 | exact H2].
Defined.

(** ** UTF-16: code points of a string *)

Section Utf16.

Lemma isScalarValue_spec c :
  isScalarValue c = true <-> (0 <= c < 0xD800 \/ 0xDFFF < c <= 0x10FFFF).
Proof.
  unfold isScalarValue, isSurrogate.
  rewrite !andb_true_iff, negb_true_iff, andb_false_iff, !Z.leb_le, !Z.leb_gt.
  lia.
Qed.

Lemma scalar_not_lead c : isScalarValue c = true -> isLeadSurrogate c = false.
Proof.
  intros H. apply isScalarValue_spec in H. unfold isLeadSurrogate.
  destruct H; decide_bool; reflexivity.
Qed.

Lemma scalar_not_surrogate c : isScalarValue c = true -> isSurrogate c = false.
Proof.
  intros H. apply isScalarValue_spec in H. unfold isSurrogate.
  destruct H; decide_bool; reflexivity.
Qed.

(** The two code units of a supplementary code point. *)
Lemma supplementary_units c :
  0x10000 <= c <= 0x10FFFF ->
  let hi := 0xD800 + (c - 0x10000) / 0x400 in
  let lo := 0xDC00 + (c - 0x10000) mod 0x400 in
  isLeadSurrogate hi = true /\ isTrailSurrogate lo = true
  /\ surrogatePair hi lo = c.
Proof.
  intros Hc hi lo. unfold isLeadSurrogate, isTrailSurrogate, surrogatePair.
  subst hi lo.
  assert (Hm := Z.mod_pos_bound (c - 0x10000) 0x400 eq_refl).
  assert (Hd := Z.div_mod (c - 0x10000) 0x400 ltac:(lia)).
  assert (0 <= (c - 0x10000) / 0x400 <= 0x3FF).
  { split; [apply Z.div_pos; lia |].
    apply Z.lt_succ_r, Z.div_lt_upper_bound; lia. }
  repeat split; [decide_bool; reflexivity .. | lia].
Qed.

Lemma stringIterator_scalar c rest :
  isScalarValue c = true ->
  map codePointAt0 (stringIterator (codeUnitsOf c ++ rest))
  = Some c :: map codePointAt0 (stringIterator rest).
Proof.
  intros Hc. unfold codeUnitsOf.
  destruct (Z.ltb_spec c 0x10000) as [Hlt | Hge].
  - cbn [app stringIterator]. rewrite (scalar_not_lead c Hc). cbn [andb].
    destruct rest; reflexivity.
  - apply isScalarValue_spec in Hc.
    destruct (supplementary_units c ltac:(lia)) as (Hhi & Hlo & Hpair).
    cbn [app stringIterator]. rewrite Hhi, Hlo. cbn [andb map codePointAt0].
    rewrite Hhi, Hlo. cbn [andb]. rewrite Hpair. reflexivity.
Qed.

Lemma toScalarValues_scalar c rest :
  isScalarValue c = true ->
  toScalarValues (codeUnitsOf c ++ rest) = c :: toScalarValues rest.
Proof.
  intros Hc. unfold codeUnitsOf.
  destruct (Z.ltb_spec c 0x10000) as [Hlt | Hge].
  - cbn [app toScalarValues].
    rewrite (scalar_not_lead c Hc), (scalar_not_surrogate c Hc). cbn [andb].
    destruct rest; reflexivity.
  - apply isScalarValue_spec in Hc.
    destruct (supplementary_units c ltac:(lia)) as (Hhi & Hlo & Hpair).
    cbn [app toScalarValues]. rewrite Hhi, Hlo. cbn [andb].
    rewrite Hpair. reflexivity.
Qed.

Lemma codePoints_fromCodePoints l :
  Forall (fun c => isScalarValue c = true) l ->
  codePoints (Some (fromCodePoints l)) = map Some l.
Proof.
  unfold codePoints, orEmpty.
  induction 1 as [| c l Hc _ IH]; [reflexivity |].
  cbn [fromCodePoints flat_map map].
  rewrite stringIterator_scalar by assumption.
  f_equal. exact IH.
Qed.

Lemma toScalarValues_fromCodePoints l :
  Forall (fun c => isScalarValue c = true) l ->
  toScalarValues (fromCodePoints l) = l.
Proof.
  induction 1 as [| c l Hc _ IH]; [reflexivity |].
  cbn [fromCodePoints flat_map].
  rewrite toScalarValues_scalar by assumption.
  f_equal. exact IH.
Qed.

End Utf16.

(** ** UTF-8: encoder and decoder *)

Section Utf8Arith.

Lemma lor_shiftl a b n :
  0 <= n -> 0 <= b < 2 ^ n -> Z.lor (Z.shiftl a n) b = a * 2 ^ n + b.
Proof.
  intros Hn Hb.
  assert (Hland : Z.land (Z.shiftl a n) b = 0).
  { apply Z.bits_inj'. intros j Hj.
    rewrite Z.land_spec, Z.bits_0.
    destruct (Z_lt_le_dec j n).
    - rewrite Z.shiftl_spec_low by assumption. reflexivity.
    - rewrite <- (Z.mod_small b (2 ^ n)) by assumption.
      rewrite Z.mod_pow2_bits_high by lia. apply andb_false_r. }
  assert (H := Z.add_lor_land (Z.shiftl a n) b).
  rewrite Hland, Z.shiftl_mul_pow2 in H by assumption.
  rewrite Z.shiftl_mul_pow2 by assumption. lia.
Qed.

Lemma land_low x n : 0 <= n -> Z.land x (Z.ones n) = x mod 2 ^ n.
Proof. intros; apply Z.land_ones; assumption. Qed.

Lemma continuation_byte x :
  Z.lor 0x80 (Z.land x 0x3F) = 128 + x mod 64.
Proof.
  change 0x3F with (Z.ones 6). rewrite land_low by lia.
  change 0x80 with (Z.shiftl 2 6).
  rewrite lor_shiftl; [reflexivity | lia | apply Z.mod_pos_bound; reflexivity].
Qed.

Lemma accumulate cp b :
  Z.lor (Z.shiftl cp 6) (Z.land b 0x3F) = cp * 64 + b mod 64.
Proof.
  change 0x3F with (Z.ones 6). rewrite land_low by lia.
  rewrite lor_shiftl; [reflexivity | lia | apply Z.mod_pos_bound; reflexivity].
Qed.

Lemma encode1 c : c <= 0x7F -> utf8EncodeScalar c = [c].
Proof. intros; unfold utf8EncodeScalar; decide_cmp; reflexivity. Qed.

Lemma encode2 c :
  0x7F < c <= 0x7FF ->
  utf8EncodeScalar c = [c / 64 + 0xC0; 128 + c mod 64].
Proof.
  intros. unfold utf8EncodeScalar. decide_cmp.
  cbn [utf8Continuation]. rewrite !continuation_byte.
  change (6 * Z.of_nat 1) with 6. change (6 * Z.of_nat 0) with 0.
  rewrite Z.shiftr_0_r, !Z.shiftr_div_pow2 by lia. reflexivity.
Qed.

Lemma encode3 c :
  0x7FF < c <= 0xFFFF ->
  utf8EncodeScalar c
  = [c / 4096 + 0xE0; 128 + (c / 64) mod 64; 128 + c mod 64].
Proof.
  intros. unfold utf8EncodeScalar. decide_cmp.
  cbn [utf8Continuation]. rewrite !continuation_byte.
  change (6 * Z.of_nat 2) with 12.
  change (6 * Z.of_nat 1) with 6. change (6 * Z.of_nat 0) with 0.
  rewrite Z.shiftr_0_r, !Z.shiftr_div_pow2 by lia. reflexivity.
Qed.

Lemma encode4 c :
  0xFFFF < c ->
  utf8EncodeScalar c
  = [c / 262144 + 0xF0; 128 + (c / 4096) mod 64;
     128 + (c / 64) mod 64; 128 + c mod 64].
Proof.
  intros. unfold utf8EncodeScalar. decide_cmp.
  cbn [utf8Continuation]. rewrite !continuation_byte.
  change (6 * Z.of_nat 3) with 18. change (6 * Z.of_nat 2) with 12.
  change (6 * Z.of_nat 1) with 6. change (6 * Z.of_nat 0) with 0.
  rewrite Z.shiftr_0_r, !Z.shiftr_div_pow2 by lia. reflexivity.
Qed.

End Utf8Arith.

Ltac div_arith := Z.div_mod_to_equations; lia.

(** Reads the fields of a decoder state that is given explicitly. *)
Ltac fields :=
  cbn [code_point bytes_seen bytes_needed lower_boundary upper_boundary];
  change (0 + 1 =? 1) with true; change (0 + 1 =? 2) with false;
  change (0 + 1 =? 3) with false; change (0 + 1 + 1 =? 2) with true;
  change (0 + 1 + 1 =? 3) with false; change (0 + 1 + 1 + 1 =? 3) with true;
  cbv iota.

Section Utf8Decoder.

Lemma handler_ascii b :
  0 <= b <= 0x7F -> utf8Handler utf8Initial (Some b) = CodePoint b utf8Initial.
Proof. intros; unfold utf8Handler; cbn; decide_bool; reflexivity. Qed.

Lemma handler_lead2 b :
  0xC2 <= b <= 0xDF ->
  utf8Handler utf8Initial (Some b)
  = Continue (mkUtf8Decoder (b mod 32) 0 1 0x80 0xBF).
Proof.
  intros. unfold utf8Handler. cbn. decide_bool.
  change 31 with (Z.ones 5). rewrite land_low by lia. reflexivity.
Qed.

Lemma handler_lead3 b :
  0xE0 <= b <= 0xEF ->
  utf8Handler utf8Initial (Some b)
  = Continue (mkUtf8Decoder (b mod 16) 0 2
                (if b =? 0xE0 then 0xA0 else 0x80)
                (if b =? 0xED then 0x9F else 0xBF)).
Proof.
  intros. unfold utf8Handler, utf8Initial.
  cbn [bytes_needed bytes_seen lower_boundary upper_boundary code_point].
  change (0 =? 0) with true. cbv iota.
  decide_leb. cbn [andb].
  change 0xF with (Z.ones 4). rewrite land_low by lia. reflexivity.
Qed.

Lemma handler_lead4 b :
  0xF0 <= b <= 0xF4 ->
  utf8Handler utf8Initial (Some b)
  = Continue (mkUtf8Decoder (b mod 8) 0 3
                (if b =? 0xF0 then 0x90 else 0x80)
                (if b =? 0xF4 then 0x8F else 0xBF)).
Proof.
  intros. unfold utf8Handler, utf8Initial.
  cbn [bytes_needed bytes_seen lower_boundary upper_boundary code_point].
  change (0 =? 0) with true. cbv iota.
  decide_leb. cbn [andb].
  change 0x7 with (Z.ones 3). rewrite land_low by lia. reflexivity.
Qed.

Lemma handler_continuation d b :
  bytes_needed d <> 0 ->
  lower_boundary d <= b <= upper_boundary d ->
  utf8Handler d (Some b)
  = if bytes_seen d + 1 =? bytes_needed d
    then CodePoint (code_point d * 64 + b mod 64) utf8Initial
    else Continue (mkUtf8Decoder (code_point d * 64 + b mod 64)
                     (bytes_seen d + 1) (bytes_needed d) 0x80 0xBF).
Proof.
  intros Hn Hb. unfold utf8Handler.
  replace (bytes_needed d =? 0) with false by (symmetry; apply Z.eqb_neq; lia).
  replace (lower_boundary d <=? b) with true by (symmetry; apply Z.leb_le; lia).
  replace (b <=? upper_boundary d) with true by (symmetry; apply Z.leb_le; lia).
  cbn [andb negb]. rewrite accumulate.
  destruct (bytes_seen d + 1 =? bytes_needed d); reflexivity.
Qed.

Lemma utf8Run_continue fatal d b t d' :
  utf8Handler d (Some b) = Continue d' ->
  utf8Run fatal d (b :: t) = utf8Run fatal d' t.
Proof. intros H. cbn [utf8Run]. rewrite H. reflexivity. Qed.

Lemma utf8Run_codePoint fatal d b t c d' :
  utf8Handler d (Some b) = CodePoint c d' ->
  utf8Run fatal d (b :: t) = option_map (cons c) (utf8Run fatal d' t).
Proof. intros H. cbn [utf8Run]. rewrite H. reflexivity. Qed.

(** The bytes of one scalar value decode to it, in either error mode. *)
Lemma utf8Run_scalar fatal c rest :
  isScalarValue c = true ->
  utf8Run fatal utf8Initial (utf8EncodeScalar c ++ rest)
  = option_map (cons c) (utf8Run fatal utf8Initial rest).
Proof.
  intros Hc. apply isScalarValue_spec in Hc.
  destruct (Z_le_gt_dec c 0x7F) as [H1 | H1].
  { rewrite encode1 by assumption. cbn [app].
    apply utf8Run_codePoint, handler_ascii. lia. }
  destruct (Z_le_gt_dec c 0x7FF) as [H2 | H2].
  { rewrite encode2 by lia. cbn [app].
    assert (Hl : 0xC2 <= c / 64 + 0xC0 <= 0xDF) by div_arith.
    rewrite (utf8Run_continue _ _ _ _ _ (handler_lead2 _ Hl)).
    erewrite utf8Run_codePoint;
      [| rewrite handler_continuation by (fields; div_arith);
         fields; reflexivity].
    do 2 f_equal. div_arith. }
  destruct (Z_le_gt_dec c 0xFFFF) as [H3 | H3].
  { rewrite encode3 by lia. cbn [app].
    assert (Hl : 0xE0 <= c / 4096 + 0xE0 <= 0xEF) by div_arith.
    rewrite (utf8Run_continue _ _ _ _ _ (handler_lead3 _ Hl)).
    erewrite utf8Run_continue;
      [| rewrite handler_continuation;
         [fields; reflexivity | fields; lia
         | fields;
           destruct (Z.eqb_spec (c / 4096 + 224) 224),
                    (Z.eqb_spec (c / 4096 + 224) 237); div_arith ]].
    erewrite utf8Run_codePoint;
      [| rewrite handler_continuation by (fields; div_arith);
         fields; reflexivity].
    do 2 f_equal. div_arith. }
  rewrite encode4 by lia. cbn [app].
  assert (Hl : 0xF0 <= c / 262144 + 0xF0 <= 0xF4) by div_arith.
  rewrite (utf8Run_continue _ _ _ _ _ (handler_lead4 _ Hl)).
  erewrite utf8Run_continue;
    [| rewrite handler_continuation;
       [fields; reflexivity | fields; lia
       | fields;
         destruct (Z.eqb_spec (c / 262144 + 240) 240),
                  (Z.eqb_spec (c / 262144 + 240) 244); div_arith ]].
  erewrite utf8Run_continue;
    [| rewrite handler_continuation by (fields; div_arith);
       fields; reflexivity].
  erewrite utf8Run_codePoint;
    [| rewrite handler_continuation by (fields; div_arith);
       fields; reflexivity].
  do 2 f_equal. div_arith.
Qed.

Lemma utf8Run_encode fatal l :
  Forall (fun c => isScalarValue c = true) l ->
  utf8Run fatal utf8Initial (flat_map utf8EncodeScalar l) = Some l.
Proof.
  induction 1 as [| c l Hc _ IH]; [reflexivity |].
  cbn [flat_map]. rewrite utf8Run_scalar, IH by assumption. reflexivity.
Qed.

(** In replacement mode the decoder never throws. *)
Lemma utf8Run_total bytes : forall d, utf8Run false d bytes <> None.
Proof.
  induction bytes as [| b t IH]; intros d; cbn [utf8Run].
  - destruct (utf8Handler d None); discriminate.
  - destruct (utf8Handler d (Some b)) as [| d' | c d' | d' [|]];
      try discriminate; try apply IH.
    + specialize (IH d'). destruct (utf8Run false d' t); [discriminate | congruence].
    + cbn [onError].
      destruct (utf8Handler d' (Some b)) as [| d'' | c d'' | d'' r]; cbn.
      * discriminate.
      * specialize (IH d''). destruct (utf8Run false d'' t); [discriminate | congruence].
      * specialize (IH d''). destruct (utf8Run false d'' t); [discriminate | congruence].
      * specialize (IH d''). destruct (utf8Run false d'' t); [discriminate | congruence].
    + cbn [onError]. specialize (IH d').
      destruct (utf8Run false d' t); [discriminate | congruence].
Qed.

End Utf8Decoder.

(** ** Well-formed strings *)

Section WellFormed.

Lemma list_pair_ind (P : list Z -> Prop) :
  P [] -> (forall u, P [u]) ->
  (forall u v t, P t -> P (v :: t) -> P (u :: v :: t)) ->
  forall s, P s.
Proof.
  intros H0 H1 H2 s.
  enough (H : P s /\ forall u, P (u :: s)) by apply H.
  induction s as [| v t [IHt IHvt]]; [split; [exact H0 | exact H1] |].
  split; [apply IHvt |]. intros u. apply H2; [exact IHt | apply IHvt].
Qed.

Lemma surrogatePair_units u v :
  isLeadSurrogate u = true -> isTrailSurrogate v = true ->
  isScalarValue (surrogatePair u v) = true
  /\ codeUnitsOf (surrogatePair u v) = [u; v].
Proof.
  unfold isLeadSurrogate, isTrailSurrogate.
  rewrite !andb_true_iff, !Z.leb_le. intros [? ?] [? ?].
  split.
  - apply isScalarValue_spec. unfold surrogatePair. lia.
  - unfold codeUnitsOf, surrogatePair.
    destruct (Z.ltb_spec ((u - 55296) * 1024 + (v - 56320) + 65536) 65536);
      [lia |].
    f_equal; [| f_equal]; div_arith.
Qed.

Lemma unit_scalar u :
  isCodeUnit u = true -> isSurrogate u = false ->
  isScalarValue u = true /\ codeUnitsOf u = [u].
Proof.
  unfold isCodeUnit, isSurrogate.
  rewrite andb_true_iff, andb_false_iff, !Z.leb_le, !Z.leb_gt. intros [? ?] Hs.
  split.
  - apply isScalarValue_spec. lia.
  - unfold codeUnitsOf. destruct (Z.ltb_spec u 65536); [reflexivity | lia].
Qed.

Lemma toScalarValues_cons2 u v t :
  toScalarValues (u :: v :: t)
  = if isLeadSurrogate u && isTrailSurrogate v
    then surrogatePair u v :: toScalarValues t
    else (if isSurrogate u then 0xFFFD else u) :: toScalarValues (v :: t).
Proof. reflexivity. Qed.

Lemma isWellFormed_cons2 u v t :
  isWellFormed (u :: v :: t)
  = if isLeadSurrogate u && isTrailSurrogate v then isWellFormed t
    else negb (isSurrogate u) && isWellFormed (v :: t).
Proof. reflexivity. Qed.

(** A well-formed string is the UTF-16 form of its scalar values. *)
Lemma wellFormed_scalars s :
  Forall (fun u => isCodeUnit u = true) s -> isWellFormed s = true ->
  Forall (fun c => isScalarValue c = true) (toScalarValues s)
  /\ fromCodePoints (toScalarValues s) = s.
Proof.
  induction s as [| u | u v t IHt IHvt] using list_pair_ind; intros Hu Hwf.
  - split; constructor.
  - cbn in Hwf. apply negb_true_iff in Hwf.
    destruct (unit_scalar u (Forall_inv Hu) Hwf) as [Hs Hc].
    cbn [toScalarValues]. rewrite Hwf.
    split; [repeat constructor; exact Hs |].
    cbn. rewrite Hc. reflexivity.
  - assert (Hu' := Forall_inv_tail Hu).
    rewrite toScalarValues_cons2. rewrite isWellFormed_cons2 in Hwf.
    destruct (isLeadSurrogate u && isTrailSurrogate v) eqn:E.
    + apply andb_true_iff in E as [E1 E2].
      destruct (surrogatePair_units u v E1 E2) as [Hs Hc].
      destruct (IHt (Forall_inv_tail Hu') Hwf) as [IH1 IH2].
      split; [constructor; assumption |].
      cbn [fromCodePoints flat_map]. rewrite Hc.
      fold (fromCodePoints (toScalarValues t)). rewrite IH2. reflexivity.
    + apply andb_true_iff in Hwf as [Hns Hwf].
      apply negb_true_iff in Hns. rewrite Hns.
      destruct (unit_scalar u (Forall_inv Hu) Hns) as [Hs Hc].
      destruct (IHvt Hu' Hwf) as [IH1 IH2].
      split; [constructor; assumption |].
      cbn [fromCodePoints flat_map]. rewrite Hc.
      fold (fromCodePoints (toScalarValues (v :: t))). rewrite IH2. reflexivity.
Qed.

Lemma dropBOM_fromCodePoints l :
  Forall (fun c => isScalarValue c = true) l ->
  fromCodePoints (dropBOM false l) = dropBOM false (fromCodePoints l).
Proof.
  intros H. destruct H as [| c l Hc _]; [reflexivity |].
  apply isScalarValue_spec in Hc.
  change (dropBOM false (c :: l)) with (if c =? 0xFEFF then l else c :: l).
  destruct (Z.eqb_spec c 0xFEFF) as [-> | Hne]; [reflexivity |].
  change (fromCodePoints (c :: l)) with (codeUnitsOf c ++ fromCodePoints l).
  unfold codeUnitsOf.
  destruct (Z.ltb_spec c 0x10000); cbn [app dropBOM].
  - replace (c =? 65279) with false by (symmetry; apply Z.eqb_neq; lia).
    reflexivity.
  - replace (55296 + (c - 65536) / 1024 =? 65279) with false
      by (symmetry; apply Z.eqb_neq; div_arith).
    reflexivity.
Qed.

End WellFormed.

(** A string with an unpaired surrogate is not the UTF-16 form of any
    Unicode text; the iterator gives the unpaired code unit an entry of its
    own. *)
Lemma codePoints_lone_surrogate :
  codePoints (Some [0xD800]) = [Some 0xD800]
  /\ codePoints (Some [0xDC00; 0xD800; 0x41]) = [Some 0xDC00; Some 0xD800; Some 0x41].
Proof. split; reflexivity. Qed.

(** C8: for every text, given as the UTF-16 string of its Unicode scalar
    values, [codePoints] yields exactly these scalar values, one entry each,
    in order; said of the string, every string without lone surrogate yields
    its scalar values; a scalar value above 0xFFFF takes two code units in
    the string and one entry in the result; [codePoints("Hi")] is
    [[72, 105]]. *)
Theorem codePoints_spec :
  (forall l, Forall (fun c => isScalarValue c = true) l ->
     codePoints (Some (fromCodePoints l)) = map Some l)
  /\ (forall s, Forall (fun u => isCodeUnit u = true) s -> isWellFormed s = true ->
        codePoints (Some s) = map Some (toScalarValues s)
        /\ Forall (fun c => isScalarValue c = true) (toScalarValues s)
        /\ fromCodePoints (toScalarValues s) = s)
  /\ (forall c, isScalarValue c = true -> 0xFFFF < c ->
        length (codeUnitsOf c) = 2%nat
        /\ codePoints (Some (codeUnitsOf c)) = [Some c])
  /\ codePoints (Some (lit "Hi")) = [Some 72; Some 105]
  /\ codePoints None = [].
Proof.
  split; [exact codePoints_fromCodePoints | split; [| split; [| split; reflexivity]]].
  - intros s Hu Hwf.
    destruct (wellFormed_scalars s Hu Hwf) as [Hsc Hfrom].
    split; [| split; assumption].
    rewrite <- Hfrom at 1. apply codePoints_fromCodePoints, Hsc.
  - intros c Hc Hhigh. split.
    + unfold codeUnitsOf. destruct (Z.ltb_spec c 0x10000); [lia | reflexivity].
    + assert (H := codePoints_fromCodePoints [c] (Forall_cons _ Hc (Forall_nil _))).
      cbn [fromCodePoints flat_map map] in H. rewrite app_nil_r in H. exact H.
Qed.

Lemma codePoints_spec_witness :
  Forall (fun c => isScalarValue c = true) [72; 0x1F44B]
  /\ fromCodePoints [72; 0x1F44B] = [72; 0xD83D; 0xDC4B]
  /\ codePoints (Some [72; 0xD83D; 0xDC4B]) = [Some 72; Some 0x1F44B].
Proof.
  assert (H : Forall (fun c => isScalarValue c = true) [72; 0x1F44B])
    by (repeat constructor).
  split; [exact H | split; [reflexivity |]].
  exact (proj1 codePoints_spec _ H).
Defined.

(** C5, as the claim states it, fails: the text made of the single scalar
    value U+FEFF has no lone surrogate, its encoding is [EF BB BF], and
    [new TextDecoder()] drops a leading U+FEFF, so decoding gives the empty
    string. *)
Lemma roundtrip_drops_leading_BOM :
  isWellFormed [0xFEFF] = true
  /\ utf8Bytes (Some [0xFEFF]) = [0xEF; 0xBB; 0xBF]
  /\ decodeUtf8 (utf8Bytes (Some [0xFEFF])) = Some []
  /\ decodeUtf8 (utf8Bytes (Some [0xFEFF])) <> Some [0xFEFF].
Proof. repeat split; try reflexivity. discriminate. Qed.

(** C5 (amended): for every string [s] of code units without lone
    surrogate, decoding the UTF-8 encoding of [s] gives [s] without a leading
    U+FEFF; it gives [s] itself when [s] does not start with U+FEFF. *)
Theorem utf8_roundtrip (s : jsstring) :
  Forall (fun u => isCodeUnit u = true) s -> isWellFormed s = true ->
  decodeUtf8 (utf8Bytes (Some s)) = Some (dropBOM false s)
  /\ ((forall t, s <> 0xFEFF :: t) -> decodeUtf8 (utf8Bytes (Some s)) = Some s).
Proof.
  intros Hu Hwf.
  destruct (wellFormed_scalars s Hu Hwf) as [Hsc Hfrom].
  assert (H : decodeUtf8 (utf8Bytes (Some s)) = Some (dropBOM false s)).
  { unfold decodeUtf8, utf8Bytes, orEmpty, TextDecoder_decode, TextEncoder_encode.
    rewrite utf8Run_encode by assumption. cbn [option_map].
    rewrite dropBOM_fromCodePoints, Hfrom by assumption. reflexivity. }
  split; [exact H |].
  intros Hno. rewrite H. f_equal.
  destruct s as [| u t]; [reflexivity |]. cbn [dropBOM].
  destruct (Z.eqb_spec u 0xFEFF) as [-> | _]; [| reflexivity].
  exfalso. exact (Hno t eq_refl).
Qed.

Lemma utf8_roundtrip_witness :
  Forall (fun u => isCodeUnit u = true) [72; 0xD83D; 0xDC4B]
  /\ isWellFormed [72; 0xD83D; 0xDC4B] = true
  /\ utf8Bytes (Some [72; 0xD83D; 0xDC4B]) = [0x48; 0xF0; 0x9F; 0x91; 0x8B]
  /\ decodeUtf8 (utf8Bytes (Some [72; 0xD83D; 0xDC4B])) = Some [72; 0xD83D; 0xDC4B].
Proof.
  assert (Hu : Forall (fun u => isCodeUnit u = true) [72; 0xD83D; 0xDC4B])
    by (repeat constructor).
  assert (Hwf : isWellFormed [72; 0xD83D; 0xDC4B] = true) by reflexivity.
  split; [exact Hu | split; [exact Hwf | split; [reflexivity |]]].
  apply (proj2 (utf8_roundtrip _ Hu Hwf)).
  intros t H. discriminate H.
Defined.

(** ** The decoder tool *)

(** C1 at its failing input: for the hex input "FF FE" the tool reads the
    bytes [FF FE], which a fatal decoder rejects, and shows two replacement
    characters with no error message.  The [catch] branch is never taken:
    whatever the input, [error] stays empty. *)
Theorem decoder_never_reports :
  hexInputBytes (lit "FF FE") = [0xFF; 0xFE]
  /\ TextDecoder_decode true false [0xFF; 0xFE] = None
  /\ DecoderTool (lit "FF FE") = mkDecoderState [0xFFFD; 0xFFFD] []
  /\ (forall hexInput, error (DecoderTool hexInput) = []).
Proof.
  split; [reflexivity | split; [reflexivity | split; [reflexivity |]]].
  intros hexInput. unfold DecoderTool, TextDecoder_decode.
  assert (H := utf8Run_total (hexInputBytes hexInput) utf8Initial).
  destruct (utf8Run false utf8Initial (hexInputBytes hexInput));
    [reflexivity | congruence].
Qed.

(* ================================================================== *)
(** * Further properties of the number tab *)

Section SignedView.

Variable b : Z.
Hypothesis Hb : validBits b.

Lemma pow2_half : 2 ^ b = 2 * 2 ^ (b - 1).
Proof.
  apply validBits_bounds in Hb.
  replace b with (Z.succ (b - 1)) at 1 by lia.
  apply Z.pow_succ_r; lia.
Qed.

Lemma toUnsigned_of_signed v :
  inRange v b -> toUnsigned (Fin (unsignedToSigned v b)) b = v.
Proof.
  intros Hv. unfold inRange in Hv. unfold unsignedToSigned.
  assert (Hb' := validBits_bounds b Hb).
  assert (Hp := pow2_half).
  destruct (Z.leb_spec (2 ^ b) (2 * v)).
  - rewrite toUnsigned_negative by lia.
    replace (v - 2 ^ b) with (v + (-1) * 2 ^ b) by lia.
    rewrite Z_mod_plus_full. apply Z.mod_small. lia.
  - rewrite toUnsigned_nonnegative by lia. lia.
Qed.

Lemma signed_of_toUnsigned s :
  - 2 ^ (b - 1) <= s <= 2 ^ (b - 1) - 1 ->
  unsignedToSigned (toUnsigned (Fin s) b) b = s.
Proof.
  intros Hs.
  assert (Hb' := validBits_bounds b Hb).
  assert (Hp := pow2_half).
  destruct (Z_lt_le_dec s 0).
  - rewrite toUnsigned_negative by lia.
    replace (s mod 2 ^ b) with (s + 2 ^ b).
    + unfold unsignedToSigned. destruct (Z.leb_spec (2 ^ b) (2 * (s + 2 ^ b))); lia.
    + symmetry. replace s with (s + 2 ^ b + (-1) * 2 ^ b) at 1 by lia.
      rewrite Z_mod_plus_full. apply Z.mod_small. lia.
  - rewrite toUnsigned_nonnegative by lia.
    replace (Z.min s (2 ^ b - 1)) with s by lia.
    unfold unsignedToSigned. destruct (Z.leb_spec (2 ^ b) (2 * s)); lia.
Qed.

End SignedView.

(** X1: the signed view loses nothing.  For a width in {8,16,32},
    [toUnsigned] undoes [unsignedToSigned] on every value in range, and
    [unsignedToSigned] undoes [toUnsigned] on every integer of the signed
    range [-2^(bits-1), 2^(bits-1) - 1]. *)
Theorem signed_unsigned_roundtrip (b : Z) :
  validBits b ->
  (forall v, inRange v b -> toUnsigned (Fin (unsignedToSigned v b)) b = v)
  /\ (forall s, - 2 ^ (b - 1) <= s <= 2 ^ (b - 1) - 1 ->
        unsignedToSigned (toUnsigned (Fin s) b) b = s).
Proof.
  intros Hb. split; [apply toUnsigned_of_signed | apply signed_of_toUnsigned];
    exact Hb.
Qed.

Lemma signed_unsigned_roundtrip_witness :
  validBits 8 /\ inRange 200 8
  /\ toUnsigned (Fin (unsignedToSigned 200 8)) 8 = 200
  /\ unsignedToSigned (toUnsigned (Fin (-56)) 8) 8 = -56.
Proof.
  assert (Hb : validBits 8) by (left; reflexivity).
  assert (Hv : inRange 200 8) by (unfold inRange; cbn; lia).
  destruct (signed_unsigned_roundtrip 8 Hb) as [H1 H2].
  split; [exact Hb | split; [exact Hv | split]].
  - exact (H1 200 Hv).
  - apply (H2 (-56)). cbn. lia.
Defined.



(** ** Bytes of any stored value *)

Section BytesValue.

Lemma ushr_zero v : ushr v 0 = v mod 2 ^ 32.
Proof. unfold ushr. change (Z.land (toUint32 0) 31) with 0. apply Z.shiftr_0_r. Qed.

Lemma byte_at x i :
  0 <= x < 2 ^ 32 -> 0 <= i < 4 ->
  band (ushr x (i * 8)) 0xff = (x / 2 ^ (8 * i)) mod 256.
Proof.
  intros Hx Hi. rewrite band_255.
  rewrite ushr_small; [| exact Hx | lia].
  rewrite Z.shiftr_div_pow2 by lia.
  replace (i * 8) with (8 * i) by lia. reflexivity.
Qed.

Lemma bytesBE_8 v : bytesBE v 8 = [v mod 256].
Proof.
  assert (Hx := Z.mod_pos_bound v (2 ^ 32) eq_refl).
  unfold bytesBE. rewrite ushr_zero.
  change (Z.to_nat (ceilDiv 8 8)) with 1%nat. cbn [bytesBE_loop].
  change (Z.of_nat 0) with 0.
  rewrite byte_at by lia. f_equal.
  change (2 ^ (8 * 0)) with 1. change (2 ^ 32) with 4294967296 in *.
  div_arith.
Qed.

Lemma bytesBE_16 v : bytesBE v 16 = [(v / 256) mod 256; v mod 256].
Proof.
  assert (Hx := Z.mod_pos_bound v (2 ^ 32) eq_refl).
  unfold bytesBE. rewrite ushr_zero.
  change (Z.to_nat (ceilDiv 16 8)) with 2%nat. cbn [bytesBE_loop].
  change (Z.of_nat 0) with 0. change (Z.of_nat 1) with 1.
  rewrite !byte_at by lia.
  change (2 ^ (8 * 0)) with 1. change (2 ^ (8 * 1)) with 256.
  change (2 ^ 32) with 4294967296 in *.
  f_equal; [| f_equal]; div_arith.
Qed.

Lemma bytesBE_32 v :
  bytesBE v 32
  = [(v / 16777216) mod 256; (v / 65536) mod 256; (v / 256) mod 256; v mod 256].
Proof.
  assert (Hx := Z.mod_pos_bound v (2 ^ 32) eq_refl).
  unfold bytesBE. rewrite ushr_zero.
  change (Z.to_nat (ceilDiv 32 8)) with 4%nat. cbn [bytesBE_loop].
  change (Z.of_nat 0) with 0. change (Z.of_nat 1) with 1.
  change (Z.of_nat 2) with 2. change (Z.of_nat 3) with 3.
  rewrite !byte_at by lia.
  change (2 ^ (8 * 0)) with 1. change (2 ^ (8 * 1)) with 256.
  change (2 ^ (8 * 2)) with 65536. change (2 ^ (8 * 3)) with 16777216.
  change (2 ^ 32) with 4294967296 in *.
  f_equal; [| f_equal; [| f_equal; [| f_equal]]]; div_arith.
Qed.

End BytesValue.

(** X3: for a width in {8,16,32} and any stored integer [v], in range or
    not, every byte of [bytesBE] lies in [0, 255] and the bytes, read as a
    big-endian number, give [v mod 2^bits]; read from the little-endian list
    they give the same.  For [v] in range the bytes rebuild [v] exactly. *)
Theorem bytesBE_value (v b : Z) :
  validBits b ->
  Forall (fun x => 0 <= x <= 255) (bytesBE v b)
  /\ bigEndianValue (bytesBE v b) = v mod 2 ^ b
  /\ fold_right (fun x acc => acc * 256 + x) 0 (bytesLE v b) = v mod 2 ^ b
  /\ (inRange v b -> bigEndianValue (bytesBE v b) = v).
Proof.
  intros Hb.
  assert (Hval : bigEndianValue (bytesBE v b) = v mod 2 ^ b).
  { destruct Hb as [-> | [-> | ->]].
    - rewrite bytesBE_8. reflexivity.
    - rewrite bytesBE_16. unfold bigEndianValue. cbn [fold_left].
      change (2 ^ 16) with 65536. div_arith.
    - rewrite bytesBE_32. unfold bigEndianValue. cbn [fold_left].
      change (2 ^ 32) with 4294967296. div_arith. }
  split; [| split; [exact Hval | split]].
  - destruct Hb as [-> | [-> | ->]];
      rewrite ?bytesBE_8, ?bytesBE_16, ?bytesBE_32;
      repeat constructor; div_arith.
  - rewrite <- Hval. unfold bytesLE, bigEndianValue.
    rewrite fold_left_rev_right. reflexivity.
  - intros Hv. rewrite Hval. apply Z.mod_small. unfold inRange in Hv. lia.
Qed.

Lemma bytesBE_value_witness :
  validBits 8 /\ bytesBE 65000 8 = [232] /\ 65000 mod 2 ^ 8 = 232
  /\ bigEndianValue (bytesBE 65000 8) = 65000 mod 2 ^ 8.
Proof.
  assert (Hb : validBits 8) by (left; reflexivity).
  split; [exact Hb | split; [reflexivity | split; [reflexivity |]]].
  exact (proj1 (proj2 (bytesBE_value 65000 8 Hb))).
Defined.

(** ** What every reachable state satisfies *)

Section Reachable.

Lemma inRange_32 v b : 0 <= b <= 32 -> inRange v b -> 0 <= v <= 2 ^ 32 - 1.
Proof.
  intros Hb Hv. unfold inRange in Hv.
  assert (2 ^ b <= 2 ^ 32) by (apply Z.pow_le_mono_r; lia). lia.
Qed.



End Reachable.





(** ** What the input fields accept and what they ignore *)

Section Fields.

Lemma trimStart_spaces s :
  Forall (fun c => isSpace c = true) s -> trimStart s = [].
Proof. induction 1 as [| c t Hc _ IH]; [reflexivity |]. cbn. rewrite Hc. exact IH. Qed.

Lemma trimStart_skip ws c rest :
  Forall (fun c => isSpace c = true) ws -> isSpace c = false ->
  trimStart (ws ++ c :: rest) = c :: rest.
Proof.
  intros Hws Hc. induction Hws as [| x t Hx _ IH]; cbn.
  - rewrite Hc. reflexivity.
  - rewrite Hx. exact IH.
Qed.

Lemma trimStart_snoc l c :
  isSpace c = false -> exists l', trimStart (l ++ [c]) = l' ++ [c].
Proof.
  intros Hc. induction l as [| x t [l' IH]]; cbn.
  - rewrite Hc. exists []. reflexivity.
  - destruct (isSpace x); [exists l'; exact IH | exists (x :: t); reflexivity].
Qed.

Lemma trim_skip ws c rest :
  Forall (fun c => isSpace c = true) ws -> isSpace c = false ->
  exists rest', trim (ws ++ c :: rest) = c :: rest'.
Proof.
  intros Hws Hc. unfold trim. rewrite (trimStart_skip ws c rest Hws Hc).
  cbn [rev]. destruct (trimStart_snoc (rev rest) c Hc) as [l' ->].
  exists (rev l'). rewrite rev_app_distr. reflexivity.
Qed.

Lemma trim_spaces s :
  Forall (fun c => isSpace c = true) s -> trim s = [].
Proof. intros H. unfold trim. rewrite (trimStart_spaces s H). reflexivity. Qed.

Lemma trim_nospace s :
  Forall (fun c => isSpace c = false) s -> trim s = s.
Proof.
  intros H. unfold trim.
  assert (Hid : forall l, Forall (fun c => isSpace c = false) l -> trimStart l = l).
  { intros l Hl. destruct Hl as [| c t Hc _]; [reflexivity |].
    cbn. rewrite Hc. reflexivity. }
  rewrite (Hid s H), (Hid (rev s) (Forall_rev H)). apply rev_involutive.
Qed.

(** A character that [parseInt] does not read as a digit of radix [r]. *)
Lemma parseInt_no_digit r c t :
  2 <= r <= 36 -> isSpace c = false -> c <> 43 -> c <> 45 ->
  match digitValue c with Some d => r <= d | None => True end ->
  parseInt (c :: t) r = NaN.
Proof.
  intros Hr Hsp Hplus Hminus Hdig. unfold parseInt.
  cbn [trimStart]. rewrite Hsp.
  replace (c =? 45) with false by (symmetry; apply Z.eqb_neq; lia).
  replace (c =? 43) with false by (symmetry; apply Z.eqb_neq; lia).
  rewrite (toInt32_small r) by (cbn; lia).
  replace (negb (r =? 0) && ((r <? 2) || (36 <? r))) with false
    by (decide_bool; reflexivity).
  assert (Hc0 : c <> 48).
  { intros ->. change (digitValue 48) with (Some 0) in Hdig.
    cbv beta iota in Hdig. lia. }
  assert (Hstrip : stripHexPrefix (c :: t) = None).
  { unfold stripHexPrefix. destruct t as [| x t']; [reflexivity |].
    replace (c =? 48) with false by (symmetry; apply Z.eqb_neq; lia).
    reflexivity. }
  rewrite Hstrip.
  replace (r =? 0) with false by (symmetry; apply Z.eqb_neq; lia).
  cbn [orb].
  assert (Hread : readDigits r (c :: t) 0 O = (0, O)).
  { cbn [readDigits]. destruct (digitValue c) as [d |]; [| reflexivity].
    destruct (Z.ltb_spec d r); [lia | reflexivity]. }
  destruct (r =? 16); cbv beta iota; rewrite Hread; reflexivity.
Qed.

Lemma parseInt_empty r : parseInt [] r = NaN.
Proof.
  unfold parseInt. cbn [trimStart].
  destruct (negb (toInt32 r =? 0) && ((toInt32 r <? 2) || (36 <? toInt32 r)));
    [reflexivity |].
  destruct ((toInt32 r =? 0) || (toInt32 r =? 16)); reflexivity.
Qed.

Lemma parseFromBase_blank s r :
  Forall (fun c => isSpace c = true) s -> parseFromBase (Some s) r = NaN.
Proof.
  intros H. unfold parseFromBase. destruct s; [reflexivity |].
  rewrite trim_spaces, parseInt_empty by assumption. reflexivity.
Qed.

Lemma parseFromBase_no_digit r ws c rest :
  2 <= r <= 36 ->
  Forall (fun c => isSpace c = true) ws -> isSpace c = false ->
  c <> 43 -> c <> 45 ->
  match digitValue c with Some d => r <= d | None => True end ->
  parseFromBase (Some (ws ++ c :: rest)) r = NaN.
Proof.
  intros Hr Hws Hsp Hp Hm Hd. unfold parseFromBase.
  destruct (trim_skip ws c rest Hws Hsp) as [rest' Ht].
  destruct (ws ++ c :: rest) eqn:E; [destruct ws; discriminate E |].
  rewrite Ht, parseInt_no_digit by assumption. reflexivity.
Qed.

Lemma not_hex_no_digit c :
  isHexDigit c = false ->
  match digitValue c with Some d => 16 <= d | None => True end.
Proof.
  unfold isHexDigit, digitValue. intros H.
  apply orb_false_iff in H as [H H3]. apply orb_false_iff in H as [H1 H2].
  destruct ((48 <=? c) && (c <=? 57)); [discriminate |].
  destruct (Z.leb_spec 97 c), (Z.leb_spec c 122); cbn [andb] in *.
  - apply Z.leb_gt in H2. lia.
  - destruct (Z.leb_spec 65 c), (Z.leb_spec c 90); cbn [andb] in *; trivial.
    apply Z.leb_gt in H3. lia.
  - destruct (Z.leb_spec 65 c), (Z.leb_spec c 90); cbn [andb] in *; trivial.
    apply Z.leb_gt in H3. lia.
  - destruct (Z.leb_spec 65 c), (Z.leb_spec c 90); cbn [andb] in *; trivial.
    apply Z.leb_gt in H3. lia.
Qed.

Lemma not_binary_no_digit c :
  c <> 48 -> c <> 49 ->
  match digitValue c with Some d => 2 <= d | None => True end.
Proof.
  intros H0 H1. unfold digitValue.
  destruct (Z.leb_spec 48 c), (Z.leb_spec c 57); cbn [andb]; try lia;
    destruct (Z.leb_spec 97 c), (Z.leb_spec c 122); cbn [andb]; try lia;
    destruct (Z.leb_spec 65 c), (Z.leb_spec c 90); cbn [andb]; try lia;
    trivial.
Qed.

End Fields.

(** X6: input that does not start with a number is ignored.  The state is
    unchanged by a non-finite decimal entry; by a hex or binary entry that is
    empty or white space only; by a hex entry whose first character after
    leading white space is neither a hex digit nor a sign; and by a binary
    entry whose first character, white space removed, is neither 0, 1 nor a
    sign. *)
Theorem invalid_input_ignored (st : State) :
  (forall n, isFinite n = false -> setFromDecimal st n = st)
  /\ (forall s, Forall (fun c => isSpace c = true) s ->
        setFromHex st s = st /\ setFromBinary st s = st)
  /\ (forall ws c rest,
        Forall (fun c => isSpace c = true) ws -> isSpace c = false ->
        isHexDigit c = false -> c <> 43 -> c <> 45 ->
        setFromHex st (ws ++ c :: rest) = st)
  /\ (forall s c rest,
        removeSpaces s = c :: rest ->
        c <> 48 -> c <> 49 -> c <> 43 -> c <> 45 ->
        setFromBinary st s = st).
Proof.
  split; [| split; [| split]].
  - intros n Hn. unfold setFromDecimal. rewrite Hn. reflexivity.
  - intros s Hs. unfold setFromHex, setFromBinary.
    rewrite parseFromBase_blank by assumption.
    assert (Hrm : removeSpaces s = []).
    { clear st. induction Hs as [| c t Hc _ IH]; [reflexivity |].
      cbn. rewrite Hc. exact IH. }
    rewrite Hrm. split; reflexivity.
  - intros ws c rest Hws Hsp Hhex Hp Hm. unfold setFromHex.
    rewrite parseFromBase_no_digit; try assumption; try lia; [reflexivity |].
    apply not_hex_no_digit, Hhex.
  - intros s c rest Hrm H0 H1 Hp Hm. unfold setFromBinary. rewrite Hrm.
    assert (Hsp : isSpace c = false).
    { assert (Hin : In c (removeSpaces s)) by (rewrite Hrm; left; reflexivity).
      apply filter_In in Hin as [_ Hin]. apply negb_true_iff in Hin. exact Hin. }
    assert (Hnan : parseFromBase (Some ([] ++ c :: rest)) 2 = NaN).
    { apply parseFromBase_no_digit; try assumption; try lia; [constructor |].
      apply not_binary_no_digit; assumption. }
    cbn [app] in Hnan. unfold jsstring in *. rewrite Hnan. reflexivity.
Qed.

Lemma invalid_input_ignored_witness :
  let st := mkState 16 300 None in
  setFromDecimal st NaN = st
  /\ setFromHex st (lit "   ") = st
  /\ setFromHex st (lit " xyz") = st
  /\ setFromBinary st (lit " 2 1") = st.
Proof.
  cbv zeta.
  destruct (invalid_input_ignored (mkState 16 300 None)) as (H1 & H2 & H3 & H4).
  split; [apply H1; reflexivity | split; [| split]].
  - apply (H2 (lit "   ")). repeat constructor.
  - apply (H3 (lit " ") 120 (lit "yz"));
      [repeat constructor | reflexivity | reflexivity | lia | lia].
  - apply (H4 (lit " 2 1") 50 (lit "1")); [reflexivity | lia | lia | lia | lia].
Defined.

Section Prefixes.

(** The digits that [toHex], [toBin] and the decimal rendering print, read
    back by [readDigits]. *)
Lemma readDigits_padded r v len (upper : bool) :
  2 <= r <= 16 -> 0 <= v < 2 ^ 53 ->
  let digits := toStringRadix v r in
  let s := padLeft (if upper then toUpperCase digits else digits) len in
  hexString s /\ exists k, readDigits r s 0 O = (v, S k).
Proof.
  intros Hr Hv digits s.
  assert (Hd : digits = digitsOf (S (Z.to_nat (Z.log2 v))) r v []).
  { unfold digits, toStringRadix. destruct (Z.ltb_spec v 0); [lia | reflexivity]. }
  assert (Hhex : hexString digits).
  { rewrite Hd. apply digitsOf_hex; [assumption | constructor]. }
  destruct (readDigits_digitsOf r Hr (Z.to_nat (Z.log2 v)) v [])
    as [k Hk]; [split; [lia | apply log2_fuel; lia] |].
  rewrite <- Hd in Hk. cbn [readDigits] in Hk.
  set (body := if upper then toUpperCase digits else digits) in *.
  assert (Hbody : hexString body /\ readDigits r body 0 O = (v, S k)).
  { unfold body. destruct upper.
    - split; [apply hexString_upper, Hhex | rewrite readDigits_upper; exact Hk].
    - split; assumption. }
  destruct Hbody as [Hb1 Hb2].
  split; [apply hexString_repeat, Hb1 |].
  exists (Z.to_nat (len - Z.of_nat (length body)) + k)%nat.
  unfold s, padLeft, padStart.
  rewrite readDigits_zeros by lia.
  rewrite readDigits_count, Hb2. cbn [fst snd]. f_equal. lia.
Qed.

Lemma stripHexPrefix_hex h : hexString h -> stripHexPrefix h = None.
Proof.
  intros Hh. unfold stripHexPrefix.
  destruct Hh as [| c t Hc Ht]; [reflexivity |].
  destruct Ht as [| x t' Hx _]; [reflexivity |].
  apply isHexDigit_spec in Hx.
  replace ((x =? 120) || (x =? 88)) with false
    by (destruct Hx as [Hx | [Hx | Hx]]; decide_bool; reflexivity).
  rewrite andb_false_r. reflexivity.
Qed.

Lemma parseInt_hex_prefix x h v k :
  x = 120 \/ x = 88 -> hexString h ->
  readDigits 16 h 0 O = (v, S k) -> Z.abs v < 2 ^ 53 ->
  parseInt (48 :: x :: h) 16 = Fin v.
Proof.
  intros Hx Hh Hread Hv. unfold parseInt.
  change (trimStart (48 :: x :: h)) with (48 :: x :: h).
  change (toInt32 16) with 16. cbv beta iota zeta.
  change (48 =? 45) with false. change (48 =? 43) with false.
  cbv beta iota zeta.
  change (negb (16 =? 0) && ((16 <? 2) || (36 <? 16))) with false.
  change ((16 =? 0) || (16 =? 16)) with true. cbv beta iota zeta.
  assert (Hstrip : stripHexPrefix (48 :: x :: h) = Some h).
  { unfold stripHexPrefix. change (48 =? 48) with true.
    destruct Hx as [-> | ->]; reflexivity. }
  rewrite Hstrip, Hread, Z.mul_1_l. apply toDouble_small, Hv.
Qed.

Lemma parseInt_minus r h v k :
  2 <= r <= 16 -> hexString h ->
  readDigits r h 0 O = (v, S k) -> Z.abs v < 2 ^ 53 ->
  parseInt (45 :: h) r = Fin (- v).
Proof.
  intros Hr Hh Hread Hv. unfold parseInt.
  change (trimStart (45 :: h)) with (45 :: h).
  cbv beta iota zeta. change (45 =? 45) with true. cbv beta iota zeta.
  rewrite (toInt32_small r) by (cbn; lia).
  replace (negb (r =? 0) && ((r <? 2) || (36 <? r))) with false
    by (decide_bool; reflexivity).
  rewrite (stripHexPrefix_hex h Hh).
  replace (r =? 0) with false by (symmetry; apply Z.eqb_neq; lia).
  cbn [orb].
  destruct (r =? 16); cbv beta iota; rewrite Hread;
    replace (-1 * v) with (- v) by lia; apply toDouble_small; lia.
Qed.

Lemma hex_nospace h :
  hexString h -> Forall (fun c => isSpace c = false) h.
Proof. intros H. eapply Forall_impl; [| exact H]. apply hex_not_space. Qed.

End Prefixes.

(** X7: what the hex field accepts besides its own content.  For a width
    in {8,16,32} and [v] in range, the hex digits of [v] store [v] also with
    a [0x] or [0X] prefix and in lower case without padding; with a leading
    minus sign they store the two's complement [(-v) mod 2^bits]. *)
Theorem hex_field_prefix_and_sign (st : State) (v : Z) :
  validBits (bits st) -> inRange v (bits st) ->
  setFromHex st (lit "0x" ++ toHex v (bits st)) = setUnsignedValue st v
  /\ setFromHex st (lit "0X" ++ toHex v (bits st)) = setUnsignedValue st v
  /\ setFromHex st (toStringRadix v 16) = setUnsignedValue st v
  /\ setFromHex st (lit "-" ++ toHex v (bits st))
     = setUnsignedValue st ((- v) mod 2 ^ bits st).
Proof.
  intros Hb Hv.
  assert (Hb' := validBits_bounds _ Hb).
  assert (Hv53 : 0 <= v < 2 ^ 53).
  { destruct (inRange_32 v (bits st) ltac:(lia) Hv).
    change (2 ^ 53) with (2097152 * 2 ^ 32). lia. }
  destruct (readDigits_padded 16 v (ceilDiv (bits st) 4) true ltac:(lia) Hv53)
    as [Hhex [k Hk]].
  fold (toHex v (bits st)) in Hhex, Hk.
  destruct (parse_padded 16 v 0 false ltac:(lia) Hv53) as [_ Hlow].
  unfold padLeft, padStart in Hlow.
  replace (Z.to_nat (0 - Z.of_nat (length (toStringRadix v 16)))) with O in Hlow
    by lia.
  cbn [repeat app] in Hlow.
  assert (Hstore : toUnsigned (Fin v) (bits st) = v).
  { unfold inRange in Hv. rewrite toUnsigned_nonnegative; lia. }
  assert (Hneg : toUnsigned (Fin (- v)) (bits st) = (- v) mod 2 ^ bits st).
  { destruct (Z.eq_dec v 0) as [-> | Hne].
    - cbn [Z.opp]. rewrite toUnsigned_nonnegative by lia.
      rewrite Z.mod_0_l by (apply Z.pow_nonzero; lia).
      assert (0 < 2 ^ bits st) by (apply pow2_pos; lia). lia.
    - apply toUnsigned_negative; unfold inRange in Hv; lia. }
  assert (Hsp : Forall (fun c => isSpace c = false) (toHex v (bits st)))
    by (apply hex_nospace, Hhex).
  assert (Hpre : forall x, x = 120 \/ x = 88 ->
            parseFromBase (Some (48 :: x :: toHex v (bits st))) 16 = Fin v).
  { intros x Hx. unfold parseFromBase.
    rewrite trim_nospace.
    - rewrite (parseInt_hex_prefix x _ v k) by (assumption || lia). reflexivity.
    - constructor; [reflexivity |].
      constructor; [destruct Hx as [-> | ->]; reflexivity | exact Hsp]. }
  assert (Hminus : parseFromBase (Some (45 :: toHex v (bits st))) 16 = Fin (- v)).
  { unfold parseFromBase. rewrite trim_nospace.
    - rewrite (parseInt_minus 16 _ v k) by (assumption || lia). reflexivity.
    - constructor; [reflexivity | exact Hsp]. }
  unfold setFromHex.
  change (lit "0x" ++ toHex v (bits st)) with (48 :: 120 :: toHex v (bits st)).
  change (lit "0X" ++ toHex v (bits st)) with (48 :: 88 :: toHex v (bits st)).
  change (lit "-" ++ toHex v (bits st)) with (45 :: toHex v (bits st)).
  unfold jsstring in *.
  rewrite (Hpre 120), (Hpre 88), Hlow, Hminus by auto.
  cbn [isFinite]. rewrite Hstore, Hneg. repeat split.
Qed.

Lemma hex_field_prefix_and_sign_witness :
  let st := mkState 8 65 None in
  validBits (bits st) /\ inRange 1 (bits st)
  /\ toHex 1 8 = lit "01"
  /\ setFromHex st (lit "0x01") = mkState 8 1 None
  /\ setFromHex st (lit "-01") = mkState 8 255 None.
Proof.
  cbv zeta.
  assert (Hb : validBits (bits (mkState 8 65 None))) by (left; reflexivity).
  assert (Hv : inRange 1 (bits (mkState 8 65 None)))
    by (unfold inRange; cbn; lia).
  destruct (hex_field_prefix_and_sign (mkState 8 65 None) 1 Hb Hv)
    as (H1 & _ & _ & H4).
  split; [exact Hb | split; [exact Hv | split; [reflexivity |]]].
  split; [exact H1 | exact H4].
Defined.

(** ** Solving a challenge *)

Section Solving.

Variables (st : State) (v : Z).
Hypothesis Hb : validBits (bits st).
Hypothesis Hv : inRange v (bits st).

Lemma value_53 : 0 <= v < 2 ^ 53.
Proof.
  assert (Hb' := validBits_bounds _ Hb).
  destruct (inRange_32 v (bits st) ltac:(lia) Hv).
  change (2 ^ 53) with (2097152 * 2 ^ 32). lia.
Qed.

Lemma store_in_range : toUnsigned (Fin v) (bits st) = v.
Proof.
  assert (Hb' := validBits_bounds _ Hb). unfold inRange in Hv.
  rewrite toUnsigned_nonnegative; lia.
Qed.

Lemma typing_hex : setFromHex st (toHex v (bits st)) = setUnsignedValue st v.
Proof.
  destruct (parse_padded 16 v (ceilDiv (bits st) 4) true ltac:(lia) value_53)
    as [_ H].
  fold (toHex v (bits st)) in H. unfold setFromHex.
  rewrite H. cbn [isFinite]. rewrite store_in_range. reflexivity.
Qed.

Lemma typing_binary :
  setFromBinary st (groupEvery (toBin v (bits st)) 4) = setUnsignedValue st v.
Proof.
  destruct (parse_padded 2 v (bits st) false ltac:(lia) value_53) as [Hs H].
  fold (toBin v (bits st)) in H, Hs. unfold setFromBinary.
  rewrite removeSpaces_groupEvery by lia.
  rewrite (removeSpaces_hex _ Hs), H. cbn [isFinite].
  rewrite store_in_range. reflexivity.
Qed.

Lemma typing_decimal : setFromDecimal st (Fin v) = setUnsignedValue st v.
Proof. unfold setFromDecimal. cbn [isFinite]. rewrite store_in_range. reflexivity. Qed.

End Solving.

(** X8: a challenge can be met and is lost on a width change.  For a width
    in {8,16,32} and a draw [t] of [0, 2^bits - 1]: right after
    [makeChallenge] the challenge is correct exactly when the value already
    is [t]; typing [t] in the hex, the binary or the decimal field, or moving
    the slider to [t], makes it correct; choosing another width afterwards
    makes it incorrect. *)
Theorem challenge_solved (st : State) (t : Z) :
  validBits (bits st) -> 0 <= t < 2 ^ bits st ->
  let st1 := makeChallenge st t in
  (challengeCorrect st1 = true <-> unsignedValue st = t)
  /\ challengeCorrect (setFromHex st1 (toHex t (bits st))) = true
  /\ challengeCorrect (setFromBinary st1 (groupEvery (toBin t (bits st)) 4)) = true
  /\ challengeCorrect (setFromDecimal st1 (Fin t)) = true
  /\ challengeCorrect (setFromSlider st1 t) = true
  /\ (forall w, w <> bits st ->
        challengeCorrect (setBits (setFromSlider st1 t) w) = false).
Proof.
  intros Hb Ht st1.
  assert (Hb1 : validBits (bits st1)) by exact Hb.
  assert (Hv1 : inRange t (bits st1)) by (unfold inRange; cbn; lia).
  assert (Hok : challengeCorrect (setUnsignedValue st1 t) = true).
  { unfold challengeCorrect. cbn. rewrite !Z.eqb_refl. reflexivity. }
  split; [| split; [| split; [| split; [| split]]]].
  - unfold challengeCorrect. cbn. rewrite Z.eqb_refl, andb_true_r.
    apply Z.eqb_eq.
  - change (bits st) with (bits st1). rewrite typing_hex by assumption. exact Hok.
  - change (bits st) with (bits st1). rewrite typing_binary by assumption.
    exact Hok.
  - rewrite typing_decimal by assumption. exact Hok.
  - exact Hok.
  - intros w Hw. unfold setBits. cbn [bits setFromSlider setUnsignedValue st1 makeChallenge].
    destruct (Z.eqb_spec w (bits st)); [contradiction | reflexivity].
Qed.

Lemma challenge_solved_witness :
  let st := mkState 16 65 None in
  validBits (bits st) /\ 0 <= 40000 < 2 ^ bits st
  /\ challengeCorrect (makeChallenge st 40000) = false
  /\ challengeCorrect (setFromHex (makeChallenge st 40000) (lit "9C40")) = true.
Proof.
  cbv zeta.
  assert (Hb : validBits (bits (mkState 16 65 None))) by (right; left; reflexivity).
  assert (Ht : 0 <= 40000 < 2 ^ bits (mkState 16 65 None)) by (cbn; lia).
  destruct (challenge_solved (mkState 16 65 None) 40000 Hb Ht) as (_ & H & _).
  split; [exact Hb | split; [exact Ht | split; [reflexivity | exact H]]].
Defined.

(** ** The printed forms *)

Section Widths.

Variable r : Z.
Hypothesis Hr : 2 <= r <= 16.

Lemma digitsOf_length fuel : forall n acc k,
  0 <= n < r ^ Z.of_nat (S k) ->
  (length (digitsOf (S fuel) r n acc) <= S k + length acc)%nat.
Proof.
  induction fuel as [| f IH]; intros n acc k Hn; cbn [digitsOf];
    destruct (Z.eqb_spec (n / r) 0) as [Hz | Hnz]; cbn [length]; try lia.
  destruct k as [| k].
  - exfalso. apply Hnz. apply Z.div_small. rewrite Z.pow_1_r in Hn. lia.
  - assert (Hq : 0 <= n / r < r ^ Z.of_nat (S k)).
    { rewrite (Nat2Z.inj_succ (S k)), Z.pow_succ_r in Hn by lia.
      split; [apply Z.div_pos; lia | apply Z.div_lt_upper_bound; lia]. }
    specialize (IH (n / r) (digitChar (n mod r) :: acc) k Hq).
    cbn [digitsOf length] in IH. lia.
Qed.

Lemma toStringRadix_length v k :
  0 <= v < r ^ Z.of_nat (S k) ->
  (length (toStringRadix v r) <= S k)%nat.
Proof.
  intros Hv. unfold toStringRadix. destruct (Z.ltb_spec v 0); [lia |].
  assert (Hlen := digitsOf_length (Z.to_nat (Z.log2 v)) v [] k Hv).
  cbn [length] in Hlen. lia.
Qed.

Lemma digitsOf_Forall (P : Z -> Prop) fuel : forall n acc,
  (forall d, 0 <= d < r -> P (digitChar d)) ->
  Forall P acc -> Forall P (digitsOf fuel r n acc).
Proof.
  induction fuel as [| f IH]; intros n acc HP Hacc; [exact Hacc |].
  cbn [digitsOf].
  assert (Hd : Forall P (digitChar (n mod r) :: acc)).
  { constructor; [apply HP, Z.mod_pos_bound; lia | exact Hacc]. }
  destruct (n / r =? 0); [exact Hd | apply IH; assumption].
Qed.

Lemma toStringRadix_Forall (P : Z -> Prop) v :
  0 <= v -> (forall d, 0 <= d < r -> P (digitChar d)) ->
  Forall P (toStringRadix v r).
Proof.
  intros Hv HP. unfold toStringRadix. destruct (Z.ltb_spec v 0); [lia |].
  apply digitsOf_Forall; [exact HP | constructor].
Qed.

End Widths.

Lemma padLeft_length s len :
  (length s <= Z.to_nat len)%nat -> length (padLeft s len) = Z.to_nat len.
Proof.
  intros H. unfold padLeft, padStart. rewrite length_app, repeat_length. lia.
Qed.

Lemma padLeft_Forall (P : Z -> Prop) s len :
  P 48 -> Forall P s -> Forall P (padLeft s len).
Proof.
  intros H0 Hs. unfold padLeft, padStart. apply Forall_app. split; [| exact Hs].
  apply Forall_forall. intros x Hx. apply repeat_spec in Hx. subst x. exact H0.
Qed.

(** X9: the hex and binary forms have a fixed width and a fixed alphabet.
    For a width in {8,16,32} and [v] in range, [toHex v bits] has exactly
    [bits / 4] characters, each one of [0-9A-F], and [toBin v bits] has
    exactly [bits] characters, each one 0 or 1. *)
Theorem toHex_toBin_shape (v b : Z) :
  validBits b -> inRange v b ->
  length (toHex v b) = Z.to_nat (b / 4)
  /\ Forall (fun c => 48 <= c <= 57 \/ 65 <= c <= 70) (toHex v b)
  /\ length (toBin v b) = Z.to_nat b
  /\ Forall (fun c => c = 48 \/ c = 49) (toBin v b).
Proof.
  intros Hb Hv. unfold inRange in Hv.
  assert (Hlen16 : (length (toStringRadix v 16) <= Z.to_nat (b / 4))%nat).
  { destruct Hb as [-> | [-> | ->]].
    - apply (toStringRadix_length 16 ltac:(lia) v 1). cbn in *. lia.
    - apply (toStringRadix_length 16 ltac:(lia) v 3). cbn in *. lia.
    - apply (toStringRadix_length 16 ltac:(lia) v 7). cbn in *. lia. }
  assert (Hlen2 : (length (toStringRadix v 2) <= Z.to_nat b)%nat).
  { destruct Hb as [-> | [-> | ->]].
    - apply (toStringRadix_length 2 ltac:(lia) v 7). cbn in *. lia.
    - apply (toStringRadix_length 2 ltac:(lia) v 15). cbn in *. lia.
    - apply (toStringRadix_length 2 ltac:(lia) v 31). cbn in *. lia. }
  assert (Hceil : ceilDiv b 4 = b / 4)
    by (destruct Hb as [-> | [-> | ->]]; reflexivity).
  split; [| split; [| split]].
  - unfold toHex. rewrite Hceil. apply padLeft_length.
    unfold toUpperCase. rewrite length_map. exact Hlen16.
  - unfold toHex. apply padLeft_Forall; [lia |].
    unfold toUpperCase. apply Forall_map.
    apply (toStringRadix_Forall 16 ltac:(lia)); [lia |].
    intros d Hd. unfold digitChar.
    destruct (Z.ltb_spec d 10); decide_bool; lia.
  - unfold toBin. apply padLeft_length. exact Hlen2.
  - unfold toBin. apply padLeft_Forall; [lia |].
    apply (toStringRadix_Forall 2 ltac:(lia)); [lia |].
    intros d Hd. unfold digitChar.
    destruct (Z.ltb_spec d 10); lia.
Qed.

Lemma toHex_toBin_shape_witness :
  validBits 16 /\ inRange 10 16
  /\ toHex 10 16 = lit "000A" /\ length (toHex 10 16) = 4%nat
  /\ toBin 10 16 = lit "0000000000001010" /\ length (toBin 10 16) = 16%nat.
Proof.
  assert (Hb : validBits 16) by (right; left; reflexivity).
  assert (Hv : inRange 10 16) by (unfold inRange; cbn; lia).
  destruct (toHex_toBin_shape 10 16 Hb Hv) as (H1 & _ & H3 & _).
  split; [exact Hb | split; [exact Hv |]].
  split; [reflexivity | split; [exact H1 | split; [reflexivity | exact H3]]].
Defined.

(** ** The bit buttons *)

Section BitButtons.

Lemma int32_sign_bits x j :
  - 2 ^ 31 <= x < 2 ^ 31 -> 31 <= j -> Z.testbit x j = Z.testbit x 31.
Proof.
  intros Hx Hj. destruct (Z_lt_le_dec x 0).
  - rewrite !Z.bits_above_log2_neg; try reflexivity; try lia;
      (destruct (Z.eq_dec (Z.pred (- x)) 0) as [-> | ?]; [cbn; lia |];
       assert (Z.log2 (Z.pred (- x)) < 31) by (apply Z.log2_lt_pow2; lia); lia).
  - destruct (Z.eq_dec x 0) as [-> | ?]; [rewrite !Z.bits_0; reflexivity |].
    assert (Z.log2 x < 31) by (apply Z.log2_lt_pow2; lia).
    rewrite !Z.bits_above_log2; try reflexivity; lia.
Qed.

Lemma mask_bits k j :
  0 <= k <= 31 -> 0 <= j ->
  Z.testbit (toInt32 (2 ^ k)) j = if k =? 31 then 31 <=? j else k =? j.
Proof.
  intros Hk Hj. destruct (Z.eqb_spec k 31) as [-> | Hne].
  - change (toInt32 (2 ^ 31)) with (Z.lnot (Z.ones 31)).
    rewrite Z.lnot_spec, Z.testbit_ones_nonneg by lia.
    destruct (Z.ltb_spec j 31), (Z.leb_spec 31 j); try reflexivity; lia.
  - rewrite toInt32_small.
    + apply Z.pow2_bits_eqb. lia.
    + assert (0 < 2 ^ k) by (apply pow2_pos; lia).
      assert (2 ^ k < 2 ^ 31) by (apply Z.pow_lt_mono_r; lia). lia.
Qed.

Lemma land_mask_zero x k :
  - 2 ^ 31 <= x < 2 ^ 31 -> 0 <= k <= 31 ->
  (Z.land x (toInt32 (2 ^ k)) =? 0) = negb (Z.testbit x k).
Proof.
  intros Hx Hk.
  assert (Hkk : Z.testbit (toInt32 (2 ^ k)) k = true).
  { rewrite mask_bits by lia.
    destruct (Z.eqb_spec k 31) as [-> | _]; [reflexivity | apply Z.eqb_refl]. }
  destruct (Z.testbit x k) eqn:E; cbn [negb].
  - apply Z.eqb_neq. intros H0.
    assert (Hbit : Z.testbit (Z.land x (toInt32 (2 ^ k))) k = true)
      by (rewrite Z.land_spec, E, Hkk; reflexivity).
    rewrite H0, Z.bits_0 in Hbit. discriminate.
  - apply Z.eqb_eq. apply Z.bits_inj'. intros j Hj.
    rewrite Z.land_spec, Z.bits_0, mask_bits by lia.
    destruct (Z.eqb_spec k 31) as [-> | _].
    + destruct (Z.leb_spec 31 j); [| apply andb_false_r].
      rewrite int32_sign_bits, E by lia. reflexivity.
    + destruct (Z.eqb_spec k j) as [<- | _]; [| apply andb_false_r].
      rewrite E. reflexivity.
Qed.

Lemma bitOn_testbit st i :
  validBits (bits st) -> 0 <= i < bits st ->
  bitOn st i = Z.testbit (unsignedValue st) (bits st - 1 - i).
Proof.
  intros Hb Hi. assert (Hb' := validBits_bounds _ Hb).
  unfold bitOn, bitIndex, band.
  rewrite (toggle_mask (bits st) i Hb) by lia.
  rewrite (toInt32_small (toInt32 _)) by apply toInt32_range.
  rewrite land_mask_zero by (try apply toInt32_range; lia).
  rewrite negb_involutive. apply toInt32_testbit. lia.
Qed.

End BitButtons.

(** X10: the bit buttons show the bits of the value.  For a width in
    {8,16,32}, a value in range and a button [i] of [0, bits - 1]: the button
    is lit exactly when bit [bits - 1 - i] of the value is set; clicking it
    inverts that button and leaves every other button as it was. *)
Theorem bit_buttons (st : State) (i : Z) :
  validBits (bits st) -> inRange (unsignedValue st) (bits st) ->
  0 <= i < bits st ->
  bitOn st i = Z.testbit (unsignedValue st) (bits st - 1 - i)
  /\ bitOn (toggleBit st i) i = negb (bitOn st i)
  /\ (forall j, 0 <= j < bits st -> j <> i ->
        bitOn (toggleBit st j) i = bitOn st i).
Proof.
  intros Hb Hv Hi.
  assert (Hb' := validBits_bounds _ Hb).
  assert (Hval : forall j, 0 <= j < bits st ->
            unsignedValue (toggleBit st j)
            = Z.lxor (unsignedValue st) (2 ^ (bits st - 1 - j))).
  { intros j Hj. destruct st as [b v ch]. cbn [bits unsignedValue] in *.
    apply toggle_value; [assumption | assumption | lia]. }
  assert (Hon : forall j, 0 <= j < bits st ->
            bitOn (toggleBit st j) i
            = xorb (bitOn st i) (bits st - 1 - j =? bits st - 1 - i)).
  { intros j Hj.
    rewrite (bitOn_testbit (toggleBit st j)) by assumption.
    change (bits (toggleBit st j)) with (bits st).
    rewrite Hval, Z.lxor_spec, Z.pow2_bits_eqb by lia.
    rewrite bitOn_testbit by assumption. reflexivity. }
  split; [apply bitOn_testbit; assumption | split].
  - rewrite Hon, Z.eqb_refl by assumption. apply xorb_true_r.
  - intros j Hj Hne. rewrite Hon by assumption.
    replace (bits st - 1 - j =? bits st - 1 - i) with false
      by (symmetry; apply Z.eqb_neq; lia).
    apply xorb_false_r.
Qed.

Lemma bit_buttons_witness :
  let st := mkState 32 2147483653 None in
  validBits (bits st) /\ inRange (unsignedValue st) (bits st) /\ 0 <= 0 < bits st
  /\ bitOn st 0 = true /\ bitOn (toggleBit st 0) 0 = false.
Proof.
  cbv zeta.
  assert (Hb : validBits (bits (mkState 32 2147483653 None)))
    by (right; right; reflexivity).
  assert (Hv : inRange 2147483653 32) by (unfold inRange; cbn; lia).
  assert (Hi : 0 <= 0 < bits (mkState 32 2147483653 None)) by (cbn; lia).
  destruct (bit_buttons (mkState 32 2147483653 None) 0 Hb Hv Hi) as (_ & H & _).
  split; [exact Hb | split; [exact Hv | split; [exact Hi |]]].
  split; [reflexivity | exact H].
Defined.

(** X11: the weight printed on a bit button is [2^(bits - 1 - i)], except on
    the top button at width 32, where [1 << 31] is the negative number
    [-2^31]. *)
Theorem bit_weight (st : State) (i : Z) :
  validBits (bits st) -> 0 <= i < bits st ->
  bitWeight st i
  = if bits st - 1 - i =? 31 then - 2 ^ 31 else 2 ^ (bits st - 1 - i).
Proof.
  intros Hb Hi. assert (Hb' := validBits_bounds _ Hb).
  unfold bitWeight, bitIndex.
  rewrite (toggle_mask (bits st) i Hb) by lia.
  destruct (Z.eqb_spec (bits st - 1 - i) 31) as [-> | Hne]; [reflexivity |].
  apply toInt32_small.
  assert (0 < 2 ^ (bits st - 1 - i)) by (apply pow2_pos; lia).
  assert (2 ^ (bits st - 1 - i) < 2 ^ 31) by (apply Z.pow_lt_mono_r; lia). lia.
Qed.

Lemma bit_weight_witness :
  let st := mkState 32 65 None in
  validBits (bits st) /\ 0 <= 0 < bits st
  /\ bitWeight st 0 = -2147483648 /\ bitWeight st 1 = 1073741824.
Proof.
  cbv zeta.
  assert (Hb : validBits (bits (mkState 32 65 None))) by (right; right; reflexivity).
  assert (Hi : 0 <= 0 < bits (mkState 32 65 None)) by (cbn; lia).
  split; [exact Hb | split; [exact Hi | split; [| reflexivity]]].
  exact (bit_weight (mkState 32 65 None) 0 Hb Hi).
Defined.

(* ================================================================== *)
(** * Further properties of the text tab *)

(** ** Shape of the UTF-8 bytes *)

(** X12: the bytes of one scalar value.  A scalar value is encoded in 1, 2,
    3 or 4 bytes according to whether it is at most 0x7F, 0x7FF, 0xFFFF or
    above; the first byte lies in [0x00, 0x7F] or [0xC2, 0xF4], every
    following byte in [0x80, 0xBF]. *)
Theorem utf8_scalar_shape (c : Z) :
  isScalarValue c = true ->
  length (utf8EncodeScalar c)
  = (if c <=? 0x7F then 1%nat else if c <=? 0x7FF then 2%nat
     else if c <=? 0xFFFF then 3%nat else 4%nat)
  /\ exists b rest,
       utf8EncodeScalar c = b :: rest
       /\ (0 <= b <= 0x7F \/ 0xC2 <= b <= 0xF4)
       /\ Forall (fun x => 0x80 <= x <= 0xBF) rest.
Proof.
  intros Hc. apply isScalarValue_spec in Hc.
  destruct (Z.leb_spec c 0x7F) as [H1 | H1].
  { rewrite encode1 by assumption. split; [reflexivity |].
    exists c, []. split; [reflexivity | split; [lia | constructor]]. }
  destruct (Z.leb_spec c 0x7FF) as [H2 | H2].
  { rewrite encode2 by lia. split; [reflexivity |].
    eexists _, _. split; [reflexivity |].
    split; [right; div_arith | repeat constructor; div_arith]. }
  destruct (Z.leb_spec c 0xFFFF) as [H3 | H3].
  { rewrite encode3 by lia. split; [reflexivity |].
    eexists _, _. split; [reflexivity |].
    split; [right; div_arith | repeat constructor; div_arith]. }
  rewrite encode4 by lia. split; [reflexivity |].
  eexists _, _. split; [reflexivity |].
  split; [right; div_arith | repeat constructor; div_arith].
Qed.

Lemma utf8_scalar_shape_witness :
  isScalarValue 0x20AC = true
  /\ utf8EncodeScalar 0x20AC = [0xE2; 0x82; 0xAC]
  /\ length (utf8EncodeScalar 0x20AC) = 3%nat.
Proof.
  assert (H : isScalarValue 0x20AC = true) by reflexivity.
  split; [exact H | split; [reflexivity |]].
  exact (proj1 (utf8_scalar_shape 0x20AC H)).
Defined.

Section AnyString.

Lemma toScalarValues_cons1 u :
  toScalarValues [u] = [if isSurrogate u then 0xFFFD else u].
Proof. reflexivity. Qed.

Lemma lead_is_surrogate u : isLeadSurrogate u = true -> isSurrogate u = true.
Proof.
  unfold isLeadSurrogate, isSurrogate.
  rewrite !andb_true_iff, !Z.leb_le. lia.
Qed.

Lemma replaced_unit_scalar u :
  isCodeUnit u = true ->
  let c := if isSurrogate u then 0xFFFD else u in
  isScalarValue c = true /\ 0 <= c <= 0xFFFF.
Proof.
  intros Hu c. subst c. destruct (isSurrogate u) eqn:E.
  - split; [reflexivity | lia].
  - destruct (unit_scalar u Hu E) as [Hs _]. split; [exact Hs |].
    unfold isCodeUnit in Hu. apply andb_true_iff in Hu as [H0 H1].
    apply Z.leb_le in H0, H1. lia.
Qed.

(** Whatever the string, its scalar values are scalar values. *)
Lemma toScalarValues_scalars s :
  Forall (fun u => isCodeUnit u = true) s ->
  Forall (fun c => isScalarValue c = true) (toScalarValues s).
Proof.
  induction s as [| u | u v t IHt IHvt] using list_pair_ind; intros Hu.
  - constructor.
  - rewrite toScalarValues_cons1. constructor; [| constructor].
    apply (replaced_unit_scalar u (Forall_inv Hu)).
  - rewrite toScalarValues_cons2.
    assert (Hu' := Forall_inv_tail Hu).
    destruct (isLeadSurrogate u && isTrailSurrogate v) eqn:E.
    + apply andb_true_iff in E as [E1 E2].
      constructor; [apply (surrogatePair_units u v E1 E2) |].
      apply IHt, (Forall_inv_tail Hu').
    + constructor; [apply (replaced_unit_scalar u (Forall_inv Hu)) |].
      apply IHvt, Hu'.
Qed.

Lemma bmp_bytes c :
  isScalarValue c = true -> 0 <= c <= 0xFFFF ->
  (1 <= length (utf8EncodeScalar c) <= 3)%nat.
Proof.
  intros Hs Hc.
  destruct (Z_le_gt_dec c 0x7F); [rewrite encode1 by lia; cbn; lia |].
  destruct (Z_le_gt_dec c 0x7FF); [rewrite encode2 by lia; cbn; lia |].
  rewrite encode3 by lia. cbn. lia.
Qed.

Lemma utf8Bytes_length_bounds s :
  Forall (fun u => isCodeUnit u = true) s ->
  (length s <= length (TextEncoder_encode s) <= 3 * length s)%nat.
Proof.
  unfold TextEncoder_encode.
  induction s as [| u | u v t IHt IHvt] using list_pair_ind; intros Hu.
  - cbn. lia.
  - rewrite toScalarValues_cons1. cbn [flat_map]. rewrite app_nil_r.
    destruct (replaced_unit_scalar u (Forall_inv Hu)) as [Hs Hr].
    assert (H := bmp_bytes _ Hs Hr). cbn [length]. lia.
  - rewrite toScalarValues_cons2.
    assert (Hu' := Forall_inv_tail Hu).
    destruct (isLeadSurrogate u && isTrailSurrogate v) eqn:E.
    + apply andb_true_iff in E as [E1 E2].
      destruct (surrogatePair_units u v E1 E2) as [Hs _].
      cbn [flat_map]. rewrite length_app.
      specialize (IHt (Forall_inv_tail Hu')).
      assert (Hlen : length (utf8EncodeScalar (surrogatePair u v)) = 4%nat).
      { rewrite encode4; [reflexivity |].
        unfold isLeadSurrogate, isTrailSurrogate in *.
        apply andb_true_iff in E1 as [? ?]. apply andb_true_iff in E2 as [? ?].
        unfold surrogatePair. lia. }
      cbn [length]. lia.
    + cbn [flat_map]. rewrite length_app.
      destruct (replaced_unit_scalar u (Forall_inv Hu)) as [Hs Hr].
      assert (H := bmp_bytes _ Hs Hr).
      specialize (IHvt Hu'). cbn [length] in *. lia.
Qed.

Lemma wellFormed_scalar c rest :
  isScalarValue c = true ->
  isWellFormed (codeUnitsOf c ++ rest) = isWellFormed rest.
Proof.
  intros Hc. unfold codeUnitsOf.
  destruct (Z.ltb_spec c 0x10000) as [Hlt | Hge].
  - cbn [app isWellFormed].
    rewrite (scalar_not_lead c Hc), (scalar_not_surrogate c Hc). cbn [andb negb].
    destruct rest; reflexivity.
  - apply isScalarValue_spec in Hc.
    destruct (supplementary_units c ltac:(lia)) as (Hhi & Hlo & _).
    cbn [app isWellFormed]. rewrite Hhi, Hlo. reflexivity.
Qed.

Lemma fromCodePoints_wellFormed l :
  Forall (fun c => isScalarValue c = true) l ->
  isWellFormed (fromCodePoints l) = true
  /\ Forall (fun u => isCodeUnit u = true) (fromCodePoints l).
Proof.
  induction 1 as [| c l Hc _ [IH1 IH2]]; [split; [reflexivity | constructor] |].
  cbn [fromCodePoints flat_map]. split.
  - rewrite wellFormed_scalar by assumption. exact IH1.
  - apply Forall_app. split; [| exact IH2].
    unfold codeUnitsOf. apply isScalarValue_spec in Hc.
    destruct (Z.ltb_spec c 0x10000).
    + repeat constructor. unfold isCodeUnit. decide_bool. reflexivity.
    + repeat constructor; unfold isCodeUnit;
        apply andb_true_iff; split; apply Z.leb_le; div_arith.
Qed.

Lemma dropBOM_scalars l :
  Forall (fun c => isScalarValue c = true) l ->
  Forall (fun c => isScalarValue c = true) (dropBOM false l).
Proof.
  intros H. destruct H as [| c l Hc Hl]; [constructor |].
  cbn [dropBOM]. destruct (c =? 0xFEFF); [exact Hl | constructor; assumption].
Qed.

End AnyString.

(** X13: the UTF-8 form of a string of [n] code units has between [n] and
    [3 n] bytes. *)
Theorem utf8Bytes_length (s : jsstring) :
  Forall (fun u => isCodeUnit u = true) s ->
  (length s <= length (utf8Bytes (Some s)) <= 3 * length s)%nat.
Proof. intros H. apply utf8Bytes_length_bounds, H. Qed.

Lemma utf8Bytes_length_witness :
  let s := [0x48; 0x20AC; 0xD83D; 0xDC4B] in
  Forall (fun u => isCodeUnit u = true) s
  /\ length (utf8Bytes (Some s)) = 8%nat
  /\ (length s <= length (utf8Bytes (Some s)) <= 3 * length s)%nat.
Proof.
  cbv zeta.
  assert (H : Forall (fun u => isCodeUnit u = true) [0x48; 0x20AC; 0xD83D; 0xDC4B])
    by (repeat constructor).
  split; [exact H | split; [reflexivity |]].
  exact (utf8Bytes_length _ H).
Defined.

(** X14: encoding then decoding any string.  Whatever the string, lone
    surrogates included, decoding its UTF-8 bytes gives the string of its
    scalar values (each unpaired surrogate replaced by U+FFFD) without a
    leading U+FEFF; the result is well-formed, so a string with an unpaired
    surrogate never comes back as it was. *)
Theorem utf8_roundtrip_any (s : jsstring) :
  Forall (fun u => isCodeUnit u = true) s ->
  decodeUtf8 (utf8Bytes (Some s))
  = Some (fromCodePoints (dropBOM false (toScalarValues s)))
  /\ isWellFormed (fromCodePoints (dropBOM false (toScalarValues s))) = true
  /\ (isWellFormed s = false -> decodeUtf8 (utf8Bytes (Some s)) <> Some s).
Proof.
  intros Hu.
  assert (Hsc := toScalarValues_scalars s Hu).
  assert (Hdec : decodeUtf8 (utf8Bytes (Some s))
                 = Some (fromCodePoints (dropBOM false (toScalarValues s)))).
  { unfold decodeUtf8, utf8Bytes, orEmpty, TextDecoder_decode, TextEncoder_encode.
    rewrite utf8Run_encode by assumption. reflexivity. }
  assert (Hwf := proj1 (fromCodePoints_wellFormed _ (dropBOM_scalars _ Hsc))).
  split; [exact Hdec | split; [exact Hwf |]].
  intros Hill Heq. congruence.
Qed.

Lemma utf8_roundtrip_any_witness :
  Forall (fun u => isCodeUnit u = true) [0x41; 0xD800; 0x42]
  /\ isWellFormed [0x41; 0xD800; 0x42] = false
  /\ utf8Bytes (Some [0x41; 0xD800; 0x42]) = [0x41; 0xEF; 0xBF; 0xBD; 0x42]
  /\ decodeUtf8 (utf8Bytes (Some [0x41; 0xD800; 0x42])) = Some [0x41; 0xFFFD; 0x42].
Proof.
  assert (H : Forall (fun u => isCodeUnit u = true) [0x41; 0xD800; 0x42])
    by (repeat constructor).
  split; [exact H | split; [reflexivity | split; [reflexivity |]]].
  exact (proj1 (utf8_roundtrip_any _ H)).
Defined.

(** ** ASCII text, and the code points of any string *)

Section Ascii.

Lemma ascii_scalars s :
  Forall (fun u => 0 <= u <= 0x7F) s ->
  Forall (fun c => isScalarValue c = true) s.
Proof.
  intros Hs. eapply Forall_impl; [| exact Hs].
  intros u Hu. cbv beta in Hu. apply isScalarValue_spec. lia.
Qed.

Lemma ascii_fromCodePoints s :
  Forall (fun u => 0 <= u <= 0x7F) s -> fromCodePoints s = s.
Proof.
  induction 1 as [| u t Hu _ IH]; [reflexivity |].
  cbn [fromCodePoints flat_map]. fold (fromCodePoints t). rewrite IH.
  unfold codeUnitsOf. destruct (Z.ltb_spec u 0x10000); [reflexivity | lia].
Qed.

Lemma ascii_encode s :
  Forall (fun u => 0 <= u <= 0x7F) s -> flat_map utf8EncodeScalar s = s.
Proof.
  induction 1 as [| u t Hu _ IH]; [reflexivity |].
  cbn [flat_map]. rewrite IH, encode1 by lia. reflexivity.
Qed.

End Ascii.

(** X15: ASCII text is its own encoding.  For a string whose code units
    are all at most 0x7F, the UTF-8 bytes, the code points and the code units
    are the same numbers, the decoder maps these bytes back to the string,
    and the character count is the length. *)
Theorem ascii_text (s : jsstring) :
  Forall (fun u => 0 <= u <= 0x7F) s ->
  utf8Bytes (Some s) = s
  /\ codePoints (Some s) = map Some s
  /\ decodeUtf8 s = Some s
  /\ characterCount (Some s) = length s.
Proof.
  intros Hs.
  assert (Hsc := ascii_scalars s Hs).
  assert (Hfrom := ascii_fromCodePoints s Hs).
  assert (Henc := ascii_encode s Hs).
  assert (Hcp : codePoints (Some s) = map Some s).
  { rewrite <- Hfrom at 1. apply codePoints_fromCodePoints, Hsc. }
  split; [| split; [exact Hcp | split]].
  - unfold utf8Bytes, orEmpty, TextEncoder_encode.
    rewrite <- Hfrom at 1.
    rewrite toScalarValues_fromCodePoints by assumption. exact Henc.
  - unfold decodeUtf8, TextDecoder_decode. rewrite <- Henc at 1.
    rewrite utf8Run_encode by assumption. cbn [option_map]. f_equal.
    rewrite dropBOM_fromCodePoints, Hfrom by assumption.
    destruct Hs as [| u t Hu _]; [reflexivity |]. cbn [dropBOM].
    replace (u =? 0xFEFF) with false by (symmetry; apply Z.eqb_neq; lia).
    reflexivity.
  - unfold characterCount. unfold codePoints in Hcp.
    rewrite <- (length_map codePointAt0), Hcp. apply length_map.
Qed.

Lemma ascii_text_witness :
  Forall (fun u => 0 <= u <= 0x7F) (lit "Hello")
  /\ utf8Bytes (Some (lit "Hello")) = [0x48; 0x65; 0x6C; 0x6C; 0x6F]
  /\ decodeUtf8 [0x48; 0x65; 0x6C; 0x6C; 0x6F] = Some (lit "Hello").
Proof.
  assert (H : Forall (fun u => 0 <= u <= 0x7F) (lit "Hello"))
    by (repeat constructor; cbn; lia).
  destruct (ascii_text (lit "Hello") H) as (H1 & _ & H3 & _).
  split; [exact H | split; [exact H1 | exact H3]].
Defined.

Section AnyCodePoints.

Lemma stringIterator_cons2 u v t :
  stringIterator (u :: v :: t)
  = if isLeadSurrogate u && isTrailSurrogate v
    then [u; v] :: stringIterator t
    else [u] :: stringIterator (v :: t).
Proof. reflexivity. Qed.

Lemma unit_bounds u : isCodeUnit u = true -> 0 <= u <= 0xFFFF.
Proof.
  unfold isCodeUnit. rewrite andb_true_iff, !Z.leb_le. trivial.
Qed.

Lemma codePoints_any_string s :
  Forall (fun u => isCodeUnit u = true) s ->
  exists l,
    map codePointAt0 (stringIterator s) = map Some l
    /\ fromCodePoints l = s
    /\ Forall (fun c => 0 <= c <= 0x10FFFF) l
    /\ (length l <= length s <= 2 * length l)%nat.
Proof.
  induction s as [| u | u v t IHt IHvt] using list_pair_ind; intros Hu.
  - exists []. repeat split; try constructor; reflexivity.
  - assert (Hb := unit_bounds u (Forall_inv Hu)).
    exists [u]. split; [reflexivity | split; [| split]].
    + cbn. unfold codeUnitsOf. destruct (Z.ltb_spec u 0x10000); [reflexivity | lia].
    + repeat constructor; lia.
    + cbn. lia.
  - assert (Hu' := Forall_inv_tail Hu).
    assert (Hb := unit_bounds u (Forall_inv Hu)).
    rewrite stringIterator_cons2.
    destruct (isLeadSurrogate u && isTrailSurrogate v) eqn:E.
    + destruct (IHt (Forall_inv_tail Hu')) as (l & H1 & H2 & H3 & H4).
      apply andb_true_iff in E as [E1 E2].
      destruct (surrogatePair_units u v E1 E2) as [Hs Hc].
      exists (surrogatePair u v :: l).
      split; [| split; [| split]].
      * cbn [map codePointAt0]. rewrite E1, E2. cbn [andb]. f_equal. exact H1.
      * cbn [fromCodePoints flat_map]. fold (fromCodePoints l).
        rewrite Hc, H2. reflexivity.
      * constructor; [| exact H3]. apply isScalarValue_spec in Hs. lia.
      * cbn [length]. lia.
    + destruct (IHvt Hu') as (l & H1 & H2 & H3 & H4).
      exists (u :: l).
      split; [| split; [| split]].
      * cbn [map codePointAt0]. f_equal. exact H1.
      * cbn [fromCodePoints flat_map]. fold (fromCodePoints l). rewrite H2.
        unfold codeUnitsOf. destruct (Z.ltb_spec u 0x10000); [reflexivity | lia].
      * constructor; [lia | exact H3].
      * cbn [length] in *. lia.
Qed.

End AnyCodePoints.

(** X16: the code points of any string.  Whatever the string, lone
    surrogates included, [codePoints] yields numbers of [0, 0x10FFFF], never
    [undefined]; turning each back into its code units gives the string
    again; and the character count is their number, between half the length
    of the string and its length. *)
Theorem codePoints_any (s : jsstring) :
  Forall (fun u => isCodeUnit u = true) s ->
  exists l,
    codePoints (Some s) = map Some l
    /\ fromCodePoints l = s
    /\ Forall (fun c => 0 <= c <= 0x10FFFF) l
    /\ characterCount (Some s) = length l
    /\ (length l <= length s <= 2 * length l)%nat.
Proof.
  intros Hu. destruct (codePoints_any_string s Hu) as (l & H1 & H2 & H3 & H4).
  exists l. unfold codePoints, characterCount, orEmpty.
  split; [exact H1 | split; [exact H2 | split; [exact H3 | split; [| exact H4]]]].
  rewrite <- (length_map codePointAt0), H1. apply length_map.
Qed.

Lemma codePoints_any_witness :
  let s := [0xDC00; 0xD83D; 0xDC4B; 0xD800] in
  Forall (fun u => isCodeUnit u = true) s
  /\ codePoints (Some s) = [Some 0xDC00; Some 0x1F44B; Some 0xD800]
  /\ characterCount (Some s) = 3%nat
  /\ exists l, codePoints (Some s) = map Some l /\ fromCodePoints l = s.
Proof.
  cbv zeta.
  assert (H : Forall (fun u => isCodeUnit u = true) [0xDC00; 0xD83D; 0xDC4B; 0xD800])
    by (repeat constructor).
  split; [exact H | split; [reflexivity | split; [reflexivity |]]].
  destruct (codePoints_any _ H) as (l & H1 & H2 & _).
  exists l. split; assumption.
Defined.

(* ================================================================== *)
(** * Further properties of the decoder tool *)

(** ** Malformed bytes show as U+FFFD *)

Section FatalOrNot.

Lemma option_map_cons_some (c : Z) (o : option (list Z)) l :
  option_map (cons c) o = Some l -> exists l', o = Some l' /\ l = c :: l'.
Proof. destruct o as [l' |]; [intros [= <-]; eauto | discriminate]. Qed.

Lemma option_map_cons_none (c : Z) (o : option (list Z)) :
  option_map (cons c) o = None -> o = None.
Proof. destruct o; [discriminate | reflexivity]. Qed.

(** Where a fatal decoder succeeds, the replacing decoder gives the same. *)
Lemma utf8Run_fatal_some bytes : forall d l,
  utf8Run true d bytes = Some l -> utf8Run false d bytes = Some l.
Proof.
  induction bytes as [| b t IH]; intros d l; cbn [utf8Run].
  - destruct (utf8Handler d None); cbn [onError]; trivial; discriminate.
  - destruct (utf8Handler d (Some b)) as [| d' | c d' | d' [|]];
      cbn [onError]; trivial; try discriminate.
    + apply IH.
    + intros H. apply option_map_cons_some in H as (l' & H & ->).
      rewrite (IH _ _ H). reflexivity.
Qed.

(** Where a fatal decoder throws, the replacing decoder emits U+FFFD. *)
Lemma utf8Run_fatal_none bytes : forall d,
  utf8Run true d bytes = None ->
  exists l, utf8Run false d bytes = Some l /\ In 0xFFFD l.
Proof.
  induction bytes as [| b t IH]; intros d Hnone.
  - cbn [utf8Run] in *.
    destruct (utf8Handler d None); try discriminate.
    exists [0xFFFD]. split; [reflexivity | left; reflexivity].
  - assert (Htot := utf8Run_total (b :: t) d).
    destruct (utf8Run false d (b :: t)) as [l |] eqn:Hrun; [| congruence].
    exists l. split; [reflexivity |].
    cbn [utf8Run] in Hnone, Hrun.
    destruct (utf8Handler d (Some b)) as [| d' | c d' | d' r].
    + discriminate.
    + destruct (IH d' Hnone) as (l' & Hl' & Hin). congruence.
    + apply option_map_cons_none in Hnone.
      destruct (IH d' Hnone) as (l' & Hl' & Hin).
      rewrite Hl' in Hrun. injection Hrun as <-. right. exact Hin.
    + assert (Hhead : exists l', l = 0xFFFD :: l').
      { destruct r; cbn [onError] in Hrun;
          apply option_map_cons_some in Hrun as (l' & _ & ->); eauto. }
      destruct Hhead as (l' & ->). left. reflexivity.
Qed.

Lemma In_fromCodePoints_FFFD l :
  In 0xFFFD l -> In 0xFFFD (fromCodePoints (dropBOM false l)).
Proof.
  intros Hin.
  assert (Hdrop : In 0xFFFD (dropBOM false l)).
  { destruct l as [| c t]; [exact Hin |]. cbn [dropBOM].
    destruct (Z.eqb_spec c 0xFEFF) as [-> | _]; [| exact Hin].
    destruct Hin as [H | H]; [discriminate H | exact H]. }
  unfold fromCodePoints. apply in_flat_map.
  exists 0xFFFD. split; [exact Hdrop | left; reflexivity].
Qed.

End FatalOrNot.

(** X17: what the tool shows for malformed bytes.  When the bytes read
    from the hex input are well-formed UTF-8 (a fatal decoder accepts them),
    the tool shows the text they encode; when they are not (a fatal decoder
    throws), the decoded text contains U+FFFD. *)
Theorem malformed_shows_replacement (hexInput : jsstring) :
  (forall s, TextDecoder_decode true false (hexInputBytes hexInput) = Some s ->
     decoded (DecoderTool hexInput) = s)
  /\ (TextDecoder_decode true false (hexInputBytes hexInput) = None ->
      In 0xFFFD (decoded (DecoderTool hexInput))).
Proof.
  unfold DecoderTool, TextDecoder_decode.
  set (bytes := hexInputBytes hexInput). split.
  - intros s Hs.
    destruct (utf8Run true utf8Initial bytes) as [l |] eqn:E; [| discriminate].
    rewrite (utf8Run_fatal_some _ _ _ E). cbn in *. congruence.
  - intros Hnone.
    destruct (utf8Run true utf8Initial bytes) as [l |] eqn:E; [discriminate |].
    destruct (utf8Run_fatal_none _ _ E) as (l & Hl & Hin).
    rewrite Hl. cbn [option_map decoded]. apply In_fromCodePoints_FFFD, Hin.
Qed.

Lemma malformed_shows_replacement_witness :
  TextDecoder_decode true false (hexInputBytes (lit "48 C3 28")) = None
  /\ decoded (DecoderTool (lit "48 C3 28")) = [0x48; 0xFFFD; 0x28]
  /\ In 0xFFFD (decoded (DecoderTool (lit "48 C3 28"))).
Proof.
  assert (H : TextDecoder_decode true false (hexInputBytes (lit "48 C3 28")) = None)
    by reflexivity.
  split; [exact H | split; [reflexivity |]].
  exact (proj2 (malformed_shows_replacement (lit "48 C3 28")) H).
Defined.

(** ** The decoded text is always well-formed *)

Section DecoderInvariant.

Lemma handler_initial_other b :
  ~ (0 <= b <= 0x7F) -> ~ (0xC2 <= b <= 0xDF) ->
  ~ (0xE0 <= b <= 0xEF) -> ~ (0xF0 <= b <= 0xF4) ->
  utf8Handler utf8Initial (Some b) = DecodeError utf8Initial false.
Proof.
  intros H1 H2 H3 H4. unfold utf8Handler, utf8Initial.
  cbn [bytes_needed bytes_seen lower_boundary upper_boundary code_point].
  change (0 =? 0) with true. cbv iota.
  destruct (Z.leb_spec 0 b), (Z.leb_spec b 127); cbn [andb]; try lia;
    destruct (Z.leb_spec 194 b), (Z.leb_spec b 223); cbn [andb]; try lia;
    destruct (Z.leb_spec 224 b), (Z.leb_spec b 239); cbn [andb]; try lia;
    destruct (Z.leb_spec 240 b), (Z.leb_spec b 244); cbn [andb]; try lia;
    reflexivity.
Qed.

Lemma handler_out_of_range d b :
  bytes_needed d <> 0 ->
  ~ (lower_boundary d <= b <= upper_boundary d) ->
  utf8Handler d (Some b) = DecodeError utf8Initial true.
Proof.
  intros Hn Hb. unfold utf8Handler.
  replace (bytes_needed d =? 0) with false by (symmetry; apply Z.eqb_neq; lia).
  destruct (Z.leb_spec (lower_boundary d) b), (Z.leb_spec b (upper_boundary d));
    cbn [andb negb]; try reflexivity; lia.
Qed.

Lemma initial_ok : decoderOk utf8Initial.
Proof. left. reflexivity. Qed.

Lemma handler_ok_initial b : resultOk (utf8Handler utf8Initial (Some b)).
Proof.
  destruct (Z_le_dec 0 b) as [Ha | Ha]; [destruct (Z_le_dec b 0x7F) as [Ha' | Ha'] |].
  - rewrite handler_ascii by lia. split; [| exact initial_ok].
    apply isScalarValue_spec. lia.
  - destruct (Z_le_dec 0xC2 b) as [Hb | Hb];
      [destruct (Z_le_dec b 0xDF) as [Hb' | Hb'] |].
    + rewrite handler_lead2 by lia. right; left. cbn.
      repeat split; try reflexivity; div_arith.
    + destruct (Z_le_dec 0xE0 b) as [Hc | Hc]; [| lia].
      destruct (Z_le_dec b 0xEF) as [Hc' | Hc'].
      * rewrite handler_lead3 by lia. right; right; left. cbn - [Z.eqb].
        repeat split; try reflexivity; try div_arith.
        -- destruct (Z.eqb_spec b 224), (Z.eqb_spec (b mod 16) 0);
             try reflexivity; div_arith.
        -- destruct (Z.eqb_spec b 237), (Z.eqb_spec (b mod 16) 13);
             try reflexivity; div_arith.
      * destruct (Z_le_dec 0xF0 b) as [Hd | Hd]; [| lia].
        destruct (Z_le_dec b 0xF4) as [Hd' | Hd'].
        -- rewrite handler_lead4 by lia. do 4 right; left. cbn - [Z.eqb].
           repeat split; try reflexivity; try div_arith.
           ++ destruct (Z.eqb_spec b 240), (Z.eqb_spec (b mod 8) 0);
                try reflexivity; div_arith.
           ++ destruct (Z.eqb_spec b 244), (Z.eqb_spec (b mod 8) 4);
                try reflexivity; div_arith.
        -- rewrite handler_initial_other by lia. exact initial_ok.
    + rewrite handler_initial_other by lia. exact initial_ok.
  - rewrite handler_initial_other by lia. exact initial_ok.
Qed.

Lemma handler_ok d b : decoderOk d -> resultOk (utf8Handler d (Some b)).
Proof.
  intros [-> | Hd]; [apply handler_ok_initial |].
  assert (Hn : bytes_needed d <> 0) by (unfold decoderOk in Hd; cbv zeta in Hd; lia).
  destruct (Z_le_dec (lower_boundary d) b) as [Hlo | Hlo];
    [destruct (Z_le_dec b (upper_boundary d)) as [Hhi | Hhi] |];
    try (rewrite handler_out_of_range by lia; exact initial_ok).
  rewrite handler_continuation by lia.
  destruct d as [cp seen needed lo hi].
  cbn [code_point bytes_seen bytes_needed lower_boundary upper_boundary] in *.
  destruct Hd as [Hd | [Hd | [Hd | [Hd | [Hd | Hd]]]]];
    destruct Hd as (-> & -> & Hcp & -> & ->).
  - cbn. split; [| exact initial_ok]. apply isScalarValue_spec. div_arith.
  - cbn - [Z.eqb]. right; right; right; left. cbn - [Z.eqb].
    repeat split; try reflexivity.
    destruct (Z.eqb_spec cp 0), (Z.eqb_spec cp 13); div_arith.
  - cbn. split; [| exact initial_ok]. apply isScalarValue_spec. div_arith.
  - cbn - [Z.eqb]. do 5 right; left. cbn - [Z.eqb].
    repeat split; try reflexivity;
      destruct (Z.eqb_spec cp 0), (Z.eqb_spec cp 4); div_arith.
  - cbn. do 6 right. cbn. repeat split; try reflexivity; div_arith.
  - cbn. split; [| exact initial_ok]. apply isScalarValue_spec. div_arith.
Qed.

Lemma utf8Run_scalars bytes : forall d l,
  decoderOk d -> utf8Run false d bytes = Some l ->
  Forall (fun c => isScalarValue c = true) l.
Proof.
  assert (Hcons : forall c o l,
            isScalarValue c = true ->
            (forall l', o = Some l' -> Forall (fun c => isScalarValue c = true) l') ->
            option_map (cons c) o = Some l ->
            Forall (fun c => isScalarValue c = true) l).
  { intros c o l Hc Ho H. apply option_map_cons_some in H as (l' & -> & ->).
    constructor; [exact Hc | apply Ho; reflexivity]. }
  induction bytes as [| b t IH]; intros d l Hd; cbn [utf8Run].
  - destruct (utf8Handler d None); cbn [onError option_map];
      intros [= <-]; repeat constructor.
  - assert (Hr := handler_ok d b Hd).
    destruct (utf8Handler d (Some b)) as [| d' | c d' | d' r]; cbn [resultOk] in Hr.
    + intros [= <-]. constructor.
    + apply IH, Hr.
    + destruct Hr as [Hc Hd']. apply Hcons; [exact Hc |].
      intros l'. apply IH, Hd'.
    + destruct r; cbn [onError].
      * apply Hcons; [reflexivity |]. intros l'.
        assert (Hr' := handler_ok d' b Hr).
        destruct (utf8Handler d' (Some b)) as [| d'' | c d'' | d'' r'];
          cbn [resultOk] in Hr'.
        -- intros [= <-]. constructor.
        -- apply IH, Hr'.
        -- destruct Hr' as [Hc Hd'']. apply Hcons; [exact Hc |].
           intros l''. apply IH, Hd''.
        -- cbn [onError]. apply Hcons; [reflexivity |]. intros l''. apply IH, Hr'.
      * apply Hcons; [reflexivity |]. intros l'. apply IH, Hr.
Qed.

End DecoderInvariant.

(** X18: the decoder never produces a lone surrogate.  Whatever the bytes,
    malformed or not, [new TextDecoder().decode] returns a string, and this
    string is well-formed; so is the text the tool shows for any input. *)
Theorem decoded_is_wellFormed :
  (forall bytes, exists s,
      decodeUtf8 bytes = Some s /\ isWellFormed s = true
      /\ Forall (fun u => isCodeUnit u = true) s)
  /\ (forall hexInput, isWellFormed (decoded (DecoderTool hexInput)) = true).
Proof.
  assert (H : forall bytes, exists s,
             decodeUtf8 bytes = Some s /\ isWellFormed s = true
             /\ Forall (fun u => isCodeUnit u = true) s).
  { intros bytes. unfold decodeUtf8, TextDecoder_decode.
    assert (Htot := utf8Run_total bytes utf8Initial).
    destruct (utf8Run false utf8Initial bytes) as [l |] eqn:E; [| congruence].
    assert (Hsc := utf8Run_scalars bytes utf8Initial l initial_ok E).
    exists (fromCodePoints (dropBOM false l)). split; [reflexivity |].
    apply fromCodePoints_wellFormed, dropBOM_scalars, Hsc. }
  split; [exact H |].
  intros hexInput. destruct (H (hexInputBytes hexInput)) as (s & Hs & Hwf & _).
  unfold DecoderTool. unfold decodeUtf8 in Hs. rewrite Hs. exact Hwf.
Qed.

(** ** From "Copy as hex" to the decoder *)

Section CopyPaste.

(** A token: two hex digits. *)
Let token (t : jsstring) : Prop :=
  exists h1 h2, t = [h1; h2] /\ isHexDigit h1 = true /\ isHexDigit h2 = true.

Lemma byteHex_token b :
  0 <= b <= 255 ->
  token (byteHex b) /\ parseInt (byteHex b) 16 = Fin b.
Proof.
  intros Hb.
  assert (Hb53 : 0 <= b < 2 ^ 53) by (change (2 ^ 53) with 9007199254740992; lia).
  destruct (readDigits_padded 16 b 2 true ltac:(lia) Hb53) as [Hhex [k Hk]].
  fold (byteHex b) in Hhex, Hk.
  assert (Hlen : length (byteHex b) = 2%nat).
  { unfold byteHex. apply padLeft_length. unfold toUpperCase. rewrite length_map.
    apply (toStringRadix_length 16 ltac:(lia) b 1). cbn. lia. }
  split.
  - destruct (byteHex b) as [| h1 [| h2 [| ? ?]]]; try discriminate Hlen.
    exists h1, h2. split; [reflexivity |].
    split; [exact (Forall_inv Hhex) | exact (Forall_inv (Forall_inv_tail Hhex))].
  - apply (parseInt_digits 16 _ b k); [lia | exact Hhex | exact Hk | lia].
Qed.

Lemma replace0x_cons2 c x t :
  replace0x (c :: x :: t)
  = if (c =? 48) && ((x =? 120) || (x =? 88)) then 32 :: replace0x t
    else c :: replace0x (x :: t).
Proof. reflexivity. Qed.

Lemma hex_not_x h : isHexDigit h = true -> (h =? 120) || (h =? 88) = false.
Proof.
  intros H. apply isHexDigit_spec in H.
  destruct H as [H | [H | H]]; decide_bool; reflexivity.
Qed.

Lemma join_cons2 sep (x y : jsstring) r :
  join sep (x :: y :: r) = x ++ sep ++ join sep (y :: r).
Proof. reflexivity. Qed.

Lemma join_cons_ne sep (x : jsstring) l :
  l <> [] -> join sep (x :: l) = x ++ sep ++ join sep l.
Proof. destruct l; [congruence | reflexivity]. Qed.

(** Step 1: every "0x" becomes a space. *)
Lemma replace0x_tokens ts :
  Forall token ts ->
  replace0x (join [32] (map (fun t => 48 :: 120 :: t) ts))
  = join [32] (map (fun t => 32 :: t) ts).
Proof.
  induction 1 as [| t r (h1 & h2 & -> & H1 & H2) Hr IH]; [reflexivity |].
  destruct r as [| t' r'].
  - cbn [map join]. rewrite replace0x_cons2.
    change (48 =? 48) with true. change (120 =? 120) with true.
    cbn [andb orb]. cbv iota.
    rewrite replace0x_cons2, (hex_not_x h2 H2), andb_false_r. reflexivity.
  - rewrite (map_cons (fun t => 48 :: 120 :: t)), (map_cons (fun t => 32 :: t)).
    rewrite !join_cons_ne by discriminate.
    set (J := join [32] (map (fun t => 48 :: 120 :: t) (t' :: r'))) in *.
    assert (HJ : exists j, J = 48 :: j).
    { unfold J. cbn [map join].
      destruct (map (fun t => 48 :: 120 :: t) r'); eexists; reflexivity. }
    destruct HJ as [j HJ].
    cbn [app]. rewrite replace0x_cons2.
    change (48 =? 48) with true. change (120 =? 120) with true.
    cbn [andb orb]. cbv iota.
    rewrite replace0x_cons2, (hex_not_x h2 H2), andb_false_r. cbv iota.
    rewrite replace0x_cons2. change ((32 =? 120) || (32 =? 88)) with false.
    rewrite andb_false_r. cbv iota.
    rewrite HJ at 1. rewrite replace0x_cons2. change (32 =? 48) with false.
    cbn [andb]. cbv iota. rewrite <- HJ, IH. reflexivity.
Qed.

Lemma join_spaced t r :
  join [32] (map (fun t => 32 :: t) (t :: r)) = 32 :: join [32; 32] (t :: r).
Proof.
  revert t. induction r as [| t' r' IH]; intros t; [reflexivity |].
  rewrite (map_cons (fun t => 32 :: t)).
  rewrite (join_cons_ne [32]) by discriminate.
  rewrite IH, join_cons2. reflexivity.
Qed.

Lemma joined_tokens t r :
  Forall token (t :: r) ->
  Forall (fun c => isHexDigit c = true \/ c = 32) (join [32; 32] (t :: r))
  /\ exists a m z,
       join [32; 32] (t :: r) = a :: m ++ [z]
       /\ isHexDigit a = true /\ isHexDigit z = true.
Proof.
  revert t. induction r as [| t' r' IH]; intros t Ht.
  - destruct (Forall_inv Ht) as (h1 & h2 & -> & H1 & H2).
    split; [repeat constructor; auto |].
    exists h1, [], h2. repeat split; assumption.
  - destruct (Forall_inv Ht) as (h1 & h2 & -> & H1 & H2).
    destruct (IH t' (Forall_inv_tail Ht)) as (Hall & a & m & z & Hj & Ha & Hz).
    rewrite join_cons2. split.
    + repeat (constructor; [auto |]). exact Hall.
    + exists h1, (h2 :: 32 :: 32 :: a :: m), z. rewrite Hj.
      repeat split; assumption.
Qed.

(** Steps 2 and 3: nothing else is replaced, and [trim] removes the first
    space only. *)
Lemma replaceNonHex_id s :
  Forall (fun c => isHexDigit c = true \/ c = 32) s -> replaceNonHex s = s.
Proof.
  induction 1 as [| c t Hc _ IH]; [reflexivity |].
  cbn [replaceNonHex map]. fold (replaceNonHex t). rewrite IH.
  destruct Hc as [-> | ->]; reflexivity.
Qed.

Lemma trim_framed a m z :
  isSpace a = false -> isSpace z = false ->
  trim (32 :: a :: m ++ [z]) = a :: m ++ [z].
Proof.
  intros Ha Hz. unfold trim.
  change (trimStart (32 :: a :: m ++ [z])) with (trimStart (a :: m ++ [z])).
  cbn [trimStart]. rewrite Ha.
  change (a :: m ++ [z]) with ((a :: m) ++ [z]).
  rewrite rev_app_distr. cbn [rev app trimStart]. rewrite Hz.
  change (z :: rev m ++ [a]) with (rev [z] ++ rev (a :: m)).
  rewrite <- rev_app_distr, rev_involutive. reflexivity.
Qed.

(** Step 4: splitting at white space gives the tokens back. *)
Lemma splitSpacesFrom_after_sep c s :
  isSpace c = false ->
  splitSpacesFrom [] true (c :: s) = splitSpacesFrom [] false (c :: s).
Proof. intros H. cbn [splitSpacesFrom]. rewrite H. reflexivity. Qed.

Lemma splitSpacesFrom_token h1 h2 rest :
  isSpace h1 = false -> isSpace h2 = false ->
  splitSpacesFrom [] false (h1 :: h2 :: 32 :: 32 :: rest)
  = [h1; h2] :: splitSpacesFrom [] true rest.
Proof.
  intros S1 S2. cbn [splitSpacesFrom]. rewrite S1, S2.
  change (isSpace 32) with true. reflexivity.
Qed.

Lemma splitSpaces_tokens t r :
  Forall token (t :: r) -> splitSpaces (join [32; 32] (t :: r)) = t :: r.
Proof.
  revert t. induction r as [| t' r' IH]; intros t Ht;
    destruct (Forall_inv Ht) as (h1 & h2 & -> & H1 & H2);
    assert (S1 := hex_not_space h1 H1); assert (S2 := hex_not_space h2 H2).
  - unfold splitSpaces. cbn [join splitSpacesFrom]. rewrite S1, S2. reflexivity.
  - specialize (IH t' (Forall_inv_tail Ht)).
    destruct (joined_tokens _ _ (Forall_inv_tail Ht))
      as (_ & a & m & z & Hj & Ha & _).
    rewrite join_cons2. unfold splitSpaces in *. cbn [app].
    rewrite splitSpacesFrom_token by assumption.
    rewrite Hj in *.
    rewrite splitSpacesFrom_after_sep by (apply hex_not_space, Ha).
    rewrite IH. reflexivity.
Qed.

Lemma tokens_truthy ts : Forall token ts -> filter truthyString ts = ts.
Proof.
  induction 1 as [| t r (h1 & h2 & -> & _) _ IH]; [reflexivity |].
  cbn. f_equal. exact IH.
Qed.

Lemma hexInputBytes_copyAsHex bytes :
  Forall (fun b => 0 <= b <= 255) bytes ->
  hexInputBytes (copyAsHex bytes) = bytes.
Proof.
  intros Hb. destruct bytes as [| b0 r]; [reflexivity |].
  assert (Htok : Forall token (byteHex b0 :: map byteHex r)).
  { change (Forall token (map byteHex (b0 :: r))).
    apply Forall_map. eapply Forall_impl; [| exact Hb].
    intros b Hbb. apply byteHex_token, Hbb. }
  unfold hexInputBytes, copyAsHex.
  change (lit " ") with [32].
  replace (map (fun b => lit "0x" ++ byteHex b) (b0 :: r))
    with (map (fun t => 48 :: 120 :: t) (byteHex b0 :: map byteHex r))
    by (cbn [map]; rewrite map_map; reflexivity).
  rewrite replace0x_tokens by exact Htok.
  rewrite join_spaced.
  destruct (joined_tokens _ _ Htok) as (Hall & a & m & z & Hj & Ha & Hz).
  rewrite replaceNonHex_id by (constructor; [right; reflexivity | exact Hall]).
  assert (Htrim : trim (32 :: join [32; 32] (byteHex b0 :: map byteHex r))
                  = join [32; 32] (byteHex b0 :: map byteHex r)).
  { rewrite Hj. apply trim_framed; apply hex_not_space; assumption. }
  assert (Hsplit := splitSpaces_tokens _ _ Htok).
  assert (Htruthy := tokens_truthy _ Htok).
  unfold jsstring in *. rewrite Htrim, Hsplit, Htruthy.
  change (byteHex b0 :: map byteHex r) with (map byteHex (b0 :: r)).
  rewrite !map_map.
  clear Htok Hall Hj Htrim Hsplit Htruthy Ha Hz a m z.
  induction Hb as [| b t Hbb _ IH]; [reflexivity |].
  cbn [map]. rewrite (proj2 (byteHex_token b Hbb)), IH. cbn [toUint8].
  f_equal. apply Z.mod_small. lia.
Qed.

Lemma utf8Bytes_are_bytes s :
  Forall (fun u => isCodeUnit u = true) s ->
  Forall (fun b => 0 <= b <= 255) (TextEncoder_encode s).
Proof.
  intros Hu. unfold TextEncoder_encode.
  assert (Hsc := toScalarValues_scalars s Hu).
  induction Hsc as [| c l Hc _ IH]; [constructor |].
  cbn [flat_map]. apply Forall_app. split; [| exact IH].
  apply isScalarValue_spec in Hc.
  destruct (Z_le_gt_dec c 0x7F);
    [rewrite encode1 by lia; repeat constructor; lia |].
  destruct (Z_le_gt_dec c 0x7FF);
    [rewrite encode2 by lia; repeat constructor; div_arith |].
  destruct (Z_le_gt_dec c 0xFFFF);
    [rewrite encode3 by lia; repeat constructor; div_arith |].
  rewrite encode4 by lia; repeat constructor; div_arith.
Qed.

Lemma decode_encode s :
  Forall (fun u => isCodeUnit u = true) s -> isWellFormed s = true ->
  TextDecoder_decode false false (TextEncoder_encode s) = Some (dropBOM false s).
Proof.
  intros Hu Hwf. destruct (wellFormed_scalars s Hu Hwf) as [Hsc Hfrom].
  unfold TextDecoder_decode, TextEncoder_encode.
  rewrite utf8Run_encode by assumption. cbn [option_map].
  rewrite dropBOM_fromCodePoints, Hfrom by assumption. reflexivity.
Qed.

End CopyPaste.

(** X19: what "Copy as hex" puts on the clipboard, the decoder reads back.
    For bytes of [0, 255], the hex input ["0xHH 0xHH ..."] written by the copy
    button is read as the same bytes; hence, for a text without lone
    surrogate, pasting the copied UTF-8 bytes of the text into the decoder
    shows the text (without a leading U+FEFF) and no error. *)
Theorem copy_paste_roundtrip :
  (forall bytes, Forall (fun b => 0 <= b <= 255) bytes ->
     hexInputBytes (copyAsHex bytes) = bytes)
  /\ (forall s, Forall (fun u => isCodeUnit u = true) s -> isWellFormed s = true ->
        DecoderTool (copyAsHex (utf8Bytes (Some s)))
        = mkDecoderState (dropBOM false s) []).
Proof.
  split; [exact hexInputBytes_copyAsHex |].
  intros s Hu Hwf. unfold DecoderTool, utf8Bytes, orEmpty.
  rewrite hexInputBytes_copyAsHex by (apply utf8Bytes_are_bytes, Hu).
  rewrite decode_encode by assumption. reflexivity.
Qed.

Lemma copy_paste_roundtrip_witness :
  let s := [0x48; 0x20AC; 0xD83D; 0xDC4B] in
  Forall (fun u => isCodeUnit u = true) s /\ isWellFormed s = true
  /\ copyAsHex (utf8Bytes (Some s))
     = lit "0x48 0xE2 0x82 0xAC 0xF0 0x9F 0x91 0x8B"
  /\ DecoderTool (copyAsHex (utf8Bytes (Some s))) = mkDecoderState s [].
Proof.
  cbv zeta.
  assert (Hu : Forall (fun u => isCodeUnit u = true) [0x48; 0x20AC; 0xD83D; 0xDC4B])
    by (repeat constructor).
  assert (Hwf : isWellFormed [0x48; 0x20AC; 0xD83D; 0xDC4B] = true) by reflexivity.
  split; [exact Hu | split; [exact Hwf | split; [reflexivity |]]].
  exact (proj2 copy_paste_roundtrip _ Hu Hwf).
Defined.

(** ** Input without a hex digit *)

Section NoHexDigit.

Lemma replace0x_no_zero s :
  Forall (fun c => c <> 48) s -> replace0x s = s.
Proof.
  induction 1 as [| c t Hc _ IH]; [reflexivity |].
  destruct t as [| x t']; [reflexivity |].
  rewrite replace0x_cons2.
  replace (c =? 48) with false by (symmetry; apply Z.eqb_neq; exact Hc).
  cbn [andb]. rewrite IH. reflexivity.
Qed.

Lemma replaceNonHex_spaces s :
  Forall (fun c => isHexDigit c = false) s ->
  Forall (fun c => isSpace c = true) (replaceNonHex s).
Proof.
  induction 1 as [| c t Hc _ IH]; [constructor |].
  cbn [replaceNonHex map]. rewrite Hc. constructor; [reflexivity | exact IH].
Qed.

End NoHexDigit.

(** X20: an input without any hex digit, the empty input included, gives
    no bytes, an empty decoded text and no error. *)
Theorem no_hex_digit_input (hexInput : jsstring) :
  Forall (fun c => isHexDigit c = false) hexInput ->
  hexInputBytes hexInput = []
  /\ DecoderTool hexInput = mkDecoderState [] [].
Proof.
  intros H.
  assert (Hbytes : hexInputBytes hexInput = []).
  { unfold hexInputBytes.
    rewrite replace0x_no_zero.
    - rewrite trim_spaces by (apply replaceNonHex_spaces, H). reflexivity.
    - eapply Forall_impl; [| exact H].
      intros c Hc ->. discriminate Hc. }
  split; [exact Hbytes |].
  unfold DecoderTool. rewrite Hbytes. reflexivity.
Qed.

Lemma no_hex_digit_input_witness :
  Forall (fun c => isHexDigit c = false) (lit "x, y; z!")
  /\ DecoderTool (lit "x, y; z!") = mkDecoderState [] [].
Proof.
  assert (H : Forall (fun c => isHexDigit c = false) (lit "x, y; z!"))
    by (repeat constructor).
  split; [exact H | exact (proj2 (no_hex_digit_input _ H))].
Defined.

(* ================================================================== *)
(** * The graphics analyzer: [rgbToHex] *)

Section RgbToHex.

Lemma upper_padStart s :
  toUpperCase (padStart s 2 48) = padLeft (toUpperCase s) 2.
Proof.
  unfold padLeft, padStart, toUpperCase.
  rewrite map_app, map_repeat, length_map. reflexivity.
Qed.

Lemma byteHex_upper b :
  0 <= b -> Forall (fun c => 48 <= c <= 57 \/ 65 <= c <= 70) (byteHex b).
Proof.
  intros Hb. unfold byteHex. apply padLeft_Forall; [lia |].
  unfold toUpperCase. apply Forall_map.
  apply (toStringRadix_Forall 16 ltac:(lia)); [lia |].
  intros d Hd. unfold digitChar.
  destruct (Z.ltb_spec d 10); decide_bool; lia.
Qed.

Lemma rgbToHex_bytes r g b :
  rgbToHex r g b = 35 :: byteHex r ++ byteHex g ++ byteHex b.
Proof.
  unfold rgbToHex. cbn [map join lit app].
  change (Z.of_N (N_of_ascii "#")) with 35. f_equal.
  unfold toUpperCase at 1. rewrite !map_app.
  fold (toUpperCase (padStart (toStringRadix r 16) 2 48)).
  fold (toUpperCase (padStart (toStringRadix g 16) 2 48)).
  fold (toUpperCase (padStart (toStringRadix b 16) 2 48)).
  rewrite !upper_padStart. reflexivity.
Qed.

End RgbToHex.

(** X21: the hex colour.  For channel values of [0, 255], [rgbToHex] is
    ["#"] followed by the two-digit upper-case hex forms of red, green and
    blue, seven characters in all, and each pair of digits parses back to its
    channel value. *)
Theorem rgbToHex_spec (r g b : Z) :
  0 <= r <= 255 -> 0 <= g <= 255 -> 0 <= b <= 255 ->
  let hex := rgbToHex r g b in
  hex = lit "#" ++ byteHex r ++ byteHex g ++ byteHex b
  /\ length hex = 7%nat
  /\ Forall (fun c => 48 <= c <= 57 \/ 65 <= c <= 70) (skipn 1 hex)
  /\ parseInt (firstn 2 (skipn 1 hex)) 16 = Fin r
  /\ parseInt (firstn 2 (skipn 3 hex)) 16 = Fin g
  /\ parseInt (firstn 2 (skipn 5 hex)) 16 = Fin b.
Proof.
  intros Hr Hg Hb hex. subst hex. rewrite rgbToHex_bytes.
  assert (Ur := byteHex_upper r ltac:(lia)).
  assert (Ug := byteHex_upper g ltac:(lia)).
  assert (Ub := byteHex_upper b ltac:(lia)).
  destruct (byteHex_token r Hr) as [(r1 & r2 & Er & _) Pr].
  destruct (byteHex_token g Hg) as [(g1 & g2 & Eg & _) Pg].
  destruct (byteHex_token b Hb) as [(b1 & b2 & Eb & _) Pb].
  rewrite Er, Eg, Eb in *.
  split; [reflexivity | split; [reflexivity | split]].
  - change (Forall (fun c => 48 <= c <= 57 \/ 65 <= c <= 70)
              ([r1; r2] ++ [g1; g2] ++ [b1; b2])).
    apply Forall_app. split; [exact Ur |].
    apply Forall_app. split; assumption.
  - repeat split; assumption.
Qed.

Lemma rgbToHex_spec_witness :
  0 <= 255 <= 255 /\ 0 <= 10 <= 255 /\ 0 <= 0 <= 255
  /\ rgbToHex 255 10 0 = lit "#FF0A00"
  /\ parseInt (firstn 2 (skipn 3 (rgbToHex 255 10 0))) 16 = Fin 10.
Proof.
  assert (Hr : 0 <= 255 <= 255) by lia.
  assert (Hg : 0 <= 10 <= 255) by lia.
  assert (Hb : 0 <= 0 <= 255) by lia.
  destruct (rgbToHex_spec 255 10 0 Hr Hg Hb) as (_ & _ & _ & _ & H & _).
  split; [exact Hr | split; [exact Hg | split; [exact Hb |]]].
  split; [reflexivity | exact H].
Defined.

(* ================================================================== *)
(** * The binary string and the bit buttons *)

Section BinaryString.

Lemma bit_char_value c :
  c = 48 \/ c = 49 -> digitValue c = Some (c - 48) /\ 0 <= c - 48 <= 1.
Proof. intros [-> | ->]; split; try reflexivity; lia. Qed.

Lemma readDigits_binary s : forall acc k,
  Forall (fun c => c = 48 \/ c = 49) s ->
  exists w,
    0 <= w < 2 ^ Z.of_nat (length s)
    /\ readDigits 2 s acc k
       = (acc * 2 ^ Z.of_nat (length s) + w, (k + length s)%nat).
Proof.
  induction s as [| c t IH]; intros acc k Hs.
  - exists 0. cbn. split; [lia |]. f_equal; lia.
  - destruct (bit_char_value c (Forall_inv Hs)) as [Hd Hr].
    destruct (IH (acc * 2 + (c - 48)) (S k) (Forall_inv_tail Hs)) as (w & Hw & Hread).
    cbn [readDigits]. rewrite Hd.
    destruct (Z.ltb_spec (c - 48) 2); [| lia].
    rewrite Hread. cbn [length]. rewrite Nat2Z.inj_succ, Z.pow_succ_r by lia.
    exists ((c - 48) * 2 ^ Z.of_nat (length t) + w).
    split; [nia |]. f_equal; lia.
Qed.

Lemma binary_digit_is_bit s : forall acc k V k' i,
  Forall (fun c => c = 48 \/ c = 49) s ->
  readDigits 2 s acc k = (V, k') ->
  (i < length s)%nat ->
  nth i s 0 = if Z.testbit V (Z.of_nat (length s - 1 - i)) then 49 else 48.
Proof.
  induction s as [| c t IH]; intros acc k V k' i Hs Hread Hi; [cbn in Hi; lia |].
  destruct (bit_char_value c (Forall_inv Hs)) as [Hd Hr].
  cbn [readDigits] in Hread. rewrite Hd in Hread.
  destruct (Z.ltb_spec (c - 48) 2); [| lia].
  destruct i as [| i].
  - destruct (readDigits_binary t (acc * 2 + (c - 48)) (S k) (Forall_inv_tail Hs))
      as (w & Hw & Hval).
    rewrite Hval in Hread. injection Hread as <- _.
    cbn [nth length]. replace (S (length t) - 1 - 0)%nat with (length t) by lia.
    set (n := Z.of_nat (length t)) in *.
    assert (Hn : 0 <= n) by (unfold n; lia).
    assert (Hbit : Z.testbit ((acc * 2 + (c - 48)) * 2 ^ n + w) n = Z.odd (c - 48)).
    { rewrite <- (Z.add_0_l n) at 2.
      rewrite <- Z.div_pow2_bits, Z.bit0_odd by lia.
      rewrite Z.div_add_l by (apply Z.pow_nonzero; lia).
      rewrite Z.div_small, Z.add_0_r by lia.
      replace (acc * 2 + (c - 48)) with ((c - 48) + 2 * acc) by lia.
      apply Z.odd_add_mul_2. }
    rewrite Hbit. destruct (Forall_inv Hs) as [-> | ->]; reflexivity.
  - cbn [nth length]. replace (S (length t) - 1 - S i)%nat with (length t - 1 - i)%nat by lia.
    apply (IH _ _ _ _ _ (Forall_inv_tail Hs) Hread). cbn [length] in Hi. lia.
Qed.

Lemma toBin_digits v b :
  validBits b -> inRange v b ->
  Forall (fun c => c = 48 \/ c = 49) (toBin v b)
  /\ length (toBin v b) = Z.to_nat b
  /\ exists k, readDigits 2 (toBin v b) 0 O = (v, k).
Proof.
  intros Hb Hv. assert (Hb' := validBits_bounds b Hb).
  assert (Hv53 : 0 <= v < 2 ^ 53).
  { destruct (inRange_32 v b ltac:(lia) Hv).
    change (2 ^ 53) with (2097152 * 2 ^ 32). lia. }
  split; [| split].
  - unfold toBin. apply padLeft_Forall; [lia |].
    apply (toStringRadix_Forall 2 ltac:(lia)); [lia |].
    intros d Hd. unfold digitChar. destruct (Z.ltb_spec d 10); lia.
  - unfold toBin. apply padLeft_length. unfold inRange in Hv.
    destruct Hb as [-> | [-> | ->]].
    + apply (toStringRadix_length 2 ltac:(lia) v 7). cbn in *. lia.
    + apply (toStringRadix_length 2 ltac:(lia) v 15). cbn in *. lia.
    + apply (toStringRadix_length 2 ltac:(lia) v 31). cbn in *. lia.
  - destruct (readDigits_padded 2 v b false ltac:(lia) Hv53) as [_ [k Hk]].
    exists (S k). exact Hk.
Qed.

End BinaryString.

(** X22: the binary string shows the bits from the most significant down.
    For a width in {8,16,32}, a value in range and a position [i] of
    [0, bits - 1], character [i] of [toBin] is ["1"] when bit [bits - 1 - i] of
    the value is set and ["0"] otherwise; it agrees with bit button [i]. *)
Theorem binary_string_bits (st : State) (i : nat) :
  validBits (bits st) -> inRange (unsignedValue st) (bits st) ->
  Z.of_nat i < bits st ->
  nth i (toBin (unsignedValue st) (bits st)) 0
  = (if Z.testbit (unsignedValue st) (bits st - 1 - Z.of_nat i) then 49 else 48)
  /\ nth i (toBin (unsignedValue st) (bits st)) 0
     = (if bitOn st (Z.of_nat i) then 49 else 48).
Proof.
  intros Hb Hv Hi. assert (Hb' := validBits_bounds _ Hb).
  destruct (toBin_digits _ _ Hb Hv) as (Hbits & Hlen & k & Hread).
  assert (H : nth i (toBin (unsignedValue st) (bits st)) 0
              = if Z.testbit (unsignedValue st) (bits st - 1 - Z.of_nat i)
                then 49 else 48).
  { rewrite (binary_digit_is_bit _ _ _ _ _ i Hbits Hread) by lia.
    rewrite Hlen. replace (Z.of_nat (Z.to_nat (bits st) - 1 - i))
      with (bits st - 1 - Z.of_nat i) by lia.
    reflexivity. }
  split; [exact H |].
  rewrite bitOn_testbit by (assumption || lia). exact H.
Qed.

Lemma binary_string_bits_witness :
  let st := mkState 8 200 None in
  validBits (bits st) /\ inRange (unsignedValue st) (bits st)
  /\ toBin 200 8 = lit "11001000"
  /\ nth 4 (toBin 200 8) 0 = 49 /\ bitOn st 4 = true.
Proof.
  cbv zeta.
  assert (Hb : validBits (bits (mkState 8 200 None))) by (left; reflexivity).
  assert (Hv : inRange 200 8) by (unfold inRange; cbn; lia).
  assert (Hi : Z.of_nat 4 < bits (mkState 8 200 None)) by (cbn; lia).
  destruct (binary_string_bits (mkState 8 200 None) 4 Hb Hv Hi) as [H _].
  split; [exact Hb | split; [exact Hv | split; [reflexivity |]]].
  split; [exact H | reflexivity].
Defined.

(* ================================================================== *)
(** * Grouping, and the order of bit flips *)

(** X23: grouping is display only.  For every string and every group size
    [n >= 1], [groupEvery] changes white space only; in particular, for a
    width in {8,16,32} and [v] in range, removing the white space from the
    grouped hex or binary form gives [toHex] or [toBin] back. *)
Theorem groupEvery_only_spaces :
  (forall s n, (0 < n)%nat -> removeSpaces (groupEvery s n) = removeSpaces s)
  /\ (forall v b n, validBits b -> inRange v b -> (0 < n)%nat ->
        removeSpaces (groupEvery (toHex v b) n) = toHex v b
        /\ removeSpaces (groupEvery (toBin v b) n) = toBin v b).
Proof.
  split; [exact removeSpaces_groupEvery |].
  intros v b n Hb Hv Hn. assert (Hb' := validBits_bounds b Hb).
  assert (Hv53 : 0 <= v < 2 ^ 53).
  { destruct (inRange_32 v b ltac:(lia) Hv).
    change (2 ^ 53) with (2097152 * 2 ^ 32). lia. }
  destruct (readDigits_padded 16 v (ceilDiv b 4) true ltac:(lia) Hv53) as [H16 _].
  destruct (readDigits_padded 2 v b false ltac:(lia) Hv53) as [H2 _].
  fold (toHex v b) in H16. fold (toBin v b) in H2.
  rewrite !removeSpaces_groupEvery by assumption.
  split; apply removeSpaces_hex; assumption.
Qed.

Lemma groupEvery_only_spaces_witness :
  validBits 16 /\ inRange 65000 16 /\ (0 < 2)%nat
  /\ groupEvery (toHex 65000 16) 2 = lit "FD E8"
  /\ removeSpaces (groupEvery (toHex 65000 16) 2) = toHex 65000 16.
Proof.
  assert (Hb : validBits 16) by (right; left; reflexivity).
  assert (Hv : inRange 65000 16) by (unfold inRange; cbn; lia).
  assert (Hn : (0 < 2)%nat) by lia.
  split; [exact Hb | split; [exact Hv | split; [exact Hn | split; [reflexivity |]]]].
  exact (proj1 (proj2 groupEvery_only_spaces 65000 16 2%nat Hb Hv Hn)).
Defined.

(** X24: bit flips commute.  For a width in {8,16,32}, a value in range
    and two bit buttons [i] and [j], clicking [i] then [j] gives the same
    state as clicking [j] then [i]. *)
Theorem toggleBit_commutes (st : State) (i j : Z) :
  validBits (bits st) -> inRange (unsignedValue st) (bits st) ->
  0 <= i < bits st -> 0 <= j < bits st ->
  toggleBit (toggleBit st i) j = toggleBit (toggleBit st j) i.
Proof.
  intros Hb Hv Hi Hj. destruct st as [b v ch].
  cbn [bits unsignedValue] in *.
  assert (Hform : forall w k, inRange w b -> 0 <= k < b ->
            toggleBit (mkState b w ch) k
            = mkState b (Z.lxor w (2 ^ (b - 1 - k))) ch).
  { intros w k Hw Hk.
    rewrite <- (toggle_value b w k ch Hb Hw ltac:(lia)). reflexivity. }
  rewrite (Hform v i), (Hform v j) by assumption.
  rewrite !Hform by (try apply toggle_in_range; try assumption; lia).
  f_equal. rewrite !Z.lxor_assoc. f_equal. apply Z.lxor_comm.
Qed.

Lemma toggleBit_commutes_witness :
  let st := mkState 32 65 None in
  validBits (bits st) /\ inRange (unsignedValue st) (bits st)
  /\ toggleBit (toggleBit st 0) 31 = mkState 32 2147483712 None
  /\ toggleBit (toggleBit st 0) 31 = toggleBit (toggleBit st 31) 0.
Proof.
  cbv zeta.
  assert (Hb : validBits (bits (mkState 32 65 None))) by (right; right; reflexivity).
  assert (Hv : inRange 65 32) by (unfold inRange; cbn; lia).
  split; [exact Hb | split; [exact Hv | split; [reflexivity |]]].
  apply (toggleBit_commutes (mkState 32 65 None) 0 31 Hb Hv); cbn; lia.
Defined.

(* ================================================================== *)
(** * Decoding, then encoding *)

Section DecodeEncode.

Lemma bounds3 b1 :
  (b1 = 0xE0 /\ lower3 b1 = 0xA0 /\ upper3 b1 = 0xBF)
  \/ (b1 = 0xED /\ lower3 b1 = 0x80 /\ upper3 b1 = 0x9F)
  \/ (b1 <> 0xE0 /\ b1 <> 0xED /\ lower3 b1 = 0x80 /\ upper3 b1 = 0xBF).
Proof.
  unfold lower3, upper3.
  destruct (Z.eqb_spec b1 0xE0) as [-> | ?]; [left; repeat split |].
  destruct (Z.eqb_spec b1 0xED) as [-> | ?]; [right; left; repeat split |].
  right; right. repeat split; assumption.
Qed.

Lemma bounds4 b1 :
  (b1 = 0xF0 /\ lower4 b1 = 0x90 /\ upper4 b1 = 0xBF)
  \/ (b1 = 0xF4 /\ lower4 b1 = 0x80 /\ upper4 b1 = 0x8F)
  \/ (b1 <> 0xF0 /\ b1 <> 0xF4 /\ lower4 b1 = 0x80 /\ upper4 b1 = 0xBF).
Proof.
  unfold lower4, upper4.
  destruct (Z.eqb_spec b1 0xF0) as [-> | ?]; [left; repeat split |].
  destruct (Z.eqb_spec b1 0xF4) as [-> | ?]; [right; left; repeat split |].
  right; right. repeat split; assumption.
Qed.

Lemma accepts_initial b : stepAccepts [] b (utf8Handler utf8Initial (Some b)).
Proof.
  destruct (Z_le_dec 0 b) as [Ha | Ha]; [destruct (Z_le_dec b 0x7F) as [Ha' | Ha'] |].
  - rewrite handler_ascii by lia. split; [reflexivity |]. apply encode1. lia.
  - destruct (Z_le_dec 0xC2 b) as [Hb | Hb];
      [destruct (Z_le_dec b 0xDF) as [Hb' | Hb'] |].
    + rewrite handler_lead2 by lia. right; left. exists b. auto.
    + destruct (Z_le_dec 0xE0 b) as [Hc | Hc]; [| lia].
      destruct (Z_le_dec b 0xEF) as [Hc' | Hc'].
      * rewrite handler_lead3 by lia. right; right; left. exists b. auto.
      * destruct (Z_le_dec 0xF0 b) as [Hd | Hd]; [| lia].
        destruct (Z_le_dec b 0xF4) as [Hd' | Hd'].
        -- rewrite handler_lead4 by lia. do 4 right; left. exists b. auto.
        -- rewrite handler_initial_other by lia. exact I.
    + rewrite handler_initial_other by lia. exact I.
  - rewrite handler_initial_other by lia. exact I.
Qed.

Lemma accepts_continuation d p b :
  bytes_needed d <> 0 ->
  (lower_boundary d <= b <= upper_boundary d ->
   stepAccepts p b
     (if bytes_seen d + 1 =? bytes_needed d
      then CodePoint (code_point d * 64 + b mod 64) utf8Initial
      else Continue (mkUtf8Decoder (code_point d * 64 + b mod 64)
                       (bytes_seen d + 1) (bytes_needed d) 0x80 0xBF))) ->
  stepAccepts p b (utf8Handler d (Some b)).
Proof.
  intros Hn H.
  destruct (Z_le_dec (lower_boundary d) b) as [Hlo | Hlo];
    [destruct (Z_le_dec b (upper_boundary d)) as [Hhi | Hhi] |];
    try (rewrite handler_out_of_range by lia; exact I).
  rewrite handler_continuation by lia. apply H. lia.
Qed.

Lemma accepts_step d p b :
  pendingBytes d p -> stepAccepts p b (utf8Handler d (Some b)).
Proof.
  intros [[-> ->] | [H | [H | [H | [H | [H | H]]]]]]; [apply accepts_initial | ..].
  - destruct H as (b1 & -> & Hb1 & ->).
    apply accepts_continuation; [cbn; lia |].
    cbn [code_point bytes_seen bytes_needed lower_boundary upper_boundary].
    intros Hb. change (0 + 1 =? 1) with true. cbv iota.
    split; [reflexivity |]. rewrite encode2 by div_arith.
    cbn [app]. f_equal; [| f_equal]; div_arith.
  - destruct H as (b1 & -> & Hb1 & ->).
    apply accepts_continuation; [cbn; lia |].
    cbn [code_point bytes_seen bytes_needed lower_boundary upper_boundary].
    intros Hb. change (0 + 1 =? 2) with false. cbv iota.
    do 3 right; left. exists b1, b. auto.
  - destruct H as (b1 & b2 & -> & Hb1 & Hb2 & ->).
    apply accepts_continuation; [cbn; lia |].
    cbn [code_point bytes_seen bytes_needed lower_boundary upper_boundary].
    intros Hb. change (1 + 1 =? 2) with true. cbv iota.
    split; [reflexivity |].
    destruct (bounds3 b1) as [(-> & Hl & Hu) | [(-> & Hl & Hu) | (? & ? & Hl & Hu)]];
      rewrite Hl, Hu in Hb2;
      (rewrite encode3 by div_arith);
      cbn [app]; (f_equal; [| f_equal; [| f_equal]]); div_arith.
  - destruct H as (b1 & -> & Hb1 & ->).
    apply accepts_continuation; [cbn; lia |].
    cbn [code_point bytes_seen bytes_needed lower_boundary upper_boundary].
    intros Hb. change (0 + 1 =? 3) with false. cbv iota.
    do 5 right; left. exists b1, b. auto.
  - destruct H as (b1 & b2 & -> & Hb1 & Hb2 & ->).
    apply accepts_continuation; [cbn; lia |].
    cbn [code_point bytes_seen bytes_needed lower_boundary upper_boundary].
    intros Hb. change (1 + 1 =? 3) with false. cbv iota.
    do 6 right. exists b1, b2, b. auto.
  - destruct H as (b1 & b2 & b3 & -> & Hb1 & Hb2 & Hb3 & ->).
    apply accepts_continuation; [cbn; lia |].
    cbn [code_point bytes_seen bytes_needed lower_boundary upper_boundary].
    intros Hb. change (2 + 1 =? 3) with true. cbv iota.
    split; [reflexivity |].
    destruct (bounds4 b1) as [(-> & Hl & Hu) | [(-> & Hl & Hu) | (? & ? & Hl & Hu)]];
      rewrite Hl, Hu in Hb2;
      (rewrite encode4 by div_arith);
      cbn [app]; (f_equal; [| f_equal; [| f_equal; [| f_equal]]]); div_arith.
Qed.

Lemma pending_end d p :
  pendingBytes d p -> p <> [] -> exists d', utf8Handler d None = DecodeError d' false.
Proof.
  intros [[-> ->] | [H | [H | [H | [H | [H | H]]]]]] Hp; [congruence | ..];
    [ destruct H as (b1 & -> & _ & ->)
    | destruct H as (b1 & -> & _ & ->)
    | destruct H as (b1 & b2 & -> & _ & _ & ->)
    | destruct H as (b1 & -> & _ & ->)
    | destruct H as (b1 & b2 & -> & _ & _ & ->)
    | destruct H as (b1 & b2 & b3 & -> & _ & _ & _ & ->) ];
    eexists; reflexivity.
Qed.

(** The scalar values that a fatal decoder returns encode to the bytes it
    has read. *)
Lemma utf8Run_fatal_encode bytes : forall d p l,
  pendingBytes d p -> utf8Run true d bytes = Some l ->
  flat_map utf8EncodeScalar l = p ++ bytes.
Proof.
  induction bytes as [| b t IH]; intros d p l Hd Hrun.
  - cbn [utf8Run] in Hrun.
    destruct p as [| x p'].
    + destruct (utf8Handler d None); cbn [onError] in Hrun;
        try discriminate; injection Hrun as <-; reflexivity.
    + destruct (pending_end d (x :: p') Hd ltac:(discriminate)) as [d' Hend].
      rewrite Hend in Hrun. discriminate.
  - assert (Hstep := accepts_step d p b Hd).
    cbn [utf8Run] in Hrun.
    destruct (utf8Handler d (Some b)) as [| d' | c d' | d' r];
      cbn [stepAccepts] in Hstep.
    + contradiction.
    + rewrite (IH d' (p ++ [b]) l Hstep Hrun), <- app_assoc. reflexivity.
    + destruct Hstep as [-> Henc].
      apply option_map_cons_some in Hrun as (l' & Hrun & ->).
      cbn [flat_map]. rewrite Henc.
      rewrite (IH utf8Initial [] l' (or_introl (conj eq_refl eq_refl)) Hrun).
      rewrite <- app_assoc. reflexivity.
    + destruct r; discriminate.
Qed.

Lemma encode_BOM c :
  isScalarValue c = true ->
  forall rest, withoutBOMBytes (utf8EncodeScalar c ++ rest)
               = if c =? 0xFEFF then rest else utf8EncodeScalar c ++ rest.
Proof.
  intros Hc rest. apply isScalarValue_spec in Hc.
  destruct (Z.eqb_spec c 0xFEFF) as [-> | Hne]; [reflexivity |].
  destruct (Z_le_gt_dec c 0x7F).
  { rewrite encode1 by lia. cbn [app withoutBOMBytes].
    destruct rest as [| x [| y t]]; try reflexivity.
    replace (c =? 239) with false by (symmetry; apply Z.eqb_neq; lia). reflexivity. }
  destruct (Z_le_gt_dec c 0x7FF).
  { rewrite encode2 by lia. cbn [app withoutBOMBytes].
    destruct rest as [| x t]; try reflexivity.
    replace (c / 64 + 192 =? 239) with false
      by (symmetry; apply Z.eqb_neq; div_arith).
    reflexivity. }
  destruct (Z_le_gt_dec c 0xFFFF).
  { rewrite encode3 by lia. cbn [app withoutBOMBytes].
    destruct (Z.eqb_spec (c / 4096 + 224) 239) as [E1 | ?]; [| reflexivity].
    destruct (Z.eqb_spec (128 + (c / 64) mod 64) 187) as [E2 | ?]; [| reflexivity].
    destruct (Z.eqb_spec (128 + c mod 64) 191) as [E3 | ?]; [| reflexivity].
    exfalso. apply Hne. div_arith. }
  rewrite encode4 by lia. cbn [app withoutBOMBytes].
  replace (c / 262144 + 240 =? 239) with false
    by (symmetry; apply Z.eqb_neq; div_arith).
  reflexivity.
Qed.

End DecodeEncode.

(** X25: decoding, then encoding.  When the bytes read from the hex input
    are well-formed UTF-8 (a fatal decoder accepts them), the UTF-8 bytes of
    the text that the tool shows are these bytes again, without the byte
    order mark [EF BB BF] if they start with one. *)
Theorem decode_then_encode (bytes : list Z) (s : jsstring) :
  TextDecoder_decode true false bytes = Some s ->
  decodeUtf8 bytes = Some s
  /\ utf8Bytes (Some s) = withoutBOMBytes bytes.
Proof.
  unfold TextDecoder_decode, decodeUtf8. intros H.
  destruct (utf8Run true utf8Initial bytes) as [l |] eqn:E; [| discriminate].
  injection H as <-.
  assert (Hnf := utf8Run_fatal_some _ _ _ E).
  assert (Hsc := utf8Run_scalars bytes utf8Initial l initial_ok Hnf).
  assert (Henc := utf8Run_fatal_encode bytes utf8Initial [] l
                    (or_introl (conj eq_refl eq_refl)) E).
  cbn [app] in Henc.
  split; [unfold TextDecoder_decode; rewrite Hnf; reflexivity |].
  unfold utf8Bytes, orEmpty, TextEncoder_encode.
  rewrite toScalarValues_fromCodePoints by (apply dropBOM_scalars, Hsc).
  rewrite <- Henc.
  destruct Hsc as [| c l' Hc Hl']; [reflexivity |].
  cbn [dropBOM flat_map]. rewrite encode_BOM by assumption.
  destruct (c =? 0xFEFF); reflexivity.
Qed.

Lemma decode_then_encode_witness :
  TextDecoder_decode true false [0xEF; 0xBB; 0xBF; 0xE2; 0x82; 0xAC] = Some [0x20AC]
  /\ utf8Bytes (Some [0x20AC]) = [0xE2; 0x82; 0xAC]
  /\ TextDecoder_decode true false [0xC0; 0xAF] = None
  /\ TextDecoder_decode true false [0xED; 0xA0; 0x80] = None.
Proof.
  assert (H : TextDecoder_decode true false [0xEF; 0xBB; 0xBF; 0xE2; 0x82; 0xAC]
              = Some [0x20AC]) by reflexivity.
  split; [exact H | split; [| split; reflexivity]].
  exact (proj2 (decode_then_encode _ _ H)).
Defined.
